(** * Grover amplitude-amplification kernel: serial and OpenMP diffusion

    Shallow embedding of [src/grover.c] (kernel, driver and command line)
    and of the stand-alone C++ variants [grover_serial.cpp] and
    [grover_parallel.cpp], with the properties of the kernel proved over
    exact real arithmetic and over IEEE 754 binary64. *)

From Stdlib Require Import String Ascii.
From Stdlib Require Import ZArith List Bool Lia Permutation.
From Stdlib Require Import Reals Lra.
From Stdlib Require Import Floats.SpecFloat.
Import ListNotations.

Set Implicit Arguments.

(** ** Arithmetic of the amplitudes

    The kernel is written once over the operations the C code applies to a
    [double]; it is instantiated with the real numbers (exact arithmetic)
    and with binary64 floating point (what the machine computes). *)

Class Arith (F : Type) : Type := {
  fzero : F;                 (* the literal 0.0 *)
  fone  : F;                 (* the literal 1.0 *)
  ftwo  : F;                 (* the literal 2.0 *)
  fadd  : F -> F -> F;
  fsub  : F -> F -> F;
  fmul  : F -> F -> F;
  fdiv  : F -> F -> F;
  fneg  : F -> F;
  fsqrt : F -> F;
  of_size : Z -> F           (* the conversion (double)N *)
}.

#[export] Instance Arith_R : Arith R := {
  fzero := 0%R; fone := 1%R; ftwo := 2%R;
  fadd := Rplus; fsub := Rminus; fmul := Rmult; fdiv := Rdiv;
  fneg := Ropp; fsqrt := sqrt; of_size := IZR
}.

(** *** binary64 *)

Definition double : Type := spec_float.

Module Double.

Definition prec : Z := 53.
Definition emax : Z := 1024.

Definition add : double -> double -> double := SFadd prec emax.
Definition sub : double -> double -> double := SFsub prec emax.
Definition mul : double -> double -> double := SFmul prec emax.
Definition div : double -> double -> double := SFdiv prec emax.
Definition sqrt : double -> double := SFsqrt prec emax.
Definition opp : double -> double := SFopp.

(** Conversion of an integer, rounding to nearest-even. *)
Definition of_Z (z : Z) : double := binary_normalize prec emax z 0 false.

(** The value [m * 2^e] as a double (used for decimal literals whose
    nearest double is known). *)
Definition lit (m e : Z) : double := binary_normalize prec emax m e false.

Definition zero : double := S754_zero false.
Definition one  : double := Eval vm_compute in of_Z 1.
Definition two  : double := Eval vm_compute in of_Z 2.
Definition four : double := Eval vm_compute in of_Z 4.
Definition half : double := Eval vm_compute in lit 1 (-1).
Definition quarter : double := Eval vm_compute in lit 1 (-2).
Definition mone : double := Eval vm_compute in opp one.
Definition mhalf : double := Eval vm_compute in opp half.

(** [M_PI], 3.14159265358979323846, whose nearest double is
    0x400921FB54442D18. *)
Definition M_PI : double := S754_finite false 7074237752028440 (-51).

(** A value that a C [double] can hold. *)
Definition is_double (x : double) : Prop := valid_binary prec emax x = true.

(** [floor] followed by the conversion to an integer: [None] for NaN and
    the infinities. *)
Definition floor (x : double) : option Z :=
  match x with
  | S754_zero _ => Some 0%Z
  | S754_finite s m e =>
      let v := if s then Z.neg m else Z.pos m in
      Some (if (0 <=? e)%Z then (v * 2 ^ e)%Z else (v / 2 ^ (- e))%Z)
  | _ => None
  end.

(** The integral part, as the cast of a [double] to an integer takes it. *)
Definition trunc (x : double) : option Z :=
  match x with
  | S754_zero _ => Some 0%Z
  | S754_finite s m e =>
      let v := if s then Z.neg m else Z.pos m in
      Some (if (0 <=? e)%Z then (v * 2 ^ e)%Z else Z.quot v (2 ^ (- e)))
  | _ => None
  end.

(** The cast [(int)x] of an integral value: out of the range of [int] the
    conversion is undefined. *)
Definition to_int (z : Z) : option Z :=
  if ((- 2 ^ 31 <=? z) && (z <? 2 ^ 31))%Z then Some z else None.

End Double.

#[export] Instance Arith_double : Arith double := {
  fzero := Double.zero; fone := Double.one; ftwo := Double.two;
  fadd := Double.add; fsub := Double.sub; fmul := Double.mul;
  fdiv := Double.div; fneg := Double.opp; fsqrt := Double.sqrt;
  of_size := Double.of_Z
}.

(** *** Integer casts *)

(** A wider integer read as [int] (two's complement, low 32 bits). *)
Definition to_int32 (z : Z) : Z := ((z + 2 ^ 31) mod 2 ^ 32 - 2 ^ 31)%Z.

(** The cast [(size_t)] of a [long long] or an [int]. *)
Definition to_size_t (z : Z) : Z := (z mod 2 ^ 64)%Z.

(** ** The kernel of [src/grover.c] *)

Section Kernel.

Context {F : Type} {A : Arith F}.

(** [init_state]: the uniform state, every entry [1.0 / sqrt((double)N)]. *)
Definition init_state (N : nat) : list F :=
  let v := fdiv fone (fsqrt (of_size (Z.of_nat N))) in
  repeat v N.

(** [oracle]: [a[target] = -a[target]].  An index outside the array is
    undefined behaviour in C, rendered as [None]. *)
Definition oracle (a : list F) (target : nat) : option (list F) :=
  match nth_error a target with
  | Some x => Some (firstn target a ++ fneg x :: skipn (S target) a)
  | None => None
  end.

(** The accumulation loop [sum = 0.0; for (i...) sum += a[i]]. *)
Definition accumulate (a : list F) : F := fold_left fadd a fzero.

(** The update loop [a[i] = 2.0 * mean - a[i]]. *)
Definition reflect (mean : F) (a : list F) : list F :=
  map (fun x => fsub (fmul ftwo mean) x) a.

(** [diffusion_serial]. *)
Definition diffusion_serial (a : list F) : list F :=
  let sum := accumulate a in
  let mean := fdiv sum (of_size (Z.of_nat (length a))) in
  reflect mean a.

(** *** OpenMP work sharing

    [#pragma omp parallel for] with the default (static) schedule gives
    each of the [T] threads one contiguous block of iterations: with
    [q = N / T] and [r = N mod T], the first [r] threads get [q + 1]
    iterations and the others [q]. *)
Definition static_sizes (N T : nat) : list nat :=
  map (fun t => (N / T + (if t <? N mod T then 1 else 0))%nat) (seq 0 T).

Fixpoint split_sizes (sizes : list nat) (a : list F) : list (list F) :=
  match sizes with
  | [] => []
  | n :: rest => firstn n a :: split_sizes rest (skipn n a)
  end.

Definition static_chunks (T : nat) (a : list F) : list (list F) :=
  split_sizes (static_sizes (length a) T) a.

(** [reduction(+ : sum)]: every thread accumulates a private copy that
    starts at 0.0 over its own block; the private copies are then added
    into the original [sum] (still 0.0) in the order [order] in which the
    threads reach the end of the loop, which OpenMP leaves open. *)
Definition omp_reduction (order : list nat) (chunks : list (list F)) : F :=
  let partial := map accumulate chunks in
  fold_left fadd (map (fun t => nth t partial fzero) order) fzero.

(** The team that [omp_set_num_threads(threads)] yields: [threads]
    workers; a non-positive request is implementation defined and libgomp
    turns it into a team of one. *)
Definition omp_team (threads : Z) : nat := Z.to_nat (Z.max 1 threads).

(** An order of arrival of the threads of a team. *)
Definition arrival_order (threads : Z) (order : list nat) : Prop :=
  Permutation order (seq 0 (omp_team threads)).

(** [diffusion_parallel]: both loops are work-shared; the second loop
    writes [a[i]] from [a[i]] and [mean] only. *)
Definition diffusion_parallel (order : list nat) (a : list F) (threads : Z)
  : list F :=
  let sum := omp_reduction order (static_chunks (omp_team threads) a) in
  let mean := fdiv sum (of_size (Z.of_nat (length a))) in
  reflect mean a.

(** The round loop of [run_grover_once]: oracle, then the selected
    diffusion; [sched it] is the arrival order of the threads in round
    [it]. *)
Fixpoint grover_loop (sched : nat -> list nat) (target : nat)
    (parallel : bool) (threads : Z) (rounds it : nat) (a : list F)
  : option (list F) :=
  match rounds with
  | O => Some a
  | S rounds' =>
      match oracle a target with
      | None => None
      | Some a1 =>
          grover_loop sched target parallel threads rounds' (S it)
            (if parallel then diffusion_parallel (sched it) a1 threads
             else diffusion_serial a1)
      end
  end.

(** *** The C++ variants

    [grover_iteration] of [grover_serial.cpp]: oracle and diffuser in one
    function over a [std::vector<double>], with the size and the index
    held in [int]s. *)
Definition oracle_at (amplitudes : list F) (markedIndex : Z)
  : option (list F) :=
  if (markedIndex <? 0)%Z then None
  else oracle amplitudes (Z.to_nat markedIndex).

Definition grover_iteration (amplitudes : list F) (markedIndex : Z)
  : option (list F) :=
  let n := to_int32 (Z.of_nat (length amplitudes)) in
  match oracle_at amplitudes markedIndex with
  | None => None
  | Some a1 =>
      let avg := fold_left fadd (firstn (Z.to_nat n) a1) fzero in
      let avg := fdiv avg (of_size n) in
      Some (map (fun x => fsub (fmul ftwo avg) x) (firstn (Z.to_nat n) a1)
            ++ skipn (Z.to_nat n) a1)
  end.

(** [grover_iteration] of [grover_parallel.cpp]: the same with both loops
    work-shared among the [team] threads of the runtime. *)
Definition grover_iteration_omp (order : list nat) (team : nat)
    (amplitudes : list F) (markedIndex : Z) : option (list F) :=
  let n := to_int32 (Z.of_nat (length amplitudes)) in
  match oracle_at amplitudes markedIndex with
  | None => None
  | Some a1 =>
      let avg :=
        omp_reduction order (static_chunks team (firstn (Z.to_nat n) a1)) in
      let avg := fdiv avg (of_size n) in
      Some (map (fun x => fsub (fmul ftwo avg) x) (firstn (Z.to_nat n) a1)
            ++ skipn (Z.to_nat n) a1)
  end.

End Kernel.

(** ** The command line of [src/grover.c] *)

Open Scope string_scope.
Open Scope list_scope.
Open Scope Z_scope.

(** *** Numbers on the command line: [atoll], [atoi] and the casts *)

Definition is_space (c : ascii) : bool :=
  let n := Z.of_nat (nat_of_ascii c) in
  (n =? 32) || ((9 <=? n) && (n <=? 13)).

Definition digit_of (c : ascii) : option Z :=
  let n := Z.of_nat (nat_of_ascii c) in
  if (48 <=? n) && (n <=? 57) then Some (n - 48) else None.

Fixpoint skip_spaces (s : string) : string :=
  match s with
  | String c s' => if is_space c then skip_spaces s' else s
  | EmptyString => s
  end.

Fixpoint digits_value (s : string) (acc : Z) : Z :=
  match s with
  | String c s' =>
      match digit_of c with
      | Some d => digits_value s' (10 * acc + d)
      | None => acc
      end
  | EmptyString => acc
  end.

(** The integer that the longest prefix "spaces, optional sign, digits"
    denotes; 0 when there is no digit. *)
Definition parse_integer (s : string) : Z :=
  match skip_spaces s with
  | String "-" s' => - digits_value s' 0
  | String "+" s' => digits_value s' 0
  | s' => digits_value s' 0
  end.

Definition clamp (lo hi z : Z) : Z := Z.max lo (Z.min hi z).

(** [atoll]: as [strtoll], which saturates at the ends of [long long]. *)
Definition atoll (s : string) : Z :=
  clamp (- 2 ^ 63) (2 ^ 63 - 1) (parse_integer s).

(** [atoi]: [(int) strtol(s, NULL, 10)]. *)
Definition atoi (s : string) : Z := to_int32 (atoll s).

(** [is_power_of_two]: [x && ((x & (x - 1)) == 0)] on [unsigned long]. *)
Definition is_power_of_two (x : Z) : bool :=
  negb (x =? 0) && (Z.land x ((x - 1) mod 2 ^ 64) =? 0).

(** [(int)floor(M_PI/4.0 * sqrt((double)N))]; [None] when the value does
    not fit an [int]. *)
Definition grover_iterations (N : Z) : option Z :=
  match Double.floor
          (Double.mul (Double.div Double.M_PI Double.four)
                      (Double.sqrt (Double.of_Z N))) with
  | Some z => Double.to_int z
  | None => None
  end.

(** *** The environment of a process and what it has done so far *)

Record env : Type := {
  malloc_ok : Z -> bool;          (* does [malloc] of so many bytes succeed *)
  clock : nat -> double;          (* successive readings of [now_seconds] *)
  time_null : Z;                  (* [time(NULL)] *)
  libc_rand : Z -> nat -> Z;      (* the sequence of [rand()] after [srand(seed)] *)
  omp_sched : nat -> list nat;    (* arrival order in each parallel reduction *)
  omp_max_threads : Z;            (* [omp_get_max_threads()] *)
  fopen_ok : bool                 (* can data/results.csv be opened *)
}.

Inductive line : Type :=
| Header                          (* mode,N,iterations,threads,time_seconds *)
| Rec (mode : string) (N iterations threads : Z) (time : double)
| Completed (N : Z)               (* Completed N=... *)
| Seconds (time : double)         (* the output of the C++ programs *)
| Text (s : string).

(** One call of [run_grover_once], as seen from inside. *)
Record run_info : Type := {
  run_N : Z;
  run_target : Z;
  run_iterations : Z;
  run_parallel : bool;
  run_threads : Z;
  run_vector : option (list double)   (* the vector when it is freed *)
}.

Record world : Type := {
  clock_reads : nat;              (* calls of [now_seconds] so far *)
  rng_seed : Z;                   (* the seed of the last [srand] *)
  rng_calls : nat;                (* calls of [rand] since *)
  omp_regions : nat;              (* parallel reductions so far *)
  out : list line;                (* standard output *)
  err : list string;              (* standard error *)
  csv : list line;                (* data/results.csv *)
  runs : list run_info
}.

(** Before [main]: nothing printed, and [rand] as after [srand(1)]. *)
Definition world0 : world :=
  {| clock_reads := 0; rng_seed := 1; rng_calls := 0; omp_regions := 0;
     out := []; err := []; csv := []; runs := [] |}.

Inductive result (A : Type) : Type :=
| Ok (a : A) (w : world)
| Undefined.                      (* undefined behaviour *)

Arguments Undefined {A}.

Definition put_out (l : line) (w : world) : world :=
  {| clock_reads := clock_reads w; rng_seed := rng_seed w;
     rng_calls := rng_calls w; omp_regions := omp_regions w;
     out := out w ++ [l]; err := err w; csv := csv w; runs := runs w |}.

Definition put_err (s : string) (w : world) : world :=
  {| clock_reads := clock_reads w; rng_seed := rng_seed w;
     rng_calls := rng_calls w; omp_regions := omp_regions w;
     out := out w; err := err w ++ [s]; csv := csv w; runs := runs w |}.

Definition put_csv (l : line) (w : world) : world :=
  {| clock_reads := clock_reads w; rng_seed := rng_seed w;
     rng_calls := rng_calls w; omp_regions := omp_regions w;
     out := out w; err := err w; csv := csv w ++ [l]; runs := runs w |}.

(** [srand(seed)]. *)
Definition srand (seed : Z) (w : world) : world :=
  {| clock_reads := clock_reads w; rng_seed := seed mod 2 ^ 32;
     rng_calls := 0; omp_regions := omp_regions w;
     out := out w; err := err w; csv := csv w; runs := runs w |}.

(** [rand()]: the next value of the sequence, in [0, RAND_MAX]. *)
Definition rand (e : env) (w : world) : Z * world :=
  (libc_rand e (rng_seed w) (rng_calls w) mod 2 ^ 31,
   {| clock_reads := clock_reads w; rng_seed := rng_seed w;
      rng_calls := S (rng_calls w); omp_regions := omp_regions w;
      out := out w; err := err w; csv := csv w; runs := runs w |}).

(** *** [run_grover_once] *)

Definition sizeof_double : Z := 8.

Definition run_grover_once (e : env) (w : world)
    (N target iterations : Z) (parallel : bool) (threads : Z)
  : result double :=
  let bytes := (sizeof_double * N) mod 2 ^ 64 in
  if negb (malloc_ok e bytes) then
    Ok (Double.opp Double.one)
       (put_err "allocation failed"
          {| clock_reads := clock_reads w; rng_seed := rng_seed w;
             rng_calls := rng_calls w; omp_regions := omp_regions w;
             out := out w; err := err w; csv := csv w;
             runs := runs w ++
               [{| run_N := N; run_target := target;
                   run_iterations := iterations; run_parallel := parallel;
                   run_threads := threads; run_vector := None |}] |})
  else if bytes <? sizeof_double * N then
    Undefined                     (* the block is shorter than the array *)
  else
    let a := init_state (Z.to_nat N) in
    let t0 := clock e (clock_reads w) in
    let rounds := Z.to_nat iterations in
    match grover_loop (fun it => omp_sched e it) (Z.to_nat target)
            parallel threads rounds (omp_regions w) a with
    | None => Undefined
    | Some a' =>
        let t1 := clock e (S (clock_reads w)) in
        Ok (Double.sub t1 t0)
           {| clock_reads := S (S (clock_reads w)); rng_seed := rng_seed w;
              rng_calls := rng_calls w;
              omp_regions :=
                if parallel then (omp_regions w + rounds)%nat
                else omp_regions w;
              out := out w; err := err w; csv := csv w;
              runs := runs w ++
                [{| run_N := N; run_target := target;
                    run_iterations := iterations; run_parallel := parallel;
                    run_threads := threads; run_vector := Some a' |}] |}
    end.

(** *** [main] *)

(** The [trials] repetitions of one strategy in the sweep. *)
Fixpoint sweep_trials (e : env) (w : world) (trials : nat) (mode : string)
    (N target iterations : Z) (parallel : bool) (threads : Z)
  : result unit :=
  match trials with
  | O => Ok tt w
  | S k =>
      match run_grover_once e w N target iterations parallel threads with
      | Undefined => Undefined
      | Ok t w1 =>
          sweep_trials e (put_csv (Rec mode N iterations threads t) w1)
            k mode N target iterations parallel threads
      end
  end.

Fixpoint sweep_sizes (e : env) (w : world) (trials : nat) (sizes : list Z)
  : result unit :=
  match sizes with
  | [] => Ok tt w
  | N :: rest =>
      match grover_iterations N with
      | None => Undefined
      | Some iterations =>
          let target := if 1 <? N then N / 3 else 0 in
          match sweep_trials e w trials "serial" N target iterations false 1 with
          | Undefined => Undefined
          | Ok _ w1 =>
              let threads := omp_max_threads e in
              match sweep_trials e w1 trials "parallel" N target iterations
                      true threads with
              | Undefined => Undefined
              | Ok _ w2 =>
                  sweep_sizes e (put_out (Completed N) w2) trials rest
              end
          end
      end
  end.

Definition default_sizes : list Z :=
  [2 ^ 12; 2 ^ 14; 2 ^ 16; 2 ^ 18; 2 ^ 20; 2 ^ 22; 2 ^ 24].

Definition single_run (e : env) (w : world) (mode : string) (N : Z)
    (parallel : bool) (threads : Z) : result Z :=
  if negb (is_power_of_two N) then
    Ok 1 (put_err "N must be power of two" w)
  else
    match grover_iterations N with
    | None => Undefined
    | Some iterations =>
        let (r, w1) := rand e w in
        let target := to_int32 (to_size_t r mod N) in
        match run_grover_once e w1 N (to_size_t target) iterations
                parallel threads with
        | Undefined => Undefined
        | Ok t w2 => Ok 0 (put_out (Rec mode N iterations threads t) w2)
        end
    end.

(** The default sweep, reached when no single run is asked for. *)
Definition sweep (e : env) : result Z :=
  if negb (fopen_ok e) then Ok 1 (put_err "fopen" world0)
  else
    let w := srand (time_null e) (put_csv Header world0) in
    match sweep_sizes e w 3 default_sizes with
    | Undefined => Undefined
    | Ok _ w' => Ok 0 (put_out (Text "Results written to data/results.csv") w')
    end.

Definition main (e : env) (argv : list string) : result Z :=
  let argc := Z.of_nat (length argv) in
  if (String.eqb (nth 1 argv EmptyString) "serial") && (3 <=? argc) then
    single_run e world0 "serial" (to_size_t (atoll (nth 2 argv EmptyString)))
      false 1
  else if (String.eqb (nth 1 argv EmptyString) "parallel") && (4 <=? argc) then
    single_run e world0 "parallel" (to_size_t (atoll (nth 2 argv EmptyString)))
      true (atoi (nth 3 argv EmptyString))
  else sweep e.

(** ** The stand-alone programs [grover_serial] and [grover_parallel] *)

(** [(int)(M_PI / 4 * std::sqrt((double)nn))]. *)
Definition cpp_iterations (nn : Z) : option Z :=
  match Double.trunc
          (Double.mul (Double.div Double.M_PI Double.four)
                      (Double.sqrt (Double.of_Z nn))) with
  | Some z => Double.to_int z
  | None => None
  end.

(** The largest [std::vector<double>]; [assign] beyond it throws
    [std::length_error], which nothing catches. *)
Definition vector_max_size : Z := 2 ^ 60 - 1.

Fixpoint cpp_loop (step : nat -> list double -> option (list double))
    (rounds it : nat) (a : list double) : option (list double) :=
  match rounds with
  | O => Some a
  | S k =>
      match step it a with
      | None => None
      | Some a' => cpp_loop step k (S it) a'
      end
  end.

Definition cpp_run (e : env) (n : Z) (parallel : bool) (threads : Z)
    (step : Z -> nat -> list double -> option (list double)) : result Z :=
  let nn := to_size_t n in
  if vector_max_size <? nn then
    Ok 134 (put_err "terminate called after throwing std::length_error" world0)
  else if negb (malloc_ok e (sizeof_double * nn)) then
    Ok 3 (put_err "ERROR:MEM" world0)
  else
    let amplitudes : list double :=
      repeat (fdiv fone (fsqrt (of_size nn))) (Z.to_nat nn) in
    let markedIndex := nn / 3 in
    match cpp_iterations nn with
    | None => Undefined
    | Some iterations =>
        match cpp_loop (step (to_int32 markedIndex))
                (Z.to_nat iterations) 0 amplitudes with
        | None => Undefined
        | Some a' =>
            Ok 0 (put_out (Seconds (Double.sub (clock e 1%nat) (clock e 0%nat)))
                    {| clock_reads := 2; rng_seed := 1; rng_calls := 0;
                       omp_regions :=
                         if parallel then Z.to_nat iterations else 0%nat;
                       out := []; err := []; csv := [];
                       runs := [{| run_N := nn; run_target := markedIndex;
                                   run_iterations := iterations;
                                   run_parallel := parallel;
                                   run_threads := threads;
                                   run_vector := Some a' |}] |})
        end
    end.

(** [main] of [grover_serial.cpp]: [./grover_serial [n]]. *)
Definition main_serial (e : env) (argv : list string) : result Z :=
  let argc := Z.of_nat (length argv) in
  let n := if 1 <? argc then atoll (nth 1 argv EmptyString) else 2 ^ 16 in
  if n <=? 0 then Ok 2 (put_err "Invalid n" world0)
  else cpp_run e n false 1
         (fun markedIndex _ a => grover_iteration a markedIndex).

(** [main] of [grover_parallel.cpp]: [./grover_parallel [n] [threads]];
    a thread count that is not positive is passed over. *)
Definition main_parallel (e : env) (argv : list string) : result Z :=
  let argc := Z.of_nat (length argv) in
  let n := if 1 <? argc then atoll (nth 1 argv EmptyString) else 2 ^ 16 in
  if n <=? 0 then Ok 2 (put_err "Invalid n" world0)
  else
    let t := if 2 <? argc then atoi (nth 2 argv EmptyString) else 0 in
    let team := if 0 <? t then t else omp_max_threads e in
    cpp_run e n true team
      (fun markedIndex it a =>
         grover_iteration_omp (omp_sched e it) (omp_team team) a markedIndex).

(** ** Measures used in the statements *)

(** The vectors of the scenario N = 4, target 1: the uniform state, and
    the state after each oracle and each diffusion of two rounds. *)
Definition uniform4 : list double :=
  [Double.half; Double.half; Double.half; Double.half].
Definition marked1 : list double :=
  [Double.half; Double.mhalf; Double.half; Double.half].
Definition round1 : list double :=
  [Double.zero; Double.one; Double.zero; Double.zero].
Definition marked2 : list double :=
  [Double.zero; Double.mone; Double.zero; Double.zero].
Definition round2 : list double :=
  [Double.mhalf; Double.half; Double.mhalf; Double.mhalf].

(** The sum of a list of reals. *)
Definition Rsum (a : list R) : R := fold_right Rplus 0%R a.

(** The sum of the squares of the amplitudes. *)
Definition sumsq (a : list R) : R :=
  fold_right (fun x s => (x * x + s)%R) 0%R a.

(** [|x - y| <= tol] as a test on doubles would compute it. *)
Definition within (tol x y : double) : bool :=
  SFleb (SFabs (Double.sub x y)) tol.

(** What rounding a non-zero mantissa can give. *)
Definition rounded (s : bool) (x : double) : Prop :=
  match x with
  | S754_finite s' _ e' => s' = s /\ emin Double.prec Double.emax <= e'
  | S754_infinity s' => s' = s
  | _ => False
  end.

(** The invariant of a running sum: the exponent of a finite value is at
    least [emin], and the value is not [-0.0]. *)
Definition above_emin (x : double) : Prop :=
  match x with
  | S754_finite _ _ e => emin Double.prec Double.emax <= e
  | _ => True
  end.

Definition not_neg_zero (x : double) : Prop := x <> S754_zero true.

(** What a process shows of itself, the measured times left out. *)
Definition erase_time (l : line) : line :=
  match l with
  | Rec mode N iterations threads _ =>
      Rec mode N iterations threads Double.zero
  | Seconds _ => Seconds Double.zero
  | _ => l
  end.

Definition observable (r : result Z) : option (Z * world) :=
  match r with
  | Ok status w =>
      Some (status,
            {| clock_reads := clock_reads w; rng_seed := rng_seed w;
               rng_calls := rng_calls w; omp_regions := omp_regions w;
               out := map erase_time (out w); err := err w;
               csv := map erase_time (csv w); runs := runs w |})
  | Undefined => None
  end.

(** All the orders in which the threads of a team can arrive. *)
Fixpoint insert_all (x : nat) (l : list nat) : list (list nat) :=
  match l with
  | [] => [[x]]
  | y :: l' => (x :: l) :: map (cons y) (insert_all x l')
  end.

Fixpoint perms (l : list nat) : list (list nat) :=
  match l with
  | [] => [[]]
  | x :: l' => flat_map (insert_all x) (perms l')
  end.

(** A sample environment: allocation succeeds, the clock ticks once per
    reading, [rand] is a linear congruential generator. *)
Definition env0 : env :=
  {| malloc_ok := fun _ => true;
     clock := fun k => Double.of_Z (Z.of_nat k);
     time_null := 1700000000;
     libc_rand := fun seed k => (seed * 1103515245 + 12345 + Z.of_nat k) / 65536;
     omp_sched := fun _ => [0; 1; 2; 3]%nat;
     omp_max_threads := 4;
     fopen_ok := true |}.

(** Another process on the same machine: started later, and timed by a
    different clock. *)
Definition env_later : env :=
  {| malloc_ok := malloc_ok env0;
     clock := fun k => Double.of_Z (1000 + 7 * Z.of_nat k);
     time_null := 1800000000;
     libc_rand := libc_rand env0; omp_sched := omp_sched env0;
     omp_max_threads := omp_max_threads env0; fopen_ok := true |}.

(** The same machine out of memory. *)
Definition env_oom : env :=
  {| malloc_ok := fun _ => false;
     clock := clock env0; time_null := time_null env0;
     libc_rand := libc_rand env0; omp_sched := omp_sched env0;
     omp_max_threads := omp_max_threads env0; fopen_ok := true |}.

(** ** The states of the search

    A vector with one amplitude at the target and another, shared by all
    the other entries; the uniform state is of this shape, and a round
    keeps it. *)
Definition marked_state (N target : nat) (alpha beta : R) : list R :=
  repeat beta target ++ alpha :: repeat beta (N - S target).

(** The angle of the search: its sine is the uniform amplitude. *)
Definition grover_angle (N : nat) : R := asin (/ sqrt (INR N)).

(** The iteration count computed in integers: the integral part of
    [(M_PI / 4) * sqrt N], with [M_PI / 4 = 7074237752028440 / 2^53]. *)
Definition reference_iterations (N : Z) : Z :=
  Z.sqrt (7074237752028440 * 7074237752028440 * N / 2 ^ 106).

(** ** Doubles as real numbers

    The value of a double, and what the rounding of an operation returns;
    used to bound the distance between what the kernel computes in
    binary64 and what it computes in exact arithmetic. *)

(** What [binary_round_aux] returns for the integer [m1] at the exponent
    [e1]. *)
Definition round_result (s : bool) (m1 e1 : Z) (r : double) : Prop :=
  match r with
  | S754_zero s' => s' = s /\ m1 = 0
  | S754_finite s' m' e' =>
      s' = s /\ bounded Double.prec Double.emax m' e' = true /\
      e1 <= e' /\ Z.pos m' * 2 ^ (e' - e1) = m1
  | S754_infinity s' => s' = s /\ 2 ^ 2098 <= m1 * 2 ^ (e1 + 1074)
  | S754_nan => False
  end.

(** The real number a double stands for (0 for what is not finite). *)
Definition pow2 (e : Z) : R := powerRZ 2 e.

Definition signR (s : bool) (x : R) : R := if s then (- x)%R else x.

Definition B2R (x : double) : R :=
  match x with
  | S754_finite s m e => signR s (IZR (Z.pos m) * pow2 e)
  | _ => 0%R
  end.

Definition is_finite (x : double) : bool :=
  match x with
  | S754_zero _ | S754_finite _ _ _ => true
  | _ => false
  end.

(** A double that holds a number. *)
Definition number (x : double) : Prop :=
  is_finite x = true /\ Double.is_double x.

(** An amplitude that a vector of magnitude at most [B] can hold. *)
Definition good (B : R) (x : double) : Prop :=
  number x /\ (Rabs (B2R x) <= B)%R.

(** The doubles [b] hold the reals [v] up to [tol]. *)
Definition approx (tol : R) (v : list R) (b : list double) : Prop :=
  Forall2 (fun r y => number y /\ (Rabs (B2R y - r) <= tol)%R) v b.

(** The machine of [env0] with the threads arriving in the opposite
    order. *)
Definition env_reversed : env :=
  {| malloc_ok := malloc_ok env0;
     clock := clock env0; time_null := time_null env0;
     libc_rand := libc_rand env0;
     omp_sched := fun _ => [3; 2; 1; 0]%nat;
     omp_max_threads := omp_max_threads env0; fopen_ok := true |}.

(** * Properties *)

(** Closed facts about doubles and about the command line are settled by
    evaluation. *)
Ltac evaluate := vm_compute; reflexivity.

(** ** Rounding never turns a non-zero sum into a zero

    A binary64 addition rounds an integer mantissa at an exponent that is
    at least [emin]; a non-zero mantissa then stays non-zero, so the only
    zeros an addition yields are exact ones, and those are [+0.0]. *)

Module DoubleFacts.

Import Double.

Lemma iter_pos_nat {A : Type} (f : A -> A) (p : positive) (x : A) :
  iter_pos f p x = Nat.iter (Pos.to_nat p) f x.
Proof.
  revert x; induction p as [p IH | p IH | ]; intros x.
  - change (iter_pos f p~1 x) with (iter_pos f p (iter_pos f p (f x))).
    rewrite !IH, Pos2Nat.inj_xI.
    replace (S (2 * Pos.to_nat p))%nat
      with (Pos.to_nat p + (Pos.to_nat p + 1))%nat by lia.
    now rewrite !Nat.iter_add.
  - change (iter_pos f p~0 x) with (iter_pos f p (iter_pos f p x)).
    rewrite !IH, Pos2Nat.inj_xO.
    replace (2 * Pos.to_nat p)%nat
      with (Pos.to_nat p + Pos.to_nat p)%nat by lia.
    now rewrite Nat.iter_add.
  - reflexivity.
Qed.

Lemma shr_1_halves (mrs : shr_record) :
  0 <= shr_m mrs -> shr_m (shr_1 mrs) = Z.div2 (shr_m mrs).
Proof.
  destruct mrs as [m r s]; cbn [shr_m].
  destruct m as [ | [q | q | ] | q ]; intros H; try reflexivity; lia.
Qed.

Lemma iter_shr_1_divides (n : nat) : forall mrs : shr_record,
  0 <= shr_m mrs ->
  shr_m (Nat.iter n shr_1 mrs) = shr_m mrs / 2 ^ Z.of_nat n.
Proof.
  induction n as [ | n IH]; intros mrs H.
  - cbn. now rewrite Z.div_1_r.
  - rewrite Nat.iter_succ_r, IH; rewrite shr_1_halves, Z.div2_div by assumption.
    + rewrite Nat2Z.inj_succ, Z.pow_succ_r, Z.div_div by lia. reflexivity.
    + apply Z.div_pos; lia.
Qed.

Lemma digits2_pos_lower (p : positive) :
  2 ^ (Z.pos (digits2_pos p) - 1) <= Z.pos p.
Proof.
  induction p as [p IH | p IH | ]; cbn [digits2_pos];
    [ | | cbn; lia ];
    rewrite Pos2Z.inj_succ;
    replace (Z.succ (Z.pos (digits2_pos p)) - 1)
      with (Z.succ (Z.pos (digits2_pos p) - 1)) by lia;
    rewrite Z.pow_succ_r by lia; lia.
Qed.

Lemma shr_fexp_positive (m : positive) (e : Z) (l : location) :
  emin prec emax <= e ->
  0 < shr_m (fst (shr_fexp prec emax (Z.pos m) e l)) /\
  emin prec emax <= snd (shr_fexp prec emax (Z.pos m) e l).
Proof.
  intros He. unfold shr_fexp, shr.
  assert (Hm : shr_m (shr_record_of_loc (Z.pos m) l) = Z.pos m)
    by (destruct l as [ | [ | | ]]; reflexivity).
  destruct (fexp prec emax (Zdigits2 (Z.pos m) + e) - e) as [ | p | p] eqn:E;
    cbn [fst snd].
  - rewrite Hm. lia.
  - split; [ | lia].
    rewrite iter_pos_nat, iter_shr_1_divides by (rewrite Hm; lia).
    rewrite Hm, positive_nat_Z.
    unfold fexp in E. cbn [Zdigits2] in E.
    assert (Hp : Z.pos p = Z.pos (digits2_pos m) - prec) by lia.
    apply Z.div_str_pos. split; [apply Z.pow_pos_nonneg; lia | ].
    etransitivity; [ | apply digits2_pos_lower].
    apply Z.pow_le_mono_r; unfold prec in *; lia.
  - rewrite Hm. lia.
Qed.

Lemma binary_round_aux_rounded (s : bool) (m : positive) (e : Z) :
  emin prec emax <= e ->
  rounded s (binary_round_aux prec emax s (Z.pos m) e loc_Exact).
Proof.
  intros He. unfold binary_round_aux.
  destruct (@shr_fexp_positive m e loc_Exact He) as [H1 H2].
  destruct (shr_fexp prec emax (Z.pos m) e loc_Exact) as [mrs' e'].
  cbn [fst snd] in H1, H2.
  set (m1 := round_nearest_even (shr_m mrs') (loc_of_shr_record mrs')).
  assert (Hm1 : 0 < m1).
  { unfold m1, round_nearest_even.
    destruct (loc_of_shr_record mrs') as [ | [ | | ]]; try lia.
    destruct (Z.even (shr_m mrs')); lia. }
  destruct m1 as [ | m1 | m1]; try lia.
  destruct (@shr_fexp_positive m1 e' loc_Exact H2) as [H3 H4].
  destruct (shr_fexp prec emax (Z.pos m1) e' loc_Exact) as [mrs'' e''].
  cbn [fst snd] in H3, H4.
  destruct (shr_m mrs''); try lia.
  destruct (e'' <=? emax - prec); cbn; auto.
Qed.

Lemma binary_round_rounded (s : bool) (m : positive) (e : Z) :
  emin prec emax <= e -> rounded s (binary_round prec emax s m e).
Proof.
  intros He. unfold binary_round.
  destruct (shl_align m e (fexp prec emax (Z.pos (digits2_pos m) + e)))
    as [mz ez] eqn:E.
  apply binary_round_aux_rounded.
  unfold shl_align in E.
  destruct (fexp prec emax (Z.pos (digits2_pos m) + e) - e) eqn:E2;
    inversion E; subst; try lia.
  unfold fexp. lia.
Qed.

Lemma is_double_above_emin (x : double) : is_double x -> above_emin x.
Proof.
  destruct x as [ | | | s m e]; cbn [above_emin]; auto.
  unfold is_double, valid_binary, bounded, canonical_mantissa.
  intros H. apply andb_prop in H as [H _].
  apply Z.eqb_eq in H. unfold fexp in H. lia.
Qed.

Lemma rounded_sum (s : bool) (x : double) :
  rounded s x -> above_emin x /\ not_neg_zero x.
Proof.
  destruct x; cbn; intros H; try contradiction;
    (split; [ tauto | discriminate ]).
Qed.

Lemma binary_normalize_sum (m e : Z) :
  emin prec emax <= e ->
  above_emin (binary_normalize prec emax m e false) /\
  not_neg_zero (binary_normalize prec emax m e false).
Proof.
  intros He. destruct m as [ | m | m]; cbn [binary_normalize].
  - split; [exact I | discriminate].
  - eapply rounded_sum, binary_round_rounded, He.
  - eapply rounded_sum, binary_round_rounded, He.
Qed.

Lemma add_invariant (x y : double) :
  above_emin x -> not_neg_zero x -> above_emin y ->
  above_emin (add x y) /\ not_neg_zero (add x y).
Proof.
  unfold add, not_neg_zero.
  destruct x as [sx | sx | | sx mx ex], y as [sy | sy | | sy my ey];
    cbn [SFadd above_emin]; intros Hx Hnz Hy;
    try (split; [ exact I || assumption | discriminate ]).
  - destruct sx, sy; (split; [exact I | discriminate || assumption ]).
  - destruct sx, sy; (split; [exact I | discriminate ]).
  - apply binary_normalize_sum. lia.
Qed.

Lemma accumulate_from_invariant (a : list double) : forall acc : double,
  Forall is_double a -> above_emin acc -> not_neg_zero acc ->
  not_neg_zero (fold_left add a acc).
Proof.
  induction a as [ | x a IH]; intros acc Ha Hacc Hnz; cbn [fold_left].
  - assumption.
  - inversion Ha as [ | ? ? Hx Ha']; subst.
    destruct (@add_invariant acc x Hacc Hnz (is_double_above_emin Hx)).
    now apply IH.
Qed.

(** The private copy of a reduction is never [-0.0], so adding it to the
    original 0.0 returns it unchanged. *)
Lemma zero_add_accumulate (a : list double) :
  Forall is_double a ->
  add zero (accumulate a) = accumulate a.
Proof.
  intros Ha.
  assert (H : not_neg_zero (accumulate a)).
  { apply accumulate_from_invariant; [assumption | exact I | discriminate]. }
  unfold not_neg_zero in H.
  destruct (accumulate a) as [[ | ] | | | ]; try reflexivity.
  now contradiction H.
Qed.

End DoubleFacts.

(** ** The static schedule covers the vector *)

Section Chunks.

Context {F : Type} {A : Arith F}.

Lemma split_sizes_length (sizes : list nat) : forall a : list F,
  length (split_sizes sizes a) = length sizes.
Proof.
  induction sizes as [ | n rest IH]; intros a; cbn; [ | rewrite IH];
    reflexivity.
Qed.

Lemma list_sum_cons (x : nat) (l : list nat) :
  list_sum (x :: l) = (x + list_sum l)%nat.
Proof. reflexivity. Qed.

Lemma concat_split_sizes (sizes : list nat) : forall a : list F,
  (length a <= list_sum sizes)%nat -> concat (split_sizes sizes a) = a.
Proof.
  induction sizes as [ | n rest IH]; intros a Ha.
  - destruct a; [reflexivity | cbn in Ha; lia].
  - rewrite list_sum_cons in Ha. cbn [split_sizes concat].
    rewrite IH; [apply firstn_skipn | ].
    rewrite length_skipn. lia.
Qed.

Lemma static_sizes_from (q r n : nat) : forall s : nat,
  list_sum (map (fun t => (q + (if t <? r then 1 else 0))%nat) (seq s n))
  = (n * q + (Nat.min (s + n) r - Nat.min s r))%nat.
Proof.
  induction n as [ | n IH]; intros s.
  - cbn. lia.
  - cbn [seq map]. rewrite list_sum_cons, IH, Nat.mul_succ_l.
    destruct (Nat.ltb_spec s r); lia.
Qed.

Lemma static_sizes_sum (N T : nat) :
  (1 <= T)%nat -> list_sum (static_sizes N T) = N.
Proof.
  intros HT. unfold static_sizes. rewrite static_sizes_from.
  pose proof (Nat.div_mod_eq N T) as Hdiv.
  pose proof (Nat.mod_upper_bound N T ltac:(lia)) as Hmod.
  cbn [Nat.add Nat.min]. rewrite Nat.min_r by lia. lia.
Qed.

Lemma static_chunks_length (T : nat) (a : list F) :
  length (static_chunks T a) = T.
Proof.
  unfold static_chunks, static_sizes.
  now rewrite split_sizes_length, length_map, length_seq.
Qed.

Lemma static_chunks_concat (T : nat) (a : list F) :
  (1 <= T)%nat -> concat (static_chunks T a) = a.
Proof.
  intros HT. apply concat_split_sizes. now rewrite static_sizes_sum.
Qed.

Lemma static_chunks_one (a : list F) : static_chunks 1 a = [a].
Proof.
  unfold static_chunks, static_sizes. cbn [seq map].
  rewrite Nat.div_1_r, Nat.mod_1_r. cbn [Nat.ltb Nat.leb split_sizes].
  now rewrite Nat.add_0_r, firstn_all.
Qed.

Lemma map_nth_seq (d : F) (l : list F) :
  map (fun i => nth i l d) (seq 0 (length l)) = l.
Proof.
  induction l as [ | x l IH]; [reflexivity | ].
  cbn [length seq map nth]. rewrite <- seq_shift, map_map.
  cbn [nth]. now rewrite IH.
Qed.

Lemma omp_team_pos (threads : Z) : (1 <= omp_team threads)%nat.
Proof. unfold omp_team. lia. Qed.

Lemma nth_error_split_at (a : list F) (target : nat) (x : F) :
  nth_error a target = Some x ->
  a = firstn target a ++ x :: skipn (S target) a.
Proof.
  revert a. induction target as [ | t IH]; intros [ | y a] E;
    cbn in E; try discriminate.
  - now injection E as ->.
  - cbn [firstn skipn app]. f_equal. now apply IH.
Qed.

Lemma oracle_inv (a a' : list F) (target : nat) :
  oracle a target = Some a' ->
  exists x, nth_error a target = Some x /\
            a' = firstn target a ++ fneg x :: skipn (S target) a.
Proof.
  unfold oracle. destruct (nth_error a target) as [x | ]; [ | discriminate].
  intros [= <-]. now exists x.
Qed.

(** The oracle and both diffusions keep the length, so the round loop
    never leaves the array when the target is inside it. *)
Lemma oracle_defined (a : list F) (target : nat) :
  (target < length a)%nat ->
  exists a', oracle a target = Some a' /\ length a' = length a.
Proof.
  intros H. unfold oracle.
  destruct (nth_error a target) as [x | ] eqn:E.
  - eexists; split; [reflexivity | ].
    rewrite length_app, length_firstn. cbn [length].
    rewrite length_skipn. lia.
  - apply nth_error_None in E. lia.
Qed.

Lemma reflect_length (mean : F) (a : list F) :
  length (reflect mean a) = length a.
Proof. apply length_map. Qed.

Lemma grover_loop_defined (sched : nat -> list nat) (target : nat)
    (parallel : bool) (threads : Z) (rounds : nat) :
  forall (it : nat) (a : list F),
    (target < length a)%nat ->
    exists a', grover_loop sched target parallel threads rounds it a = Some a'
               /\ length a' = length a.
Proof.
  induction rounds as [ | k IH]; intros it a H; cbn [grover_loop].
  - now exists a.
  - destruct (oracle_defined a H) as (a1 & -> & Hlen).
    destruct (IH (S it)
                (if parallel then diffusion_parallel (sched it) a1 threads
                 else diffusion_serial a1)) as (a' & Ha' & Hl).
    + destruct parallel; unfold diffusion_parallel, diffusion_serial;
        rewrite reflect_length; lia.
    + exists a'. split; [assumption | ].
      rewrite Hl. destruct parallel;
        unfold diffusion_parallel, diffusion_serial;
        rewrite reflect_length; lia.
Qed.

(** The loop only looks at the arrival orders of its own rounds. *)
Lemma grover_loop_ext (s1 s2 : nat -> list nat) (target : nat)
    (parallel : bool) (threads : Z) (rounds : nat) :
  forall (it : nat) (a : list F),
    (forall i, (it <= i)%nat -> s1 i = s2 i) ->
    grover_loop s1 target parallel threads rounds it a
    = grover_loop s2 target parallel threads rounds it a.
Proof.
  induction rounds as [ | k IH]; intros it a H; cbn [grover_loop].
  - reflexivity.
  - destruct (oracle a target) as [a1 | ]; [ | reflexivity].
    rewrite (H it) by lia. apply IH. intros i Hi. apply H. lia.
Qed.

End Chunks.

(** ** Exact real arithmetic *)

Section RealKernel.

Local Open Scope R_scope.

Lemma fold_left_Rplus (a : list R) : forall x : R,
  fold_left Rplus a x = x + Rsum a.
Proof.
  unfold Rsum.
  induction a as [ | y a IH]; intros x; cbn [fold_left fold_right].
  - lra.
  - rewrite IH. lra.
Qed.

Lemma accumulate_R (a : list R) : accumulate a = Rsum a.
Proof. unfold accumulate. cbn [fadd fzero Arith_R]. rewrite fold_left_Rplus. lra. Qed.

Lemma Rsum_app (l1 l2 : list R) : Rsum (l1 ++ l2) = Rsum l1 + Rsum l2.
Proof.
  unfold Rsum.
  induction l1 as [ | x l1 IH]; cbn [app fold_right]; [lra | ].
  rewrite IH. lra.
Qed.

Lemma Rsum_Permutation (l1 l2 : list R) :
  Permutation l1 l2 -> Rsum l1 = Rsum l2.
Proof.
  unfold Rsum. induction 1; cbn [fold_right]; lra.
Qed.

Lemma Rsum_concat (chunks : list (list R)) :
  Rsum (map Rsum chunks) = Rsum (concat chunks).
Proof.
  induction chunks as [ | c chunks IH]; [reflexivity | ].
  cbn [map concat]. rewrite Rsum_app, <- IH. reflexivity.
Qed.

(** Whatever the order of arrival, the reduction yields the sum of all the
    blocks. *)
Lemma omp_reduction_R (order : list nat) (chunks : list (list R)) :
  Permutation order (seq 0 (length chunks)) ->
  omp_reduction order chunks = Rsum (concat chunks).
Proof.
  intros Hperm. unfold omp_reduction. cbn [fadd fzero Arith_R].
  rewrite fold_left_Rplus, Rplus_0_l.
  rewrite (Rsum_Permutation
             (Permutation_map (fun t => nth t (map accumulate chunks) 0) Hperm)).
  replace (length chunks) with (length (map (@accumulate R _) chunks))
    by apply length_map.
  rewrite map_nth_seq.
  rewrite (map_ext _ _ accumulate_R). apply Rsum_concat.
Qed.

Lemma diffusion_parallel_R (order : list nat) (a : list R) (threads : Z) :
  arrival_order threads order ->
  diffusion_parallel order a threads = diffusion_serial a.
Proof.
  intros Hord. unfold diffusion_parallel, diffusion_serial.
  rewrite omp_reduction_R.
  - rewrite static_chunks_concat by apply omp_team_pos.
    now rewrite accumulate_R.
  - now rewrite static_chunks_length.
Qed.

Lemma Rsum_reflect (m : R) (a : list R) :
  Rsum (reflect m a) = 2 * m * INR (length a) - Rsum a.
Proof.
  unfold Rsum, reflect.
  induction a as [ | x a IH].
  - cbn. lra.
  - change (length (x :: a)) with (S (length a)).
    rewrite S_INR. cbn [map fold_right]. rewrite IH.
    cbn [fsub fmul ftwo Arith_R]. lra.
Qed.

Lemma reflect_reflect (m : R) (a : list R) : reflect m (reflect m a) = a.
Proof.
  unfold reflect. rewrite map_map. rewrite <- (map_id a) at 2.
  apply map_ext. intros x. cbn [fsub fmul ftwo Arith_R]. lra.
Qed.

Lemma of_size_R (n : nat) : of_size (Z.of_nat n) = INR n.
Proof. cbn [of_size Arith_R]. symmetry. apply INR_IZR_INZ. Qed.

Lemma diffusion_serial_involutive (a : list R) :
  (1 <= length a)%nat -> diffusion_serial (diffusion_serial a) = a.
Proof.
  intros Hn. unfold diffusion_serial at 1.
  assert (HN : INR (length a) <> 0) by (apply not_0_INR; lia).
  unfold diffusion_serial.
  rewrite reflect_length, !accumulate_R, Rsum_reflect, !of_size_R.
  cbn [fdiv Arith_R].
  replace ((2 * (Rsum a / INR (length a)) * INR (length a) - Rsum a)
           / INR (length a)) with (Rsum a / INR (length a)) by (field; exact HN).
  apply reflect_reflect.
Qed.

Lemma sumsq_cons (x : R) (l : list R) : sumsq (x :: l) = x * x + sumsq l.
Proof. reflexivity. Qed.

Lemma sumsq_app (l1 l2 : list R) : sumsq (l1 ++ l2) = sumsq l1 + sumsq l2.
Proof.
  unfold sumsq.
  induction l1 as [ | x l1 IH]; cbn [app fold_right]; [lra | ].
  rewrite IH. lra.
Qed.

Lemma sumsq_oracle (a a' : list R) (target : nat) :
  oracle a target = Some a' -> sumsq a' = sumsq a.
Proof.
  intros H. apply oracle_inv in H as (x & E & ->).
  rewrite (nth_error_split_at _ _ E) at 3.
  rewrite !sumsq_app, !sumsq_cons.
  change (@fneg R Arith_R x) with (- x). lra.
Qed.

Lemma sumsq_reflect (m : R) (a : list R) :
  sumsq (reflect m a)
  = 4 * m * m * INR (length a) - 4 * m * Rsum a + sumsq a.
Proof.
  unfold sumsq, Rsum, reflect.
  induction a as [ | x a IH].
  - cbn. lra.
  - change (length (x :: a)) with (S (length a)). rewrite S_INR.
    cbn [map fold_right]. rewrite IH. cbn [fsub fmul ftwo Arith_R]. lra.
Qed.

Lemma sumsq_diffusion_serial (a : list R) :
  sumsq (diffusion_serial a) = sumsq a.
Proof.
  destruct a as [ | x a]; [reflexivity | ].
  unfold diffusion_serial. rewrite sumsq_reflect, accumulate_R, of_size_R.
  assert (HN : INR (length (x :: a)) <> 0) by (apply not_0_INR; cbn; lia).
  cbn [fdiv Arith_R]. field. exact HN.
Qed.

Lemma sumsq_repeat (v : R) (n : nat) : sumsq (repeat v n) = INR n * (v * v).
Proof.
  unfold sumsq.
  induction n as [ | n IH].
  - cbn. lra.
  - cbn [repeat fold_right]. rewrite S_INR, IH. lra.
Qed.

Lemma sumsq_init_state (N : nat) :
  (1 <= N)%nat -> sumsq (init_state N) = 1.
Proof.
  intros HN. unfold init_state. rewrite sumsq_repeat, of_size_R.
  cbn [fdiv fone fsqrt Arith_R].
  assert (Hpos : 0 < INR N) by (apply lt_0_INR; lia).
  assert (Hs : sqrt (INR N) * sqrt (INR N) = INR N) by (apply sqrt_sqrt; lra).
  assert (Hs0 : sqrt (INR N) <> 0).
  { intros H0. rewrite H0 in Hs. lra. }
  rewrite <- Hs at 1. field. exact Hs0.
Qed.

End RealKernel.

(** ** Orders of arrival *)

Lemma insert_all_middle (x : nat) (l1 l2 : list nat) :
  In (l1 ++ x :: l2) (insert_all x (l1 ++ l2)).
Proof.
  induction l1 as [ | y l1 IH]; cbn [app insert_all].
  - destruct l2; left; reflexivity.
  - right. apply in_map. exact IH.
Qed.

Lemma perms_complete (l : list nat) : forall l' : list nat,
  Permutation l' l -> In l' (perms l).
Proof.
  induction l as [ | x l IH]; intros l' H.
  - apply Permutation_sym, Permutation_nil in H. subst. now left.
  - destruct (Permutation_vs_cons_inv H) as (l1 & l2 & ->).
    cbn [perms]. apply in_flat_map. exists (l1 ++ l2). split.
    + apply IH. apply Permutation_sym in H.
      apply Permutation_cons_app_inv in H. now apply Permutation_sym.
    + apply insert_all_middle.
Qed.

Lemma arrival_order_one (order : list nat) :
  arrival_order 1 order -> order = [0%nat].
Proof.
  unfold arrival_order. change (omp_team 1) with 1%nat. cbn [seq].
  intros H. now apply Permutation_sym, Permutation_length_1_inv in H.
Qed.

(** ** The oracle *)

(** C6: for every vector and every target inside it, the oracle negates
    the entry at the target and leaves every other entry, and the length,
    as they were; the C++ [grover_iteration] starts with the same step. *)
Theorem oracle_negates_target_only {F : Type} {A : Arith F}
    (a : list F) (target : nat) :
  (target < length a)%nat ->
  exists a' : list F,
    oracle a target = Some a' /\
    oracle_at a (Z.of_nat target) = Some a' /\
    length a' = length a /\
    nth_error a' target = option_map fneg (nth_error a target) /\
    forall i : nat, i <> target -> nth_error a' i = nth_error a i.
Proof.
  intros Ht.
  destruct (oracle_defined a Ht) as (a' & Ho & Hlen).
  exists a'. repeat split; try assumption.
  - unfold oracle_at. destruct (Z.ltb_spec (Z.of_nat target) 0); [lia | ].
    now rewrite Nat2Z.id.
  - apply oracle_inv in Ho as (x & E & ->). rewrite E. cbn [option_map].
    rewrite nth_error_app2; rewrite length_firstn, Nat.min_l by lia; [ | lia].
    now rewrite Nat.sub_diag.
  - intros i Hi. apply oracle_inv in Ho as (x & E & ->).
    destruct (Nat.lt_ge_cases i target) as [Hlt | Hge].
    + rewrite nth_error_app1 by (rewrite length_firstn; lia).
      rewrite nth_error_firstn.
      destruct (Nat.ltb_spec i target); [reflexivity | lia].
    + rewrite nth_error_app2; rewrite length_firstn, Nat.min_l by lia; [ | lia].
      destruct (i - target)%nat as [ | k] eqn:Ek; [lia | ].
      cbn [nth_error]. rewrite nth_error_skipn. f_equal. lia.
Qed.

Lemma oracle_negates_target_only_witness :
  (1 < length [Double.half; Double.half; Double.half; Double.half])%nat /\
  exists a' : list double,
    oracle [Double.half; Double.half; Double.half; Double.half] 1 = Some a'.
Proof.
  split; [cbn; lia | ].
  destruct (@oracle_negates_target_only double _
              [Double.half; Double.half; Double.half; Double.half] 1%nat)
    as (a' & H & _); [cbn; lia | ].
  exists a'. exact H.
Defined.

(** ** One thread *)

(** C3: on every vector of doubles, the parallel diffusion with one
    thread returns the very vector the serial diffusion returns. *)
Theorem parallel_one_thread_is_serial (a : list double) (order : list nat) :
  Forall Double.is_double a ->
  arrival_order 1 order ->
  diffusion_parallel order a 1 = diffusion_serial a.
Proof.
  intros Ha Hord. apply arrival_order_one in Hord. subst order.
  unfold diffusion_parallel, diffusion_serial.
  change (omp_team 1) with 1%nat. rewrite static_chunks_one.
  unfold omp_reduction. cbn [map nth fold_left].
  change (@fadd double Arith_double) with Double.add.
  change (@fzero double Arith_double) with Double.zero.
  now rewrite DoubleFacts.zero_add_accumulate.
Qed.

Lemma parallel_one_thread_is_serial_witness :
  diffusion_parallel [0%nat]
    [Double.half; Double.opp Double.half; Double.half; Double.half] 1
  = diffusion_serial
      [Double.half; Double.opp Double.half; Double.half; Double.half].
Proof.
  apply parallel_one_thread_is_serial.
  - repeat constructor.
  - apply Permutation_refl.
Defined.

(** ** A single amplitude *)

Section SingleAmplitude.

Context {F : Type} {A : Arith F}.

Lemma single_rounds (x : F) (sched : nat -> list nat) (parallel : bool)
    (threads : Z) :
  fneg (fneg x) = x ->
  (forall (it : nat) (y : F), y = x \/ y = fneg x ->
     (if parallel then diffusion_parallel (sched it) [y] threads
      else diffusion_serial [y]) = [y]) ->
  forall (k it : nat) (y : F), y = x \/ y = fneg x ->
    grover_loop sched 0 parallel threads k it [y] = Some [Nat.iter k fneg y].
Proof.
  intros Hinv Hnoop. induction k as [ | k IH]; intros it y Hy.
  - reflexivity.
  - cbn [grover_loop]. unfold oracle. cbn [nth_error firstn skipn app].
    assert (Hy' : fneg y = x \/ fneg y = fneg x).
    { destruct Hy as [-> | ->]; [now right | now left]. }
    rewrite (Hnoop it (fneg y) Hy'), (IH (S it) (fneg y) Hy').
    now rewrite <- Nat.iter_succ_r.
Qed.

End SingleAmplitude.

Lemma iter_Ropp (k : nat) (x : R) :
  Nat.iter k Ropp x = ((-1) ^ k * x)%R.
Proof.
  induction k as [ | k IH].
  - cbn. lra.
  - rewrite Nat.iter_succ, IH. cbn [pow]. lra.
Qed.

Lemma iter_opp (k : nat) (x : double) :
  Nat.iter k Double.opp x = if Nat.even k then x else Double.opp x.
Proof.
  assert (Hopp : forall y : double, Double.opp (Double.opp y) = y)
    by (intros [[ | ] | [ | ] | | [ | ] m e]; reflexivity).
  induction k as [ | k IH]; [reflexivity | ].
  rewrite Nat.iter_succ, IH, Nat.even_succ, <- Nat.negb_even.
  destruct (Nat.even k); cbn [negb]; [reflexivity | apply Hopp].
Qed.

Lemma diffusion_serial_single_R (x : R) : diffusion_serial [x] = [x].
Proof.
  unfold diffusion_serial, accumulate, reflect.
  cbn [fold_left map length Z.of_nat Pos.of_succ_nat
       fadd fzero fdiv fsub fmul ftwo of_size Arith_R].
  f_equal. field.
Qed.

(** *** One amplitude among several threads *)

Lemma concat_single {X : Type} (x : X) (chunks : list (list X)) :
  concat chunks = [x] ->
  exists c1 c2 : list (list X),
    chunks = c1 ++ [x] :: c2 /\
    Forall (fun c => c = []) c1 /\ Forall (fun c => c = []) c2.
Proof.
  induction chunks as [ | c chunks IH]; cbn [concat]; intros H.
  - discriminate.
  - apply app_eq_unit in H as [[-> H] | [-> H]].
    + destruct (IH H) as (c1 & c2 & -> & H1 & H2).
      exists ([] :: c1), c2. repeat split; auto.
    + exists [], chunks. repeat split; auto.
      now apply concat_nil_Forall.
Qed.

Lemma fold_add_zeros (l : list double) (acc : double) :
  Forall (fun y => y = Double.zero) l ->
  Double.add acc Double.zero = acc ->
  fold_left Double.add l acc = acc.
Proof.
  intros Hl Hacc. induction Hl as [ | y l -> _ IH]; cbn [fold_left].
  - reflexivity.
  - now rewrite Hacc.
Qed.

Lemma map_nth_Permutation {X : Type} (d : X) (l : list X) (order : list nat) :
  Permutation order (seq 0 (length l)) ->
  Permutation (map (fun t => nth t l d) order) l.
Proof.
  intros H. pose proof (Permutation_map (fun t => nth t l d) H) as HP.
  now rewrite map_nth_seq in HP.
Qed.

Lemma init_state_one : init_state 1 = [Double.one].
Proof. evaluate. Qed.

(** ** The sum of squares *)

Lemma sumsq_diffusion_parallel (order : list nat) (a : list R) (threads : Z) :
  arrival_order threads order ->
  sumsq (diffusion_parallel order a threads) = sumsq a.
Proof.
  intros H. rewrite diffusion_parallel_R by exact H.
  apply sumsq_diffusion_serial.
Qed.

Lemma sumsq_grover_loop (sched : nat -> list nat) (target : nat)
    (parallel : bool) (threads : Z) :
  (forall i : nat, arrival_order threads (sched i)) ->
  forall (k it : nat) (a a' : list R),
    grover_loop sched target parallel threads k it a = Some a' ->
    sumsq a' = sumsq a.
Proof.
  intros Hs. induction k as [ | k IH]; intros it a a'; cbn [grover_loop].
  - now intros [= <-].
  - destruct (oracle a target) as [a1 | ] eqn:Ho; [ | discriminate].
    intros H. apply IH in H. rewrite H.
    rewrite <- (sumsq_oracle _ _ Ho).
    destruct parallel;
      [apply sumsq_diffusion_parallel, Hs | apply sumsq_diffusion_serial].
Qed.

(** C9: in exact real arithmetic the oracle and both diffusions leave the
    sum of the squares of the amplitudes as it is; the uniform state of
    N >= 1 entries 1/sqrt(N) has sum of squares 1, and so has the vector
    of the driver after any number of rounds. *)
Theorem sum_of_squares_preserved :
  (forall (a a' : list R) (target : nat),
     oracle a target = Some a' -> sumsq a' = sumsq a) /\
  (forall a : list R, sumsq (diffusion_serial a) = sumsq a) /\
  (forall (order : list nat) (a : list R) (threads : Z),
     arrival_order threads order ->
     sumsq (diffusion_parallel order a threads) = sumsq a) /\
  (forall N : nat, (1 <= N)%nat -> sumsq (init_state N) = 1%R) /\
  (forall (N target : nat) (sched : nat -> list nat) (parallel : bool)
          (threads : Z) (k it : nat),
     (1 <= N)%nat -> (target < N)%nat ->
     (forall i : nat, arrival_order threads (sched i)) ->
     exists a : list R,
       grover_loop sched target parallel threads k it (init_state N) = Some a
       /\ sumsq a = 1%R).
Proof.
  split; [exact sumsq_oracle | ].
  split; [exact sumsq_diffusion_serial | ].
  split; [exact sumsq_diffusion_parallel | ].
  split; [exact sumsq_init_state | ].
  intros N target sched parallel threads k it HN Ht Hs.
  destruct (@grover_loop_defined R _ sched target parallel threads k it
              (init_state N)) as (a & Ha & _).
  { unfold init_state. now rewrite repeat_length. }
  exists a. split; [exact Ha | ].
  rewrite (@sumsq_grover_loop sched target parallel threads Hs k it _ _ Ha).
  now apply sumsq_init_state.
Qed.

Lemma sum_of_squares_preserved_witness :
  (1 <= 4)%nat /\ (1 < 4)%nat /\
  (forall i : nat, arrival_order 2 ((fun _ => [1; 0]%nat) i)) /\
  exists a : list R,
    grover_loop (fun _ => [1; 0]%nat) 1 true 2 3 0 (init_state 4) = Some a
    /\ sumsq a = 1%R.
Proof.
  assert (H1 : (1 <= 4)%nat) by lia.
  assert (H2 : (1 < 4)%nat) by lia.
  assert (Hs : forall i : nat, arrival_order 2 ((fun _ => [1; 0]%nat) i)).
  { intros _. unfold arrival_order. change (omp_team 2) with 2%nat.
    cbn [seq]. apply perm_swap. }
  repeat split; try assumption.
  destruct sum_of_squares_preserved as (_ & _ & _ & _ & H).
  exact (H 4%nat 1%nat (fun _ => [1; 0]%nat) true 2 3%nat 0%nat H1 H2 Hs).
Defined.

(** ** The command line *)

Lemma main_serial_args (e : env) (prog s : string) (rest : list string) :
  main e (prog :: "serial" :: s :: rest)
  = single_run e world0 "serial" (to_size_t (atoll s)) false 1.
Proof.
  unfold main. cbn [nth length].
  change (String.eqb "serial" "serial") with true.
  replace (3 <=? Z.of_nat (S (S (S (length rest))))) with true
    by (symmetry; apply Z.leb_le; lia).
  reflexivity.
Qed.

Lemma main_parallel_args (e : env) (prog s t : string) (rest : list string) :
  main e (prog :: "parallel" :: s :: t :: rest)
  = single_run e world0 "parallel" (to_size_t (atoll s)) true (atoi t).
Proof.
  unfold main. cbn [nth length].
  change (String.eqb "parallel" "serial") with false.
  change (String.eqb "parallel" "parallel") with true.
  replace (4 <=? Z.of_nat (S (S (S (S (length rest)))))) with true
    by (symmetry; apply Z.leb_le; lia).
  reflexivity.
Qed.

Lemma atoll_range (s : string) : - 2 ^ 63 <= atoll s <= 2 ^ 63 - 1.
Proof. unfold atoll, clamp. lia. Qed.

(** The bit test accepts the powers of two only. *)
Lemma is_power_of_two_inv (x : Z) :
  0 <= x < 2 ^ 64 -> is_power_of_two x = true ->
  0 < x /\ x = 2 ^ Z.log2 x.
Proof.
  intros Hx H. unfold is_power_of_two in H.
  apply andb_prop in H as [Hnz Hland].
  apply negb_true_iff, Z.eqb_neq in Hnz. apply Z.eqb_eq in Hland.
  assert (Hpos : 0 < x) by lia. split; [exact Hpos | ].
  rewrite Z.mod_small in Hland by lia.
  destruct (Z.log2_spec x Hpos) as [Hlo Hhi].
  pose proof (Z.log2_nonneg x) as Hk.
  destruct (Z.eq_dec x (2 ^ Z.log2 x)) as [Heq | Hne]; [exact Heq | exfalso].
  assert (Hlog : Z.log2 (x - 1) = Z.log2 x).
  { apply Z.log2_unique; [exact Hk | ]. lia. }
  assert (Hb1 : Z.testbit x (Z.log2 x) = true) by (apply Z.bit_log2; lia).
  assert (Hb2 : Z.testbit (x - 1) (Z.log2 x) = true).
  { rewrite <- Hlog. apply Z.bit_log2. lia. }
  assert (Hb : Z.testbit (Z.land x (x - 1)) (Z.log2 x) = true)
    by (rewrite Z.land_spec, Hb1, Hb2; reflexivity).
  rewrite Hland, Z.bits_0 in Hb. discriminate.
Qed.

Lemma is_power_of_two_rejects (n : Z) :
  - 2 ^ 63 <= n <= 2 ^ 63 - 1 ->
  (n <= 0 /\ n <> - 2 ^ 63) \/ (0 < n /\ forall k : Z, n <> 2 ^ k) ->
  is_power_of_two (to_size_t n) = false.
Proof.
  intros Hr Hn. unfold to_size_t.
  destruct (is_power_of_two (n mod 2 ^ 64)) eqn:E; [exfalso | reflexivity].
  apply is_power_of_two_inv in E as [Hpos Hpow];
    [ | apply Z.mod_pos_bound; lia].
  destruct Hn as [[Hle Hmin] | [Hgt Hno]].
  - assert (Hm : n mod 2 ^ 64 = if n =? 0 then 0 else n + 2 ^ 64).
    { destruct (Z.eqb_spec n 0) as [-> | Hn0]; [reflexivity | ].
      symmetry. apply (Z.mod_unique n (2 ^ 64) (-1)); lia. }
    destruct (Z.eqb_spec n 0) as [-> | Hn0]; [rewrite Hm in Hpos; lia | ].
    assert (Hl : Z.log2 (n mod 2 ^ 64) = 63).
    { apply Z.log2_unique; [lia | ]. rewrite Hm. lia. }
    rewrite Hl, Hm in Hpow. lia.
  - rewrite Z.mod_small in Hpow by lia. exact (Hno _ Hpow).
Qed.

Lemma rand_first (e : env) :
  rand e world0
  = (libc_rand e 1 0 mod 2 ^ 31,
     {| clock_reads := 0; rng_seed := 1; rng_calls := 1; omp_regions := 0;
        out := []; err := []; csv := []; runs := [] |}).
Proof. reflexivity. Qed.

Lemma target_in_range (r N : Z) :
  0 <= r < 2 ^ 31 -> 0 < N ->
  to_size_t (to_int32 (to_size_t r mod N)) = r mod N /\ 0 <= r mod N < N.
Proof.
  intros Hr HN. unfold to_size_t at 2. rewrite (Z.mod_small r) by lia.
  pose proof (Z.mod_pos_bound r N HN) as Hb.
  assert (Hle : r mod N <= r) by (apply Z.mod_le; lia).
  split; [ | exact Hb].
  unfold to_int32. rewrite (Z.mod_small (r mod N + 2 ^ 31)) by lia.
  unfold to_size_t. rewrite Z.mod_small by lia. lia.
Qed.

(** *** The two ways out of [run_grover_once] *)

Lemma run_grover_once_no_memory (e : env) (w : world)
    (N target iterations : Z) (parallel : bool) (threads : Z) :
  malloc_ok e ((sizeof_double * N) mod 2 ^ 64) = false ->
  run_grover_once e w N target iterations parallel threads
  = Ok (Double.opp Double.one)
       {| clock_reads := clock_reads w; rng_seed := rng_seed w;
          rng_calls := rng_calls w; omp_regions := omp_regions w;
          out := out w; err := err w ++ ["allocation failed"]; csv := csv w;
          runs := runs w ++
            [{| run_N := N; run_target := target;
                run_iterations := iterations; run_parallel := parallel;
                run_threads := threads; run_vector := None |}] |}.
Proof. intros H. unfold run_grover_once. rewrite H. reflexivity. Qed.

Lemma run_grover_once_done (e : env) (w : world)
    (N target iterations : Z) (parallel : bool) (threads : Z) :
  malloc_ok e ((sizeof_double * N) mod 2 ^ 64) = true ->
  0 <= target < N -> N < 2 ^ 61 ->
  exists a : list double,
    grover_loop (fun it => omp_sched e it) (Z.to_nat target) parallel threads
      (Z.to_nat iterations) (omp_regions w) (init_state (Z.to_nat N)) = Some a
    /\
    run_grover_once e w N target iterations parallel threads
    = Ok (Double.sub (clock e (S (clock_reads w))) (clock e (clock_reads w)))
         {| clock_reads := S (S (clock_reads w)); rng_seed := rng_seed w;
            rng_calls := rng_calls w;
            omp_regions :=
              if parallel then (omp_regions w + Z.to_nat iterations)%nat
              else omp_regions w;
            out := out w; err := err w; csv := csv w;
            runs := runs w ++
              [{| run_N := N; run_target := target;
                  run_iterations := iterations; run_parallel := parallel;
                  run_threads := threads; run_vector := Some a |}] |}.
Proof.
  intros Hm Ht HN.
  destruct (@grover_loop_defined double _ (fun it => omp_sched e it)
              (Z.to_nat target) parallel threads (Z.to_nat iterations)
              (omp_regions w) (init_state (Z.to_nat N))) as (a & Ha & _).
  { unfold init_state. rewrite repeat_length. lia. }
  exists a. split; [exact Ha | ].
  unfold run_grover_once. rewrite Hm. cbn [negb].
  unfold sizeof_double in *. rewrite Z.mod_small by lia.
  rewrite Z.ltb_irrefl, Ha. reflexivity.
Qed.

(** ** The scenario N = 4, target 1 *)

Lemma scenario_round (T : Z) (order : list nat) :
  In T [1; 2; 4] -> arrival_order T order ->
  diffusion_parallel order marked1 T = round1 /\
  diffusion_parallel order marked2 T = round2.
Proof.
  intros HT Hord. apply perms_complete in Hord.
  destruct HT as [<- | [<- | [<- | []]]]; vm_compute in Hord;
    repeat (destruct Hord as [<- | Hord]; [split; evaluate | ]);
    contradiction.
Qed.

(** C1: from [0.5, 0.5, 0.5, 0.5] with target 1, the first round gives
    [0, 1, 0, 0] (oracle [0.5, -0.5, 0.5, 0.5], mean 0.25) and the second
    round gives [-0.5, 0.5, -0.5, -0.5] (oracle [0, -1, 0, 0], mean -0.25).
    The doubles computed are these very values, hence within 2^-30 < 1e-9
    of them: for the serial driver, for the C++ [grover_iteration], and for
    the parallel driver with 1, 2 and 4 threads whatever the order in which
    the threads arrive; [run_grover_once] holds them when it frees its
    vector. *)
Theorem end_to_end_scenario :
  init_state 4 = uniform4 /\
  oracle uniform4 1 = Some marked1 /\
  fdiv (accumulate marked1) (of_size 4) = Double.quarter /\
  diffusion_serial marked1 = round1 /\
  oracle round1 1 = Some marked2 /\
  fdiv (accumulate marked2) (of_size 4) = Double.opp Double.quarter /\
  diffusion_serial marked2 = round2 /\
  (forall (sched : nat -> list nat) (it : nat),
     grover_loop sched 1 false 1 1 it (init_state 4) = Some round1 /\
     grover_loop sched 1 false 1 2 it (init_state 4) = Some round2) /\
  grover_iteration uniform4 1 = Some round1 /\
  grover_iteration round1 1 = Some round2 /\
  (forall (T : Z) (sched : nat -> list nat) (it : nat),
     In T [1; 2; 4] ->
     (forall i : nat, arrival_order T (sched i)) ->
     grover_loop sched 1 true T 1 it (init_state 4) = Some round1 /\
     grover_loop sched 1 true T 2 it (init_state 4) = Some round2) /\
  (forall (e : env) (w : world) (parallel : bool) (T : Z),
     malloc_ok e 32 = true -> In T [1; 2; 4] ->
     (forall i : nat, arrival_order T (omp_sched e i)) ->
     exists (t1 t2 : double) (w1 w2 : world),
       run_grover_once e w 4 1 1 parallel T = Ok t1 w1 /\
       runs w1 = runs w ++
         [{| run_N := 4; run_target := 1; run_iterations := 1;
             run_parallel := parallel; run_threads := T;
             run_vector := Some round1 |}] /\
       run_grover_once e w 4 1 2 parallel T = Ok t2 w2 /\
       runs w2 = runs w ++
         [{| run_N := 4; run_target := 1; run_iterations := 2;
             run_parallel := parallel; run_threads := T;
             run_vector := Some round2 |}]) /\
  Forall2 (fun x y => within (Double.lit 1 (-30)) x y = true) round1 round1 /\
  Forall2 (fun x y => within (Double.lit 1 (-30)) x y = true) round2 round2.
Proof.
  assert (Hinit : init_state 4 = uniform4) by evaluate.
  assert (Ho1 : oracle uniform4 1 = Some marked1) by evaluate.
  assert (Ho2 : oracle round1 1 = Some marked2) by evaluate.
  split; [exact Hinit | ]. split; [exact Ho1 | ].
  split; [evaluate | ]. split; [evaluate | ].
  split; [exact Ho2 | ].
  split; [evaluate | ]. split; [evaluate | ].
  split; [intros sched it; split; evaluate | ].
  split; [evaluate | ]. split; [evaluate | ].
  assert (Hpar : forall (T : Z) (sched : nat -> list nat) (it : nat),
            In T [1; 2; 4] ->
            (forall i : nat, arrival_order T (sched i)) ->
            grover_loop sched 1 true T 1 it (init_state 4) = Some round1 /\
            grover_loop sched 1 true T 2 it (init_state 4) = Some round2).
  { intros T sched it HT Hs. rewrite Hinit.
    cbn [grover_loop]. rewrite Ho1.
    destruct (scenario_round HT (Hs it)) as [-> _].
    split; [reflexivity | ].
    rewrite Ho2.
    destruct (scenario_round HT (Hs (S it))) as [_ ->]. reflexivity. }
  split; [exact Hpar | ].
  split.
  - intros e w parallel T Hm HT Hs.
    assert (Hm' : malloc_ok e ((sizeof_double * 4) mod 2 ^ 64) = true)
      by exact Hm.
    destruct (@run_grover_once_done e w 4 1 1 parallel T Hm'
                ltac:(lia) ltac:(lia)) as (a1 & Ha1 & Hr1).
    destruct (@run_grover_once_done e w 4 1 2 parallel T Hm'
                ltac:(lia) ltac:(lia)) as (a2 & Ha2 & Hr2).
    change (Z.to_nat 4) with 4%nat in Ha1, Ha2.
    change (Z.to_nat 1) with 1%nat in Ha1, Ha2.
    change (Z.to_nat 2) with 2%nat in Ha2.
    assert (E1 : a1 = round1 /\ a2 = round2).
    { destruct parallel.
      - destruct (Hpar T (fun it => omp_sched e it) (omp_regions w) HT Hs)
          as [H1 H2].
        rewrite H1 in Ha1. rewrite H2 in Ha2.
        injection Ha1 as <-. injection Ha2 as <-. now split.
      - assert (H1 : grover_loop (fun it => omp_sched e it) 1 false T 1
                       (omp_regions w) (init_state 4) = Some round1)
          by (rewrite Hinit; evaluate).
        assert (H2 : grover_loop (fun it => omp_sched e it) 1 false T 2
                       (omp_regions w) (init_state 4) = Some round2)
          by (rewrite Hinit; evaluate).
        rewrite H1 in Ha1. rewrite H2 in Ha2.
        injection Ha1 as <-. injection Ha2 as <-. now split. }
    destruct E1 as [-> ->].
    eexists _, _, _, _.
    split; [exact Hr1 | ]. split; [reflexivity | ].
    split; [exact Hr2 | reflexivity].
  - split; repeat (constructor; [evaluate | ]); constructor.
Qed.

Lemma end_to_end_scenario_witness :
  In 4 [1; 2; 4] /\
  (forall i : nat, arrival_order 4 ((fun _ => [3; 1; 0; 2]%nat) i)) /\
  grover_loop (fun _ => [3; 1; 0; 2]%nat) 1 true 4 2 0 (init_state 4)
  = Some round2.
Proof.
  assert (H4 : In 4 [1; 2; 4]) by (cbn; tauto).
  assert (Hs : forall i : nat, arrival_order 4 ((fun _ => [3; 1; 0; 2]%nat) i)).
  { intros _. unfold arrival_order. change (omp_team 4) with 4%nat. cbn [seq].
    apply Permutation_sym.
    apply (@Permutation_cons_app _ [1; 2; 3]%nat [3; 1]%nat [2]%nat 0%nat).
    apply (@Permutation_cons_app _ [2; 3]%nat [3]%nat [2]%nat 1%nat).
    apply (@Permutation_cons_app _ [3]%nat [3]%nat []%nat 2%nat).
    apply Permutation_refl. }
  split; [exact H4 | split; [exact Hs | ]].
  destruct end_to_end_scenario
    as (_ & _ & _ & _ & _ & _ & _ & _ & _ & _ & Hpar & _ & _).
  exact (proj2 (Hpar 4 (fun _ => [3; 1; 0; 2]%nat) 0%nat H4 Hs)).
Defined.

(** *** Iteration counts of the valid sizes *)

Lemma iterations_table :
  forallb (fun k : nat =>
             match grover_iterations (2 ^ Z.of_nat k) with
             | Some _ => true
             | None => false
             end) (seq 0 61) = true.
Proof. evaluate. Qed.

Lemma iterations_defined (N : Z) :
  is_power_of_two N = true -> 0 <= N < 2 ^ 61 ->
  exists iterations : Z, grover_iterations N = Some iterations.
Proof.
  intros Hp HN.
  destruct (@is_power_of_two_inv N ltac:(lia) Hp) as [Hpos Hpow].
  pose proof (Z.log2_nonneg N) as Hk.
  assert (Hlt : Z.log2 N < 61).
  { apply (Z.pow_lt_mono_r_iff 2); lia. }
  pose proof iterations_table as Htab.
  rewrite forallb_forall in Htab.
  specialize (Htab (Z.to_nat (Z.log2 N))).
  rewrite Z2Nat.id, <- Hpow in Htab by exact Hk.
  destruct (grover_iterations N) as [i | ].
  - now exists i.
  - assert (Hin : In (Z.to_nat (Z.log2 N)) (seq 0 61)) by (apply in_seq; lia).
    specialize (Htab Hin). discriminate.
Qed.

(** A single run of a valid size always prints its record and returns 0,
    whatever the thread count and whether or not the vector was obtained. *)
Lemma single_run_valid (e : env) (mode : string) (N : Z) (parallel : bool)
    (threads : Z) :
  is_power_of_two N = true -> 0 <= N < 2 ^ 61 ->
  exists (iterations : Z) (t : double) (w : world) (v : option (list double)),
    grover_iterations N = Some iterations /\
    single_run e world0 mode N parallel threads = Ok 0 w /\
    out w = [Rec mode N iterations threads t] /\
    rng_seed w = 1 /\
    runs w = [{| run_N := N;
                 run_target := (libc_rand e 1 0 mod 2 ^ 31) mod N;
                 run_iterations := iterations; run_parallel := parallel;
                 run_threads := threads; run_vector := v |}] /\
    (malloc_ok e ((sizeof_double * N) mod 2 ^ 64) = false ->
     t = Double.opp Double.one /\ v = None /\ err w = ["allocation failed"]).
Proof.
  intros Hp HN.
  destruct (iterations_defined Hp HN) as (iterations & Hi).
  destruct (@is_power_of_two_inv N ltac:(lia) Hp) as [Hpos _].
  assert (Hr : 0 <= libc_rand e 1 0 mod 2 ^ 31 < 2 ^ 31)
    by (apply Z.mod_pos_bound; lia).
  destruct (target_in_range Hr Hpos) as [Htgt Hrange].
  unfold single_run. rewrite Hp, Hi, rand_first. cbn [negb]. rewrite Htgt.
  destruct (malloc_ok e ((sizeof_double * N) mod 2 ^ 64)) eqn:Hm.
  - destruct (@run_grover_once_done e
                {| clock_reads := 0; rng_seed := 1; rng_calls := 1;
                   omp_regions := 0; out := []; err := []; csv := [];
                   runs := [] |}
                N ((libc_rand e 1 0 mod 2 ^ 31) mod N) iterations parallel
                threads Hm Hrange ltac:(lia)) as (a & _ & ->).
    eexists iterations, _, _, (Some a).
    repeat split; try reflexivity; discriminate.
  - rewrite run_grover_once_no_memory by exact Hm.
    eexists iterations, _, _, None.
    repeat split; reflexivity.
Qed.

(** ** Validation of the size *)

(** C7: [serial <N>] rejects N = 0, every negative N but one, and every
    positive N that is not a power of two: it returns 1 with nothing on
    standard output and without calling [run_grover_once].  The one
    exception is N = -9223372036854775808: the cast to [size_t] turns it
    into 2^63, the bit test accepts it, and [main] goes on past the
    validation. *)
Theorem serial_size_validation (e : env) (prog : string) :
  atoll "-9223372036854775808" = - 2 ^ 63 /\
  to_size_t (atoll "-9223372036854775808") = 2 ^ 63 /\
  is_power_of_two (to_size_t (atoll "-9223372036854775808")) = true /\
  main e [prog; "serial"; "-9223372036854775808"] = Undefined /\
  forall s : string,
    (atoll s <= 0 /\ atoll s <> - 2 ^ 63) \/
    (0 < atoll s /\ forall k : Z, atoll s <> 2 ^ k) ->
    main e [prog; "serial"; s]
    = Ok 1 {| clock_reads := 0; rng_seed := 1; rng_calls := 0;
              omp_regions := 0; out := [];
              err := ["N must be power of two"]; csv := []; runs := [] |}.
Proof.
  assert (HN : to_size_t (atoll "-9223372036854775808") = 9223372036854775808)
    by evaluate.
  split; [evaluate | ].
  split; [evaluate | ].
  split; [evaluate | ].
  split.
  - rewrite main_serial_args. unfold single_run. rewrite HN.
    replace (is_power_of_two 9223372036854775808) with true
      by evaluate.
    replace (grover_iterations 9223372036854775808) with (@None Z)
      by evaluate.
    reflexivity.
  - intros s Hs. rewrite main_serial_args. unfold single_run.
    rewrite (is_power_of_two_rejects (atoll_range s) Hs). reflexivity.
Qed.

Lemma serial_size_validation_witness :
  ((atoll "6" <= 0 /\ atoll "6" <> - 2 ^ 63) \/
   (0 < atoll "6" /\ forall k : Z, atoll "6" <> 2 ^ k)) /\
  main env0 ["grover"; "serial"; "6"]
  = Ok 1 {| clock_reads := 0; rng_seed := 1; rng_calls := 0;
            omp_regions := 0; out := [];
            err := ["N must be power of two"]; csv := []; runs := [] |}.
Proof.
  assert (H : (atoll "6" <= 0 /\ atoll "6" <> - 2 ^ 63) \/
              (0 < atoll "6" /\ forall k : Z, atoll "6" <> 2 ^ k)).
  { right. change (atoll "6") with 6. split; [lia | ].
    intros k Hk.
    destruct (Z.le_gt_cases k 2) as [Hle | Hgt].
    - destruct (Z.le_gt_cases 0 k) as [H0 | Hneg].
      + assert (Hc : k = 0 \/ k = 1 \/ k = 2) by lia.
        destruct Hc as [-> | [-> | ->]]; discriminate.
      + rewrite Z.pow_neg_r in Hk by lia. discriminate.
    - assert (H8 : 2 ^ 3 <= 2 ^ k) by (apply Z.pow_le_mono_r; lia).
      change (2 ^ 3) with 8 in H8. lia. }
  split; [exact H | ].
  exact (proj2 (proj2 (proj2 (proj2 (serial_size_validation env0 "grover"))))
           "6" H).
Defined.

(** ** The thread count *)

(** The thread counts 0 and -1 are taken as they come: the run is made,
    its record printed, and the status is 0. *)
Lemma invalid_thread_count_accepted :
  (exists w : world,
     main env0 ["grover"; "parallel"; "4"; "0"] = Ok 0 w /\
     out w = [Rec "parallel" 4 1 0 Double.one] /\ err w = [] /\
     map run_threads (runs w) = [0]) /\
  (exists w : world,
     main env0 ["grover"; "parallel"; "4"; "-1"] = Ok 0 w /\
     out w = [Rec "parallel" 4 1 (-1) Double.one] /\ err w = [] /\
     map run_threads (runs w) = [-1]).
Proof.
  split; eexists; (split; [evaluate | ]);
    repeat split; reflexivity.
Qed.

(** C4, as amended: [src/grover.c] does not check the thread count.  For
    a thread count below 1 and a valid size N (a power of two below 2^61)
    [parallel <N> <T>] calls the driver with that T, prints the record
    [parallel,N,iterations,T,time] and returns 0; [grover_parallel] passes
    over such a count and runs as if none had been given. *)
Theorem invalid_thread_count_not_checked (e : env) (prog sN sT : string) :
  atoi sT < 1 ->
  is_power_of_two (to_size_t (atoll sN)) = true ->
  to_size_t (atoll sN) < 2 ^ 61 ->
  (exists (iterations : Z) (t : double) (w : world),
     main e [prog; "parallel"; sN; sT] = Ok 0 w /\
     out w = [Rec "parallel" (to_size_t (atoll sN)) iterations (atoi sT) t] /\
     map run_parallel (runs w) = [true] /\
     map run_threads (runs w) = [atoi sT]) /\
  main_parallel e [prog; sN; sT] = main_parallel e [prog; sN].
Proof.
  intros HT Hp HN. split.
  - assert (Hr : 0 <= to_size_t (atoll sN) < 2 ^ 61).
    { split; [ | exact HN]. unfold to_size_t. apply Z.mod_pos_bound. lia. }
    destruct (@single_run_valid e "parallel" _ true (atoi sT) Hp Hr)
      as (iterations & t & w & v & _ & Hrun & Hout & _ & Hruns & _).
    exists iterations, t, w. rewrite main_parallel_args.
    repeat split; [exact Hrun | exact Hout | | ]; rewrite Hruns; reflexivity.
  - unfold main_parallel. cbn [length nth].
    change (1 <? Z.of_nat 3) with true. change (1 <? Z.of_nat 2) with true.
    change (2 <? Z.of_nat 3) with true. change (2 <? Z.of_nat 2) with false.
    cbv iota. change (0 <? 0) with false. cbv iota.
    destruct (Z.ltb_spec 0 (atoi sT)) as [Hpos | _]; [lia | reflexivity].
Qed.

Lemma invalid_thread_count_not_checked_witness :
  atoi "-1" < 1 /\
  is_power_of_two (to_size_t (atoll "4")) = true /\
  to_size_t (atoll "4") < 2 ^ 61 /\
  exists (iterations : Z) (t : double) (w : world),
    main env0 ["grover"; "parallel"; "4"; "-1"] = Ok 0 w /\
    out w = [Rec "parallel" (to_size_t (atoll "4")) iterations (atoi "-1") t]
    /\ map run_parallel (runs w) = [true]
    /\ map run_threads (runs w) = [atoi "-1"].
Proof.
  assert (H1 : atoi "-1" < 1) by (vm_compute; reflexivity).
  assert (H2 : is_power_of_two (to_size_t (atoll "4")) = true)
    by (vm_compute; reflexivity).
  assert (H3 : to_size_t (atoll "4") < 2 ^ 61) by (vm_compute; reflexivity).
  repeat split; try assumption.
  exact (proj1 (@invalid_thread_count_not_checked env0 "grover" "4" "-1"
                  H1 H2 H3)).
Defined.

(** ** Allocation failure *)

(** C5, on the code: when [malloc] fails for N = 2^40, [run_grover_once]
    holds no vector and returns -1.0 to its caller, and the stand-alone
    programs return 3 without printing a result; but [main] of
    [src/grover.c] does not look at the -1.0: it prints the record with
    that value as the time and returns 0. *)
Theorem allocation_failure_not_propagated (e : env) (prog : string) :
  malloc_ok e 8796093022208 = false ->
  (forall (w : world) (target iterations : Z) (parallel : bool) (threads : Z),
     exists w' : world,
       run_grover_once e w 1099511627776 target iterations parallel threads
       = Ok (Double.opp Double.one) w' /\
       out w' = out w /\
       err w' = err w ++ ["allocation failed"] /\
       map run_vector (runs w') = map run_vector (runs w) ++ [None]) /\
  (exists w : world,
     main e [prog; "serial"; "1099511627776"] = Ok 0 w /\
     out w = [Rec "serial" 1099511627776 823549 1 (Double.opp Double.one)] /\
     err w = ["allocation failed"]) /\
  (exists w : world,
     main e [prog; "parallel"; "1099511627776"; "4"] = Ok 0 w /\
     out w = [Rec "parallel" 1099511627776 823549 4 (Double.opp Double.one)] /\
     err w = ["allocation failed"]) /\
  main_serial e [prog; "1099511627776"]
  = Ok 3 {| clock_reads := 0; rng_seed := 1; rng_calls := 0;
            omp_regions := 0; out := []; err := ["ERROR:MEM"]; csv := [];
            runs := [] |} /\
  main_parallel e [prog; "1099511627776"; "4"]
  = Ok 3 {| clock_reads := 0; rng_seed := 1; rng_calls := 0;
            omp_regions := 0; out := []; err := ["ERROR:MEM"]; csv := [];
            runs := [] |}.
Proof.
  intros Hm.
  assert (Hbytes : (sizeof_double * 1099511627776) mod 2 ^ 64 = 8796093022208)
    by evaluate.
  assert (Hm' : malloc_ok e ((sizeof_double * 1099511627776) mod 2 ^ 64) = false)
    by (rewrite Hbytes; exact Hm).
  assert (HN : to_size_t (atoll "1099511627776") = 1099511627776)
    by evaluate.
  assert (Hp : is_power_of_two 1099511627776 = true)
    by evaluate.
  assert (Hi : grover_iterations 1099511627776 = Some 823549)
    by evaluate.
  assert (Hr : 0 <= 1099511627776 < 2 ^ 61) by lia.
  assert (Hsingle : forall (mode : string) (parallel : bool) (threads : Z),
            exists w : world,
              single_run e world0 mode 1099511627776 parallel threads = Ok 0 w
              /\ out w = [Rec mode 1099511627776 823549 threads
                            (Double.opp Double.one)]
              /\ err w = ["allocation failed"]).
  { intros mode parallel threads.
    destruct (@single_run_valid e mode _ parallel threads Hp Hr)
      as (i & t & w & v & Hi' & Hrun & Hout & _ & _ & Hfail).
    rewrite Hi in Hi'. injection Hi' as <-.
    destruct (Hfail Hm') as (-> & _ & Herr).
    exists w. repeat split; assumption. }
  split; [ | split; [ | split; [ | split]]].
  - intros w target iterations parallel threads.
    rewrite run_grover_once_no_memory by exact Hm'.
    eexists. split; [reflexivity | ]. cbn [out err runs].
    repeat split. now rewrite map_app.
  - rewrite main_serial_args, HN. apply Hsingle.
  - rewrite main_parallel_args, HN.
    change (atoi "4") with 4. apply Hsingle.
  - unfold main_serial, cpp_run. cbn [length nth].
    change (1 <? Z.of_nat 2) with true. cbv iota.
    replace (atoll "1099511627776") with 1099511627776
      by evaluate.
    change (1099511627776 <=? 0) with false. cbv iota.
    change (to_size_t 1099511627776) with 1099511627776.
    change (vector_max_size <? 1099511627776) with false. cbv iota.
    change (sizeof_double * 1099511627776) with 8796093022208.
    rewrite Hm. reflexivity.
  - unfold main_parallel, cpp_run. cbn [length nth].
    change (1 <? Z.of_nat 3) with true. cbv iota.
    replace (atoll "1099511627776") with 1099511627776
      by evaluate.
    change (1099511627776 <=? 0) with false. cbv iota.
    change (to_size_t 1099511627776) with 1099511627776.
    change (vector_max_size <? 1099511627776) with false. cbv iota.
    change (sizeof_double * 1099511627776) with 8796093022208.
    rewrite Hm. reflexivity.
Qed.

Lemma allocation_failure_not_propagated_witness :
  malloc_ok env_oom 8796093022208 = false /\
  exists w : world,
    main env_oom ["grover"; "serial"; "1099511627776"] = Ok 0 w /\
    out w = [Rec "serial" 1099511627776 823549 1 (Double.opp Double.one)] /\
    err w = ["allocation failed"].
Proof.
  assert (H : malloc_ok env_oom 8796093022208 = false) by reflexivity.
  split; [exact H | ].
  exact (proj1 (proj2 (@allocation_failure_not_propagated env_oom "grover" H))).
Defined.

(** ** The target of a single run *)

Lemma single_run_target (e : env) (mode : string) (N : Z) (parallel : bool)
    (threads status : Z) (w : world) :
  0 <= N < 2 ^ 64 ->
  single_run e world0 mode N parallel threads = Ok status w ->
  rng_seed w = 1 /\
  Forall (fun r => run_target r = (libc_rand e 1 0 mod 2 ^ 31) mod run_N r)
    (runs w).
Proof.
  intros HN. unfold single_run.
  destruct (is_power_of_two N) eqn:Hp; cbn [negb];
    [ | intros [= <- <-]; split; [reflexivity | constructor]].
  destruct (grover_iterations N) as [iterations | ]; [ | discriminate].
  destruct (is_power_of_two_inv HN Hp) as [Hpos _].
  assert (Hr : 0 <= libc_rand e 1 0 mod 2 ^ 31 < 2 ^ 31)
    by (apply Z.mod_pos_bound; lia).
  destruct (target_in_range Hr Hpos) as [Htgt _].
  rewrite rand_first, Htgt. unfold run_grover_once.
  destruct (malloc_ok e ((sizeof_double * N) mod 2 ^ 64)); cbn [negb].
  - destruct ((sizeof_double * N) mod 2 ^ 64 <? sizeof_double * N);
      [discriminate | ].
    destruct (grover_loop _ _ _ _ _ _ _); [ | discriminate].
    intros [= <- <-]. split; [reflexivity | repeat constructor].
  - intros [= <- <-]. split; [reflexivity | repeat constructor].
Qed.

(** The sweep is the one place that seeds the generator, and it never
    draws from it. *)
Lemma run_grover_once_rng (e : env) (w w' : world) (N target iterations : Z)
    (parallel : bool) (threads : Z) (t : double) :
  run_grover_once e w N target iterations parallel threads = Ok t w' ->
  rng_seed w' = rng_seed w /\ rng_calls w' = rng_calls w.
Proof.
  unfold run_grover_once.
  destruct (malloc_ok e ((sizeof_double * N) mod 2 ^ 64)); cbn [negb].
  - destruct ((sizeof_double * N) mod 2 ^ 64 <? sizeof_double * N);
      [discriminate | ].
    destruct (grover_loop _ _ _ _ _ _ _); [ | discriminate].
    intros [= _ <-]. split; reflexivity.
  - intros [= _ <-]. split; reflexivity.
Qed.

Lemma sweep_trials_rng (e : env) (mode : string) (N target iterations : Z)
    (parallel : bool) (threads : Z) (trials : nat) :
  forall (w w' : world) (u : unit),
    sweep_trials e w trials mode N target iterations parallel threads = Ok u w'
    -> rng_seed w' = rng_seed w /\ rng_calls w' = rng_calls w.
Proof.
  induction trials as [ | k IH]; intros w w' u; cbn [sweep_trials].
  - intros [= _ <-]. split; reflexivity.
  - destruct (run_grover_once e w N target iterations parallel threads)
      as [t w1 | ] eqn:E; [ | discriminate].
    intros H. apply IH in H as [H1 H2]. apply run_grover_once_rng in E as [E1 E2].
    cbn [put_csv rng_seed rng_calls] in H1, H2. split; congruence.
Qed.

Lemma sweep_sizes_rng (e : env) (trials : nat) (sizes : list Z) :
  forall (w w' : world) (u : unit),
    sweep_sizes e w trials sizes = Ok u w' ->
    rng_seed w' = rng_seed w /\ rng_calls w' = rng_calls w.
Proof.
  induction sizes as [ | N sizes IH]; intros w w' u; cbn [sweep_sizes].
  - intros [= _ <-]. split; reflexivity.
  - destruct (grover_iterations N) as [iterations | ]; [ | discriminate].
    destruct (sweep_trials e w trials "serial" N _ iterations false 1)
      as [u1 w1 | ] eqn:E1; [ | discriminate].
    destruct (sweep_trials e w1 trials "parallel" N _ iterations true _)
      as [u2 w2 | ] eqn:E2; [ | discriminate].
    intros H. apply IH in H as [H1 H2].
    apply sweep_trials_rng in E1 as [A1 A2].
    apply sweep_trials_rng in E2 as [B1 B2].
    cbn [put_out rng_seed rng_calls] in H1, H2. split; congruence.
Qed.

Lemma sweep_seeds_from_time (e : env) (status : Z) (w : world) :
  fopen_ok e = true -> sweep e = Ok status w ->
  rng_seed w = time_null e mod 2 ^ 32 /\ rng_calls w = 0%nat.
Proof.
  intros Hf. unfold sweep. rewrite Hf. cbn [negb].
  destruct (sweep_sizes e _ 3 default_sizes) as [u w' | ] eqn:E;
    [ | discriminate].
  intros [= _ <-]. apply sweep_sizes_rng in E as [E1 E2].
  cbn [put_out rng_seed rng_calls]. rewrite E1, E2. split; reflexivity.
Qed.

(** * Further properties of the kernel *)

(** ** The search in exact arithmetic *)

Section Search.

Local Open Scope R_scope.

Lemma oracle_cons {F : Type} {A : Arith F} (y : F) (l : list F) (n : nat) :
  oracle (y :: l) (S n) = option_map (cons y) (oracle l n).
Proof.
  unfold oracle. cbn [nth_error].
  destruct (nth_error l n); reflexivity.
Qed.

Lemma oracle_middle {F : Type} {A : Arith F} (l1 l2 : list F) (x : F) :
  oracle (l1 ++ x :: l2) (length l1) = Some (l1 ++ fneg x :: l2).
Proof.
  induction l1 as [ | y l1 IH]; [reflexivity | ].
  cbn [app length]. rewrite oracle_cons, IH. reflexivity.
Qed.

Lemma marked_state_length (N target : nat) (alpha beta : R) :
  (target < N)%nat -> length (marked_state N target alpha beta) = N.
Proof.
  intros H. unfold marked_state.
  rewrite length_app, repeat_length. cbn [length]. rewrite repeat_length. lia.
Qed.

Lemma init_state_marked (N target : nat) :
  (target < N)%nat ->
  init_state N
  = marked_state N target (/ sqrt (INR N)) (/ sqrt (INR N)).
Proof.
  intros H. unfold init_state, marked_state. rewrite of_size_R.
  cbn [fdiv fone fsqrt Arith_R].
  replace (1 / sqrt (INR N)) with (/ sqrt (INR N)) by (unfold Rdiv; lra).
  change (/ sqrt (INR N) :: repeat (/ sqrt (INR N)) (N - S target))
    with (repeat (/ sqrt (INR N)) (S (N - S target))).
  rewrite <- repeat_app. f_equal. lia.
Qed.

Lemma oracle_marked (N target : nat) (alpha beta : R) :
  oracle (marked_state N target alpha beta) target
  = Some (marked_state N target (- alpha) beta).
Proof.
  unfold marked_state.
  pose proof (@oracle_middle R Arith_R (repeat beta target)
                (repeat beta (N - S target)) alpha) as H.
  now rewrite repeat_length in H.
Qed.

Lemma Rsum_repeat (x : R) (n : nat) : Rsum (repeat x n) = INR n * x.
Proof.
  unfold Rsum. induction n as [ | n IH].
  - cbn. lra.
  - cbn [repeat fold_right]. rewrite S_INR, IH. lra.
Qed.

Lemma Rsum_marked (N target : nat) (alpha beta : R) :
  (target < N)%nat ->
  Rsum (marked_state N target alpha beta) = alpha + (INR N - 1) * beta.
Proof.
  intros H. unfold marked_state.
  rewrite Rsum_app, Rsum_repeat.
  change (Rsum (alpha :: repeat beta (N - S target)))
    with (alpha + Rsum (repeat beta (N - S target))).
  rewrite Rsum_repeat.
  replace (INR N) with (INR target + INR (N - S target) + 1).
  - lra.
  - rewrite <- plus_INR, <- S_INR. f_equal. lia.
Qed.

Lemma reflect_marked (m : R) (N target : nat) (alpha beta : R) :
  reflect m (marked_state N target alpha beta)
  = marked_state N target (2 * m - alpha) (2 * m - beta).
Proof.
  unfold reflect, marked_state. rewrite map_app. cbn [map].
  now rewrite !map_repeat.
Qed.

(** One round on a state of the search. *)
Lemma round_marked (N target : nat) (alpha beta : R) (sched : nat -> list nat)
    (parallel : bool) (threads : Z) (it : nat) :
  (target < N)%nat ->
  arrival_order threads (sched it) ->
  let mean := (- alpha + (INR N - 1) * beta) / INR N in
  grover_loop sched target parallel threads 1 it
    (marked_state N target alpha beta)
  = Some (marked_state N target (2 * mean + alpha) (2 * mean - beta)).
Proof.
  intros Ht Hs mean. cbn [grover_loop]. rewrite oracle_marked.
  assert (Hd : diffusion_serial (marked_state N target (- alpha) beta)
               = marked_state N target (2 * mean + alpha) (2 * mean - beta)).
  { unfold diffusion_serial.
    rewrite accumulate_R, Rsum_marked, marked_state_length, of_size_R
      by exact Ht.
    rewrite reflect_marked. cbn [fdiv Arith_R]. fold mean.
    f_equal. lra. }
  destruct parallel; [rewrite diffusion_parallel_R by exact Hs | ];
    now rewrite Hd.
Qed.

Lemma grover_loop_app {F : Type} {A : Arith F} (sched : nat -> list nat)
    (target : nat) (parallel : bool) (threads : Z) (j : nat) :
  forall (k it : nat) (a b : list F),
    grover_loop sched target parallel threads j it a = Some b ->
    grover_loop sched target parallel threads (j + k) it a
    = grover_loop sched target parallel threads k (it + j) b.
Proof.
  induction j as [ | j IH]; intros k it a b; cbn [grover_loop Nat.add].
  - intros [= <-]. now rewrite Nat.add_0_r.
  - destruct (oracle a target) as [a1 | ]; [ | discriminate].
    intros H. rewrite (IH k _ _ _ H). f_equal. lia.
Qed.

(** The angle: its sine is 1/sqrt(N) and its cosine does not vanish. *)
Lemma grover_angle_facts (N : nat) :
  (2 <= N)%nat ->
  let s := sin (grover_angle N) in
  let c := cos (grover_angle N) in
  s = / sqrt (INR N) /\ s * s * INR N = 1 /\ c * c = 1 - s * s /\ c <> 0 /\
  s <> 0.
Proof.
  intros HN s c.
  assert (Hn : 2 <= INR N) by (apply (le_INR 2); exact HN).
  assert (Hsq : sqrt (INR N) * sqrt (INR N) = INR N) by (apply sqrt_sqrt; lra).
  assert (Hpos : 0 < sqrt (INR N)) by (apply sqrt_lt_R0; lra).
  assert (Hge1 : 1 <= sqrt (INR N)).
  { rewrite <- sqrt_1. apply sqrt_le_1_alt. lra. }
  assert (Hinv : 0 < / sqrt (INR N) <= 1).
  { split; [now apply Rinv_0_lt_compat | ].
    apply Rle_trans with (/ 1); [apply Rinv_le_contravar; lra | ].
    rewrite Rinv_1. lra. }
  assert (Hs : s = / sqrt (INR N)).
  { unfold s, grover_angle. apply sin_asin. lra. }
  assert (Hss : s * s * INR N = 1).
  { rewrite Hs. set (r := sqrt (INR N)) in *. rewrite <- Hsq. field. lra. }
  assert (Hcc : c * c = 1 - s * s).
  { pose proof (sin2_cos2 (grover_angle N)) as H. unfold Rsqr in H.
    fold s c in H. lra. }
  assert (Hs2 : s * s <= / 2).
  { assert (H : s * s = / INR N).
    { apply (Rmult_eq_reg_r (INR N)); [ | lra]. rewrite Hss. field. lra. }
    rewrite H. apply Rinv_le_contravar; lra. }
  repeat split; try assumption.
  - intros Hc. rewrite Hc in Hcc. lra.
  - intros H0. rewrite H0 in Hss. lra.
Qed.

Lemma odd_angle_succ (k : nat) (theta : R) :
  INR (2 * S k + 1) * theta = INR (2 * k + 1) * theta + 2 * theta.
Proof.
  replace (2 * S k + 1)%nat with (2 * k + 1 + 2)%nat by lia.
  rewrite (plus_INR (2 * k + 1) 2). change (INR 2) with (1 + 1). lra.
Qed.

Lemma rotation_step (n s c S C : R) :
  s * s * n = 1 -> c * c = 1 - s * s -> c <> 0 -> n <> 0 ->
  let beta := C * s / c in
  let m := (- S + (n - 1) * beta) / n in
  2 * m + S = S * (1 - 2 * s * s) + C * (2 * s * c) /\
  2 * m - beta = (C * (1 - 2 * s * s) - S * (2 * s * c)) * s / c.
Proof.
  intros Hss Hcc Hc Hn beta m. unfold m, beta. clear m beta.
  assert (E1 : S * c * (s * s * n) = S * c) by (rewrite Hss; ring).
  assert (E2 : C * s * (s * s * n) = C * s) by (rewrite Hss; ring).
  assert (E3 : n * C * s * (c * c) = n * C * s * (1 - s * s))
    by (rewrite Hcc; ring).
  assert (E4 : C * s * (c * c) = C * s * (1 - s * s)) by (rewrite Hcc; ring).
  assert (E5 : S * s * s * c * (s * s * n) = S * s * s * c)
    by (rewrite Hss; ring).
  assert (E6 : C * s * s * s * (s * s * n) = C * s * s * s)
    by (rewrite Hss; ring).
  ring_simplify in E1. ring_simplify in E2. ring_simplify in E3.
  ring_simplify in E4. ring_simplify in E5. ring_simplify in E6.
  split;
    (apply (Rmult_eq_reg_r (n * c));
     [ | apply Rmult_integral_contrapositive_currified; assumption]);
    field_simplify; try (split; assumption); try assumption; nra.
Qed.

(** The tangent of the angle is the amplitude ratio 1/sqrt(N - 1). *)
Lemma grover_angle_tan (N : nat) :
  (2 <= N)%nat ->
  sin (grover_angle N) / cos (grover_angle N) = / sqrt (INR N - 1).
Proof.
  intros HN.
  destruct (grover_angle_facts HN) as (Hs & Hss & Hcc & Hc & Hs0).
  assert (Hn : 2 <= INR N) by (apply (le_INR 2); exact HN).
  set (s := sin (grover_angle N)) in *. set (c := cos (grover_angle N)) in *.
  assert (Hcpos : 0 < c).
  { unfold c, grover_angle. rewrite cos_asin.
    - apply sqrt_lt_R0. unfold Rsqr. fold (grover_angle N).
      assert (H : / sqrt (INR N) * / sqrt (INR N) = s * s) by (rewrite Hs; ring).
      rewrite H. nra.
    - rewrite <- Hs.
      assert (Hb : s * s <= 1) by nra.
      split; nra. }
  assert (Hspos : 0 < s).
  { rewrite Hs. apply Rinv_0_lt_compat, sqrt_lt_R0. lra. }
  assert (Hq : sqrt (INR N - 1) = c / s).
  { apply sqrt_lem_1; [lra | | ].
    - apply Rlt_le, Rdiv_lt_0_compat; assumption.
    - apply (Rmult_eq_reg_r (s * s)); [ | nra].
      field_simplify; [ | lra]. nra. }
  rewrite Hq. field. split; lra.
Qed.

(** X1: the search itself.  In exact arithmetic, for N >= 2 and a target
    inside the vector, k rounds from the uniform state leave the amplitude
    sin((2k+1) theta) at the target and cos((2k+1) theta) / sqrt(N-1)
    everywhere else, where sin(theta) = 1/sqrt(N); serial or parallel. *)
Theorem grover_amplification (N target : nat) (sched : nat -> list nat)
    (parallel : bool) (threads : Z) (k it : nat) :
  (2 <= N)%nat -> (target < N)%nat ->
  (forall i : nat, arrival_order threads (sched i)) ->
  grover_loop sched target parallel threads k it (init_state N)
  = Some (marked_state N target
            (sin (INR (2 * k + 1) * grover_angle N))
            (cos (INR (2 * k + 1) * grover_angle N) / sqrt (INR N - 1))).
Proof.
  intros HN Ht Hs.
  destruct (grover_angle_facts HN) as (Hsin & Hss & Hcc & Hc & Hs0).
  pose proof (grover_angle_tan HN) as Htan.
  assert (Hn : INR N <> 0).
  { apply not_0_INR. lia. }
  set (theta := grover_angle N) in *.
  assert (Hgen : forall (k j it : nat),
            grover_loop sched target parallel threads k it
              (marked_state N target
                 (sin (INR (2 * j + 1) * theta))
                 (cos (INR (2 * j + 1) * theta) * sin theta / cos theta))
            = Some (marked_state N target
                      (sin (INR (2 * (j + k) + 1) * theta))
                      (cos (INR (2 * (j + k) + 1) * theta)
                       * sin theta / cos theta))).
  { clear k it. induction k as [ | k IH]; intros j it.
    - cbn [grover_loop]. now rewrite Nat.add_0_r.
    - replace (S k) with (1 + k)%nat by lia.
      rewrite (@grover_loop_app R _ sched target parallel threads 1 k it _ _
                 (round_marked _ _ sched parallel it Ht (Hs it))).
      destruct (@rotation_step (INR N) (sin theta) (cos theta)
                  (sin (INR (2 * j + 1) * theta))
                  (cos (INR (2 * j + 1) * theta)) Hss Hcc Hc Hn) as [EA EB].
      cbv zeta in EA, EB. rewrite EA, EB.
      rewrite <- cos_2a_sin, <- sin_2a, <- sin_plus, <- cos_plus.
      rewrite <- odd_angle_succ.
      replace (j + (1 + k))%nat with (S j + k)%nat by lia.
      apply IH. }
  rewrite (init_state_marked Ht).
  specialize (Hgen k 0%nat it).
  change (2 * 0 + 1)%nat with 1%nat in Hgen. change (0 + k)%nat with k in Hgen.
  change (INR 1) with 1 in Hgen. rewrite Rmult_1_l in Hgen.
  assert (Hb0 : cos theta * sin theta / cos theta = / sqrt (INR N)).
  { rewrite <- Hsin. field. exact Hc. }
  rewrite Hb0, Hsin in Hgen. rewrite Hgen.
  unfold Rdiv in Htan. unfold Rdiv. rewrite Rmult_assoc, <- Hsin, Htan.
  reflexivity.
Qed.

End Search.

Lemma grover_amplification_witness :
  (2 <= 4)%nat /\ (1 < 4)%nat /\
  (forall i : nat, arrival_order 2 ((fun _ => [1; 0]%nat) i)) /\
  grover_loop (fun _ => [1; 0]%nat) 1 true 2 3 0 (init_state 4)
  = Some (marked_state 4 1
            (sin (INR (2 * 3 + 1) * grover_angle 4))
            (cos (INR (2 * 3 + 1) * grover_angle 4) / sqrt (INR 4 - 1))).
Proof.
  assert (H1 : (2 <= 4)%nat) by lia.
  assert (H2 : (1 < 4)%nat) by lia.
  assert (Hs : forall i : nat, arrival_order 2 ((fun _ => [1; 0]%nat) i)).
  { intros _. unfold arrival_order. change (omp_team 2) with 2%nat.
    cbn [seq]. apply perm_swap. }
  split; [exact H1 | split; [exact H2 | split; [exact Hs | ]]].
  exact (@grover_amplification 4 1 (fun _ => [1; 0]%nat) true 2 3 0 H1 H2 Hs).
Defined.

(** ** Diffusion in exact arithmetic *)

(** X2: in exact arithmetic the parallel diffusion returns the vector the
    serial diffusion returns, for every vector, thread count and order of
    arrival of the threads. *)
Theorem diffusion_parallel_is_serial_real (order : list nat) (a : list R)
    (threads : Z) :
  arrival_order threads order ->
  diffusion_parallel order a threads = diffusion_serial a.
Proof. apply diffusion_parallel_R. Qed.

Lemma diffusion_parallel_is_serial_real_witness :
  arrival_order 3 [2; 0; 1]%nat /\
  diffusion_parallel [2; 0; 1]%nat [1; 2; 3; 4; 5]%R 3
  = diffusion_serial [1; 2; 3; 4; 5]%R.
Proof.
  assert (H : arrival_order 3 [2; 0; 1]%nat).
  { unfold arrival_order. change (omp_team 3) with 3%nat. cbn [seq].
    apply Permutation_sym.
    apply (@Permutation_cons_app _ [1; 2]%nat [2]%nat [1]%nat 0%nat).
    apply perm_swap. }
  split; [exact H | ].
  exact (@diffusion_parallel_is_serial_real [2; 0; 1]%nat [1; 2; 3; 4; 5]%R 3 H).
Defined.

(** X3: in exact arithmetic the diffusion keeps the sum of the vector
    (hence its mean), sends every entry x to its mirror image about the
    mean, and leaves a vector of equal entries, such as the uniform state,
    as it is. *)
Theorem diffusion_keeps_sum (a : list R) :
  Rsum (diffusion_serial a) = Rsum a /\
  (forall (i : nat) (x : R),
     nth_error a i = Some x ->
     nth_error (diffusion_serial a) i
     = Some (2 * (Rsum a / INR (length a)) - x)%R) /\
  (forall (v : R) (n : nat), diffusion_serial (repeat v n) = repeat v n) /\
  (forall N : nat, diffusion_serial (init_state N) = init_state (F := R) N).
Proof.
  assert (Hfix : forall (v : R) (n : nat),
            diffusion_serial (repeat v n) = repeat v n).
  { intros v [ | n]; [reflexivity | ].
    unfold diffusion_serial.
    rewrite accumulate_R, Rsum_repeat, repeat_length, of_size_R.
    unfold reflect. rewrite map_repeat. f_equal.
    cbn [fsub fmul ftwo fdiv Arith_R].
    assert (H : INR (S n) <> 0%R) by (apply not_0_INR; lia).
    field. exact H. }
  split; [ | split; [ | split; [exact Hfix | intros N; apply Hfix]]].
  - destruct a as [ | x a]; [reflexivity | ].
    unfold diffusion_serial.
    rewrite Rsum_reflect, accumulate_R, of_size_R.
    assert (H : INR (length (x :: a)) <> 0%R) by (apply not_0_INR; cbn; lia).
    cbn [fdiv Arith_R]. field. exact H.
  - intros i x Hx. unfold diffusion_serial, reflect.
    rewrite nth_error_map, Hx, accumulate_R, of_size_R. reflexivity.
Qed.

(** ** The oracle, twice *)

Lemma oracle_twice_generic {F : Type} {A : Arith F} (a a' : list F)
    (target : nat) :
  (forall x : F, fneg (fneg x) = x) ->
  oracle a target = Some a' -> oracle a' target = Some a.
Proof.
  intros Hneg H. apply oracle_inv in H as (x & E & ->).
  assert (Hlen : length (firstn target a) = target).
  { rewrite length_firstn. apply Nat.min_l.
    apply Nat.lt_le_incl, nth_error_Some. congruence. }
  pose proof (oracle_middle (firstn target a) (skipn (S target) a) (fneg x)) as H.
  rewrite Hlen, Hneg in H. rewrite H. f_equal.
  symmetry. now apply nth_error_split_at.
Qed.

(** X4: the oracle undoes itself: applied twice at the same target it
    gives the vector back, exactly, over the reals and on every vector of
    doubles (negation only flips the sign bit). *)
Theorem oracle_twice (target : nat) :
  (forall a a' : list R,
     oracle a target = Some a' -> oracle a' target = Some a) /\
  (forall a a' : list double,
     oracle a target = Some a' -> oracle a' target = Some a).
Proof.
  split; intros a a'; apply oracle_twice_generic.
  - intros x. cbn [fneg Arith_R]. lra.
  - intros [[ | ] | [ | ] | | [ | ] m e]; reflexivity.
Qed.

Lemma oracle_twice_witness :
  oracle uniform4 1 = Some marked1 /\ oracle marked1 1 = Some uniform4.
Proof.
  assert (H : oracle uniform4 1 = Some marked1) by (vm_compute; reflexivity).
  split; [exact H | ].
  exact (proj2 (oracle_twice 1) uniform4 marked1 H).
Defined.

(** ** Bounds *)

(** X5: the round loop stays inside the array exactly when the target
    is inside it: for a target below the length every number of rounds
    yields a vector of the same length, and for a target at or beyond the
    length the first oracle already reads outside the array. *)
Theorem grover_loop_bounds {F : Type} {A : Arith F} (sched : nat -> list nat)
    (target : nat) (parallel : bool) (threads : Z) (rounds it : nat)
    (a : list F) :
  ((target < length a)%nat ->
   exists a' : list F,
     grover_loop sched target parallel threads rounds it a = Some a' /\
     length a' = length a) /\
  ((length a <= target)%nat -> (1 <= rounds)%nat ->
   grover_loop sched target parallel threads rounds it a = None).
Proof.
  split.
  - apply grover_loop_defined.
  - intros Hout Hr. destruct rounds as [ | k]; [lia | ].
    cbn [grover_loop]. unfold oracle.
    now rewrite (proj2 (nth_error_None a target) Hout).
Qed.

Lemma grover_loop_bounds_witness :
  (2 < length uniform4)%nat /\ (length uniform4 <= 4)%nat /\ (1 <= 3)%nat /\
  (exists a' : list double,
     grover_loop (fun _ => [0%nat]) 2 false 1 3 0 uniform4 = Some a' /\
     length a' = length uniform4) /\
  grover_loop (fun _ => [0%nat]) 4 false 1 3 0 uniform4 = None.
Proof.
  assert (H1 : (2 < length uniform4)%nat) by (cbn; lia).
  assert (H2 : (length uniform4 <= 4)%nat) by (cbn; lia).
  assert (H3 : (1 <= 3)%nat) by lia.
  split; [exact H1 | split; [exact H2 | split; [exact H3 | split]]].
  - exact (proj1 (@grover_loop_bounds double _ (fun _ => [0%nat]) 2 false 1 3 0
                    uniform4) H1).
  - exact (proj2 (@grover_loop_bounds double _ (fun _ => [0%nat]) 4 false 1 3 0
                    uniform4) H2 H3).
Defined.

(** ** The C++ kernels and the C kernel *)

Lemma to_int32_small (z : Z) : 0 <= z < 2 ^ 31 -> to_int32 z = z.
Proof. intros H. unfold to_int32. rewrite Z.mod_small; lia. Qed.

Lemma oracle_length {F : Type} {A : Arith F} (a a' : list F) (target : nat) :
  oracle a target = Some a' -> length a' = length a.
Proof.
  intros H. apply oracle_inv in H as (x & E & ->).
  rewrite (nth_error_split_at _ _ E) at 3.
  rewrite !length_app. reflexivity.
Qed.

Lemma grover_iteration_round {F : Type} {A : Arith F} (a : list F)
    (markedIndex : Z) (order : list nat) (threads : Z) :
  Z.of_nat (length a) < 2 ^ 31 ->
  (0 <= markedIndex ->
   grover_iteration a markedIndex
   = option_map diffusion_serial (oracle a (Z.to_nat markedIndex)) /\
   grover_iteration_omp order (omp_team threads) a markedIndex
   = option_map (fun a1 => diffusion_parallel order a1 threads)
       (oracle a (Z.to_nat markedIndex))) /\
  (markedIndex < 0 ->
   grover_iteration a markedIndex = None /\
   grover_iteration_omp order (omp_team threads) a markedIndex = None).
Proof.
  intros Hlen.
  assert (Hn : to_int32 (Z.of_nat (length a)) = Z.of_nat (length a))
    by (apply to_int32_small; lia).
  split.
  - intros Hidx. unfold grover_iteration, grover_iteration_omp, oracle_at.
    destruct (Z.ltb_spec markedIndex 0) as [Hneg | _]; [lia | ].
    rewrite Hn, Nat2Z.id.
    destruct (oracle a (Z.to_nat markedIndex)) as [a1 | ] eqn:Ho;
      [ | split; reflexivity].
    apply oracle_length in Ho.
    rewrite <- Ho, firstn_all, skipn_all, !app_nil_r.
    split; reflexivity.
  - intros Hneg. unfold grover_iteration, grover_iteration_omp, oracle_at.
    destruct (Z.ltb_spec markedIndex 0) as [_ | Hpos]; [ | lia].
    split; reflexivity.
Qed.

(** X6: on a vector of fewer than 2^31 entries and with an index that is
    not negative, [grover_iteration] of the C++ programs is the oracle
    followed by [diffusion_serial] of [src/grover.c], and its OpenMP variant
    is the oracle followed by [diffusion_parallel] with the same team; with
    a negative index both read outside the vector. *)
Theorem grover_iteration_is_round {F : Type} {A : Arith F} (a : list F)
    (markedIndex : Z) (order : list nat) (threads : Z) :
  Z.of_nat (length a) < 2 ^ 31 ->
  (0 <= markedIndex ->
   grover_iteration a markedIndex
   = option_map diffusion_serial (oracle a (Z.to_nat markedIndex)) /\
   grover_iteration_omp order (omp_team threads) a markedIndex
   = option_map (fun a1 => diffusion_parallel order a1 threads)
       (oracle a (Z.to_nat markedIndex))) /\
  (markedIndex < 0 ->
   grover_iteration a markedIndex = None /\
   grover_iteration_omp order (omp_team threads) a markedIndex = None).
Proof. apply grover_iteration_round. Qed.

Lemma grover_iteration_is_round_witness :
  Z.of_nat (length uniform4) < 2 ^ 31 /\ 0 <= 1 /\
  grover_iteration uniform4 1
  = option_map diffusion_serial (oracle uniform4 (Z.to_nat 1)).
Proof.
  assert (H1 : Z.of_nat (length uniform4) < 2 ^ 31) by (vm_compute; reflexivity).
  assert (H2 : 0 <= 1) by lia.
  split; [exact H1 | split; [exact H2 | ]].
  exact (proj1 (proj1 (@grover_iteration_is_round double _ uniform4 1
                         [0%nat] 1 H1) H2)).
Defined.

Lemma diffusion_length {F : Type} {A : Arith F} (a : list F)
    (order : list nat) (threads : Z) :
  length (diffusion_serial a) = length a /\
  length (diffusion_parallel order a threads) = length a.
Proof.
  unfold diffusion_serial, diffusion_parallel. now rewrite !reflect_length.
Qed.

Lemma cpp_loop_round (sched : nat -> list nat) (markedIndex : Z)
    (threads : Z) (rounds : nat) :
  0 <= markedIndex ->
  forall (it : nat) (a : list double),
    Z.of_nat (length a) < 2 ^ 31 ->
    cpp_loop (fun _ v => grover_iteration v markedIndex) rounds it a
    = grover_loop sched (Z.to_nat markedIndex) false threads rounds it a /\
    cpp_loop (fun i v =>
                grover_iteration_omp (sched i) (omp_team threads) v markedIndex)
      rounds it a
    = grover_loop sched (Z.to_nat markedIndex) true threads rounds it a.
Proof.
  intros Hidx. induction rounds as [ | k IH]; intros it a Hlen.
  - split; reflexivity.
  - cbn [cpp_loop grover_loop].
    destruct (@grover_iteration_round double _ a markedIndex (sched it)
                threads Hlen) as [Hpos _].
    destruct (Hpos Hidx) as [-> ->].
    destruct (oracle a (Z.to_nat markedIndex)) as [a1 | ] eqn:Ho;
      [ | split; reflexivity].
    cbn [option_map]. apply oracle_length in Ho.
    destruct (diffusion_length a1 (sched it) threads) as [L1 L2].
    split.
    + apply (IH (S it) (diffusion_serial a1)). rewrite L1, Ho. exact Hlen.
    + apply (IH (S it) (diffusion_parallel (sched it) a1 threads)).
      rewrite L2, Ho. exact Hlen.
Qed.

(** X7: the round loops of the C++ programs compute what the round loop
    of [run_grover_once] computes: the same vector after every number of
    rounds, bit for bit, serial against serial and OpenMP against OpenMP
    (vectors of fewer than 2^31 doubles, index not negative). *)
Theorem cpp_loop_is_grover_loop (sched : nat -> list nat) (markedIndex : Z)
    (threads : Z) (rounds : nat) :
  0 <= markedIndex ->
  forall (it : nat) (a : list double),
    Z.of_nat (length a) < 2 ^ 31 ->
    cpp_loop (fun _ v => grover_iteration v markedIndex) rounds it a
    = grover_loop sched (Z.to_nat markedIndex) false threads rounds it a /\
    cpp_loop (fun i v =>
                grover_iteration_omp (sched i) (omp_team threads) v markedIndex)
      rounds it a
    = grover_loop sched (Z.to_nat markedIndex) true threads rounds it a.
Proof. apply cpp_loop_round. Qed.

Lemma cpp_loop_is_grover_loop_witness :
  0 <= 1 /\ Z.of_nat (length uniform4) < 2 ^ 31 /\
  cpp_loop (fun _ v => grover_iteration v 1) 2 0 uniform4
  = grover_loop (fun _ => [0%nat]) (Z.to_nat 1) false 1 2 0 uniform4.
Proof.
  assert (H1 : 0 <= 1) by lia.
  assert (H2 : Z.of_nat (length uniform4) < 2 ^ 31) by (vm_compute; reflexivity).
  split; [exact H1 | split; [exact H2 | ]].
  exact (proj1 (@cpp_loop_is_grover_loop (fun _ => [0%nat]) 1 1 2 H1 0%nat
                  uniform4 H2)).
Defined.

(** ** Iteration counts *)

Lemma binary_round_aux_sign (s : bool) (m e : Z) (l : location) :
  match binary_round_aux Double.prec Double.emax s m e l with
  | S754_finite s' _ _ => s' = s
  | _ => True
  end.
Proof.
  unfold binary_round_aux.
  destruct (shr_fexp Double.prec Double.emax m e l) as [mrs' e'].
  destruct (shr_fexp Double.prec Double.emax _ e' loc_Exact) as [mrs'' e''].
  destruct (shr_m mrs''); try exact I.
  destruct (e'' <=? Double.emax - Double.prec); [reflexivity | exact I].
Qed.

Lemma sqrt_not_negative (x : double) :
  match Double.sqrt x with
  | S754_finite true _ _ => False
  | _ => True
  end.
Proof.
  unfold Double.sqrt.
  destruct x as [[ | ] | [ | ] | | [ | ] m e]; cbn [SFsqrt]; try exact I.
  destruct (SFsqrt_core_binary Double.prec Double.emax (Z.pos m) e)
    as [[mz ez] lz].
  pose proof (binary_round_aux_sign false mz ez lz) as H.
  destruct (binary_round_aux Double.prec Double.emax false mz ez lz)
    as [ | | | [ | ] ? ?]; try exact I. discriminate.
Qed.

Lemma floor_trunc_agree (x : double) :
  match x with S754_finite true _ _ => False | _ => True end ->
  Double.floor x = Double.trunc x.
Proof.
  destruct x as [ | | | [ | ] m e]; try reflexivity; [contradiction | ].
  intros _. cbn [Double.floor Double.trunc].
  destruct (0 <=? e) eqn:E; [reflexivity | ].
  f_equal. symmetry. apply Z.quot_div_nonneg; [lia | ].
  apply Z.pow_pos_nonneg; [lia | ]. apply Z.leb_gt in E. lia.
Qed.

(** X8: the C program and the C++ programs compute the same iteration
    count for every size: the floor and the truncation of
    (M_PI / 4) * sqrt(N) agree because that product is never negative. *)
Theorem cpp_iterations_is_grover_iterations (N : Z) :
  cpp_iterations N = grover_iterations N.
Proof.
  unfold cpp_iterations, grover_iterations.
  rewrite floor_trunc_agree; [reflexivity | ].
  pose proof (sqrt_not_negative (Double.of_Z N)) as Hs.
  replace (Double.div Double.M_PI Double.four)
    with (S754_finite false 7074237752028440 (-53)) by evaluate.
  unfold Double.mul.
  destruct (Double.sqrt (Double.of_Z N)) as [ | | | [ | ] m e];
    cbn [SFmul xorb]; try exact I; [contradiction | ].
  pose proof (binary_round_aux_sign false
                (Z.pos (7074237752028440 * m)) (-53 + e) loc_Exact) as H.
  destruct (binary_round_aux Double.prec Double.emax false _ _ loc_Exact)
    as [ | | | [ | ] ? ?]; try exact I. discriminate.
Qed.

Lemma reference_table :
  forallb (fun k : nat =>
             match grover_iterations (2 ^ Z.of_nat k) with
             | Some i => i =? reference_iterations (2 ^ Z.of_nat k)
             | None => false
             end) (seq 0 63) = true.
Proof. evaluate. Qed.

Lemma reference_iterations_mono (N M : Z) :
  0 <= N <= M -> reference_iterations N <= reference_iterations M.
Proof.
  intros H. unfold reference_iterations.
  apply Z.sqrt_le_mono, Z.div_le_mono; [lia | ].
  apply Z.mul_le_mono_nonneg_l; lia.
Qed.

Lemma iterations_reference (N : Z) :
  is_power_of_two N = true -> 0 <= N < 2 ^ 63 ->
  grover_iterations N = Some (reference_iterations N).
Proof.
  intros Hp HN.
  destruct (@is_power_of_two_inv N ltac:(lia) Hp) as [Hpos Hpow].
  pose proof (Z.log2_nonneg N) as Hk.
  assert (Hlt : Z.log2 N < 63) by (apply (Z.pow_lt_mono_r_iff 2); lia).
  pose proof reference_table as Htab.
  rewrite forallb_forall in Htab.
  specialize (Htab (Z.to_nat (Z.log2 N))).
  rewrite Z2Nat.id, <- Hpow in Htab by exact Hk.
  assert (Hin : In (Z.to_nat (Z.log2 N)) (seq 0 63)) by (apply in_seq; lia).
  specialize (Htab Hin).
  destruct (grover_iterations N) as [i | ]; [ | discriminate].
  apply Z.eqb_eq in Htab. now subst.
Qed.

(** X9: for every power of two N below 2^63 the iteration count that
    [main] computes in doubles is exactly the integral part of
    (M_PI / 4) * sqrt(N) computed in integers: no rounding of the square
    root or of the product changes it.  The count grows with N, is 0 for
    N = 1 only, and for N = 2^63 it does not fit an [int]. *)
Theorem iterations_exact (N : Z) :
  is_power_of_two N = true -> 0 <= N < 2 ^ 63 ->
  grover_iterations N = Some (reference_iterations N) /\
  (reference_iterations N = 0 <-> N = 1) /\
  (forall M : Z, N <= M -> reference_iterations N <= reference_iterations M) /\
  grover_iterations (2 ^ 63) = None.
Proof.
  intros Hp HN.
  destruct (@is_power_of_two_inv N ltac:(lia) Hp) as [Hpos Hpow].
  pose proof (Z.log2_nonneg N) as Hk.
  assert (Hlt : Z.log2 N < 63) by (apply (Z.pow_lt_mono_r_iff 2); lia).
  split; [ | split; [ | split; [ | evaluate]]].
  - now apply iterations_reference.
  - split.
    + intros H0. destruct (Z.eq_dec N 1) as [ | Hne]; [assumption | exfalso].
      assert (H2 : reference_iterations 2 <= reference_iterations N)
        by (apply reference_iterations_mono; lia).
      replace (reference_iterations 2) with 1 in H2 by evaluate. lia.
    + intros ->. evaluate.
  - intros M HM. apply reference_iterations_mono. lia.
Qed.

Lemma iterations_exact_witness :
  is_power_of_two 65536 = true /\ 0 <= 65536 < 2 ^ 63 /\
  grover_iterations 65536 = Some (reference_iterations 65536).
Proof.
  assert (H1 : is_power_of_two 65536 = true) by (vm_compute; reflexivity).
  assert (H2 : 0 <= 65536 < 2 ^ 63) by lia.
  split; [exact H1 | split; [exact H2 | ]].
  exact (proj1 (@iterations_exact 65536 H1 H2)).
Defined.

(** ** The sweep *)

(** A run whose target is inside the vector always returns: either the
    elapsed time, or -1.0 when the vector could not be obtained. *)
Lemma run_grover_once_returns (e : env) (w : world)
    (N target iterations : Z) (parallel : bool) (threads : Z) :
  0 <= target < N -> N < 2 ^ 61 ->
  exists (t : double) (w' : world),
    run_grover_once e w N target iterations parallel threads = Ok t w' /\
    out w' = out w /\ csv w' = csv w /\
    map run_target (runs w') = map run_target (runs w) ++ [target] /\
    map run_N (runs w') = map run_N (runs w) ++ [N] /\
    (malloc_ok e ((sizeof_double * N) mod 2 ^ 64) = false ->
     t = Double.opp Double.one).
Proof.
  intros Ht HN.
  destruct (malloc_ok e ((sizeof_double * N) mod 2 ^ 64)) eqn:Hm.
  - destruct (@run_grover_once_done e w N target iterations parallel threads
                Hm Ht HN) as (a & _ & ->).
    eexists _, _. split; [reflexivity | ].
    cbn [out csv runs]. rewrite !map_app.
    repeat split; try reflexivity. discriminate.
  - rewrite run_grover_once_no_memory by exact Hm.
    eexists _, _. split; [reflexivity | ].
    cbn [out csv runs]. rewrite !map_app.
    repeat split; reflexivity.
Qed.

Lemma erase_time_records (mode : string) (N iterations threads : Z)
    (ts : list double) :
  map erase_time (map (Rec mode N iterations threads) ts)
  = repeat (Rec mode N iterations threads Double.zero) (length ts).
Proof.
  induction ts as [ | t ts IH]; [reflexivity | ].
  cbn [map length repeat erase_time]. now rewrite IH.
Qed.

Lemma sweep_trials_returns (e : env) (mode : string)
    (N target iterations : Z) (parallel : bool) (threads : Z) :
  0 <= target < N -> N < 2 ^ 61 ->
  forall (trials : nat) (w : world),
  exists (ts : list double) (w' : world),
    sweep_trials e w trials mode N target iterations parallel threads
    = Ok tt w' /\
    length ts = trials /\
    csv w' = csv w ++ map (Rec mode N iterations threads) ts /\
    out w' = out w /\
    map run_target (runs w') = map run_target (runs w) ++ repeat target trials /\
    map run_N (runs w') = map run_N (runs w) ++ repeat N trials /\
    (malloc_ok e ((sizeof_double * N) mod 2 ^ 64) = false ->
     ts = repeat (Double.opp Double.one) trials).
Proof.
  intros Ht HN. induction trials as [ | k IH]; intros w.
  - exists [], w. cbn [sweep_trials map repeat length].
    rewrite !app_nil_r. repeat split; reflexivity.
  - cbn [sweep_trials].
    destruct (@run_grover_once_returns e w N target iterations parallel
                threads Ht HN)
      as (t & w1 & -> & Hout & Hcsv & Htg & HrN & Hfail).
    destruct (IH (put_csv (Rec mode N iterations threads t) w1))
      as (ts & w' & -> & Hlen & Hcsv' & Hout' & Htg' & HrN' & Hfail').
    exists (t :: ts), w'. cbn [put_csv csv out runs] in *.
    split; [reflexivity | ].
    split; [cbn [length]; now rewrite Hlen | ].
    split; [rewrite Hcsv', Hcsv, <- app_assoc; reflexivity | ].
    split; [now rewrite Hout', Hout | ].
    split; [rewrite Htg', Htg, <- app_assoc; reflexivity | ].
    split; [rewrite HrN', HrN, <- app_assoc; reflexivity | ].
    intros Hm. cbn [repeat]. now rewrite (Hfail Hm), (Hfail' Hm).
Qed.

(** The rows that the sweep writes for one size, with the times erased. *)
Lemma sweep_sizes_returns (e : env) (trials : nat) (sizes : list Z) :
  Forall (fun N => 1 <= N < 2 ^ 61 /\ grover_iterations N <> None) sizes ->
  forall w : world,
  exists w' : world,
    sweep_sizes e w trials sizes = Ok tt w' /\
    out w' = out w ++ map Completed sizes /\
    map erase_time (csv w')
    = map erase_time (csv w) ++
      flat_map (fun N =>
                  let i := match grover_iterations N with
                           | Some i => i
                           | None => 0
                           end in
                  repeat (Rec "serial" N i 1 Double.zero) trials ++
                  repeat (Rec "parallel" N i (omp_max_threads e) Double.zero)
                    trials) sizes /\
    map run_target (runs w')
    = map run_target (runs w) ++
      flat_map (fun N => repeat (N / 3) (trials + trials)) sizes /\
    ((forall bytes : Z, malloc_ok e bytes = false) ->
     Forall (fun l => match l with
                      | Rec _ _ _ _ t => t = Double.opp Double.one
                      | _ => True
                      end) (csv w) ->
     Forall (fun l => match l with
                      | Rec _ _ _ _ t => t = Double.opp Double.one
                      | _ => True
                      end) (csv w')).
Proof.
  induction 1 as [ | N sizes [HN Hi] _ IH]; intros w.
  - exists w. cbn [sweep_sizes map flat_map]. rewrite !app_nil_r.
    repeat split; auto.
  - cbn [sweep_sizes].
    destruct (grover_iterations N) as [i | ] eqn:Ei; [ | now contradiction Hi].
    assert (Ht : 0 <= (if 1 <? N then N / 3 else 0) < N).
    { destruct (Z.ltb_spec 1 N); [ | lia].
      split; [apply Z.div_pos; lia | apply Z.div_lt_upper_bound; lia]. }
    assert (Htg : (if 1 <? N then N / 3 else 0) = N / 3).
    { destruct (Z.ltb_spec 1 N); [reflexivity | ].
      assert (N = 1) by lia. subst. reflexivity. }
    rewrite Htg in *.
    destruct (@sweep_trials_returns e "serial" N (N / 3) i false 1 Ht
                ltac:(lia) trials w)
      as (ts1 & w1 & -> & L1 & C1 & O1 & T1 & _ & F1).
    destruct (@sweep_trials_returns e "parallel" N (N / 3) i true
                (omp_max_threads e) Ht ltac:(lia) trials w1)
      as (ts2 & w2 & -> & L2 & C2 & O2 & T2 & _ & F2).
    destruct (IH (put_out (Completed N) w2))
      as (w' & -> & O' & C' & T' & F').
    exists w'. cbn [put_out out csv runs] in *.
    split; [reflexivity | ].
    split; [rewrite O', O2, O1; cbn [map]; now rewrite <- app_assoc | ].
    split.
    { rewrite C', C2, C1, !map_app, !erase_time_records, L1, L2.
      cbn [flat_map]. rewrite Ei. now rewrite <- !app_assoc. }
    split.
    { rewrite T', T2, T1. cbn [flat_map].
      rewrite repeat_app, <- !app_assoc. reflexivity. }
    intros Hall Hw. apply F'; [exact Hall | ].
    rewrite C2, C1, (F1 (Hall _)), (F2 (Hall _)).
    apply Forall_app. split; [apply Forall_app; split; [exact Hw | ] | ];
      apply Forall_map, Forall_forall; intros t Hin;
      apply repeat_spec in Hin; exact Hin.
Qed.

Lemma default_sizes_valid :
  Forall (fun N => 1 <= N < 2 ^ 61 /\ grover_iterations N <> None)
    default_sizes.
Proof.
  unfold default_sizes.
  repeat (constructor;
          [split; [lia | intros H; vm_compute in H; discriminate] | ]).
  constructor.
Qed.

Lemma default_rows (maxT : Z) (trials : nat) :
  flat_map (fun N =>
              let i := match grover_iterations N with
                       | Some i => i
                       | None => 0
                       end in
              repeat (Rec "serial" N i 1 Double.zero) trials ++
              repeat (Rec "parallel" N i maxT Double.zero) trials)
    default_sizes
  = flat_map (fun p : Z * Z =>
                repeat (Rec "serial" (fst p) (snd p) 1 Double.zero) trials ++
                repeat (Rec "parallel" (fst p) (snd p) maxT Double.zero) trials)
      [(4096, 50); (16384, 100); (65536, 201); (262144, 402);
       (1048576, 804); (4194304, 1608); (16777216, 3216)].
Proof.
  unfold default_sizes. cbn [flat_map fst snd].
  replace (grover_iterations (2 ^ 12)) with (Some 50) by evaluate.
  replace (grover_iterations (2 ^ 14)) with (Some 100) by evaluate.
  replace (grover_iterations (2 ^ 16)) with (Some 201) by evaluate.
  replace (grover_iterations (2 ^ 18)) with (Some 402) by evaluate.
  replace (grover_iterations (2 ^ 20)) with (Some 804) by evaluate.
  replace (grover_iterations (2 ^ 22)) with (Some 1608) by evaluate.
  replace (grover_iterations (2 ^ 24)) with (Some 3216) by evaluate.
  reflexivity.
Qed.

(** X10: the sweep.  When the result file cannot be opened [main] returns
    1 and runs nothing.  Otherwise the sweep always runs to its end and
    returns 0, whatever allocations fail: the file holds the header and,
    for each of the seven sizes in turn, three serial rows and then three
    parallel rows (threads = [omp_get_max_threads()]) with the iteration
    counts 50, 100, 201, 402, 804, 1608, 3216; every run uses the target
    N / 3; a run whose allocation failed is written with the time -1.0 and
    the sweep goes on.  [./grover] without a complete single-run request
    ([serial] without a size, [parallel] without a thread count) runs the
    sweep. *)
Theorem sweep_runs_to_the_end (e : env) (prog s : string) :
  main e [prog] = sweep e /\
  main e [prog; "serial"] = sweep e /\
  main e [prog; "parallel"; s] = sweep e /\
  (fopen_ok e = false ->
   sweep e = Ok 1 {| clock_reads := 0; rng_seed := 1; rng_calls := 0;
                     omp_regions := 0; out := []; err := ["fopen"];
                     csv := []; runs := [] |}) /\
  (fopen_ok e = true ->
   exists w : world,
     sweep e = Ok 0 w /\
     out w = map Completed default_sizes ++
             [Text "Results written to data/results.csv"] /\
     map erase_time (csv w)
     = Header ::
       flat_map (fun p : Z * Z =>
                   repeat (Rec "serial" (fst p) (snd p) 1 Double.zero) 3 ++
                   repeat (Rec "parallel" (fst p) (snd p) (omp_max_threads e)
                             Double.zero) 3)
         [(4096, 50); (16384, 100); (65536, 201); (262144, 402);
          (1048576, 804); (4194304, 1608); (16777216, 3216)] /\
     map run_target (runs w)
     = flat_map (fun N => repeat (N / 3) 6) default_sizes /\
     ((forall bytes : Z, malloc_ok e bytes = false) ->
      Forall (fun l => match l with
                       | Rec _ _ _ _ t => t = Double.opp Double.one
                       | _ => True
                       end) (csv w))).
Proof.
  split; [reflexivity | ]. split; [reflexivity | ].
  split.
  { unfold main. cbn [nth length].
    change (String.eqb "parallel" "serial") with false.
    change (String.eqb "parallel" "parallel") with true.
    reflexivity. }
  split.
  - intros Hf. unfold sweep. rewrite Hf. reflexivity.
  - intros Hf. unfold sweep. rewrite Hf. cbn [negb].
    destruct (@sweep_sizes_returns e 3 default_sizes default_sizes_valid
                (srand (time_null e) (put_csv Header world0)))
      as (w' & -> & Ho & Hc & Ht & Hfail).
    eexists. split; [reflexivity | ].
    cbn [put_out out csv runs].
    split; [rewrite Ho; reflexivity | ].
    split; [rewrite Hc, default_rows; reflexivity | ].
    split; [rewrite Ht; reflexivity | ].
    intros Hall. apply Hfail; [exact Hall | ].
    repeat constructor.
Qed.

Lemma sweep_runs_to_the_end_witness :
  fopen_ok env_oom = true /\
  exists w : world,
    sweep env_oom = Ok 0 w /\
    out w = map Completed default_sizes ++
            [Text "Results written to data/results.csv"].
Proof.
  assert (H : fopen_ok env_oom = true) by reflexivity.
  split; [exact H | ].
  destruct (proj2 (proj2 (proj2 (proj2
              (@sweep_runs_to_the_end env_oom "grover" "8")))) H)
    as (w & Hs & Ho & _).
  exists w. split; [exact Hs | exact Ho].
Defined.

(** ** A single run of a valid size *)

Lemma single_run_outcome (e : env) (mode : string) (N : Z) (parallel : bool)
    (threads : Z) :
  is_power_of_two N = true -> 0 <= N < 2 ^ 61 ->
  let target := (libc_rand e 1 0 mod 2 ^ 31) mod N in
  let iterations := reference_iterations N in
  0 <= target < N /\
  exists (t : double) (w : world) (v : option (list double)),
    single_run e world0 mode N parallel threads = Ok 0 w /\
    out w = [Rec mode N iterations threads t] /\
    runs w = [{| run_N := N; run_target := target;
                 run_iterations := iterations; run_parallel := parallel;
                 run_threads := threads; run_vector := v |}] /\
    (malloc_ok e ((sizeof_double * N) mod 2 ^ 64) = true ->
     err w = [] /\
     t = Double.sub (clock e 1%nat) (clock e 0%nat) /\
     v = grover_loop (fun it => omp_sched e it) (Z.to_nat target) parallel
           threads (Z.to_nat iterations) 0 (init_state (Z.to_nat N)) /\
     exists a : list double, v = Some a /\ length a = Z.to_nat N) /\
    (malloc_ok e ((sizeof_double * N) mod 2 ^ 64) = false ->
     err w = ["allocation failed"] /\ t = Double.opp Double.one /\ v = None).
Proof.
  intros Hp HN target iterations.
  assert (Hi : grover_iterations N = Some iterations)
    by (apply iterations_reference; [exact Hp | lia]).
  destruct (@is_power_of_two_inv N ltac:(lia) Hp) as [Hpos _].
  assert (Hr : 0 <= libc_rand e 1 0 mod 2 ^ 31 < 2 ^ 31)
    by (apply Z.mod_pos_bound; lia).
  destruct (target_in_range Hr Hpos) as [Htgt Hrange].
  split; [exact Hrange | ].
  unfold single_run. rewrite Hp, Hi, rand_first. cbn [negb]. rewrite Htgt.
  fold target.
  destruct (malloc_ok e ((sizeof_double * N) mod 2 ^ 64)) eqn:Hm.
  - destruct (@grover_loop_defined double _ (fun it => omp_sched e it)
                (Z.to_nat target) parallel threads (Z.to_nat iterations)
                0%nat (init_state (Z.to_nat N))) as (a & Ha & Hlen).
    { unfold init_state. rewrite repeat_length. lia. }
    unfold run_grover_once. rewrite Hm. cbn [negb].
    unfold sizeof_double. rewrite Z.mod_small by lia.
    rewrite Z.ltb_irrefl. cbn [omp_regions clock_reads]. rewrite Ha.
    eexists _, _, (Some a).
    split; [reflexivity | ]. split; [reflexivity | ].
    split; [reflexivity | ].
    split; [ | discriminate].
    intros _. repeat split; try reflexivity.
    exists a. split; [reflexivity | ].
    rewrite Hlen. unfold init_state. apply repeat_length.
  - rewrite run_grover_once_no_memory by exact Hm.
    eexists _, _, None.
    split; [reflexivity | ]. split; [reflexivity | ].
    split; [reflexivity | ].
    split; [discriminate | ].
    intros _. repeat split; reflexivity.
Qed.

(** X11: a single run of a valid size.  For every power of two N below
    2^61, [serial <N>] and [parallel <N> <T>] return 0 after printing
    exactly one record, with the iteration count of N and, for [serial],
    the thread count 1; [run_grover_once] is called once, with the target
    [rand() % N], which lies in [0, N).  When the vector is obtained the
    run ends with a vector of N doubles, the one the round loop computes
    from the uniform state, and nothing is written to standard error;
    when it is not, the record carries the time -1.0. *)
Theorem single_run_prints_one_record (e : env) (prog sN sT : string) :
  is_power_of_two (to_size_t (atoll sN)) = true ->
  to_size_t (atoll sN) < 2 ^ 61 ->
  let N := to_size_t (atoll sN) in
  let target := (libc_rand e 1 0 mod 2 ^ 31) mod N in
  let iterations := reference_iterations N in
  0 <= target < N /\
  (forall (mode : string) (parallel : bool) (threads : Z) (argv : list string),
     (mode = "serial" /\ parallel = false /\ threads = 1 /\
      argv = [prog; "serial"; sN]) \/
     (mode = "parallel" /\ parallel = true /\ threads = atoi sT /\
      argv = [prog; "parallel"; sN; sT]) ->
     exists (t : double) (w : world) (v : option (list double)),
       main e argv = Ok 0 w /\
       out w = [Rec mode N iterations threads t] /\
       runs w = [{| run_N := N; run_target := target;
                    run_iterations := iterations; run_parallel := parallel;
                    run_threads := threads; run_vector := v |}] /\
       (malloc_ok e ((sizeof_double * N) mod 2 ^ 64) = true ->
        err w = [] /\
        t = Double.sub (clock e 1%nat) (clock e 0%nat) /\
        v = grover_loop (fun it => omp_sched e it) (Z.to_nat target) parallel
              threads (Z.to_nat iterations) 0 (init_state (Z.to_nat N)) /\
        exists a : list double, v = Some a /\ length a = Z.to_nat N) /\
       (malloc_ok e ((sizeof_double * N) mod 2 ^ 64) = false ->
        err w = ["allocation failed"] /\ t = Double.opp Double.one /\
        v = None)).
Proof.
  intros Hp HN N target iterations.
  assert (Hr : 0 <= N < 2 ^ 61).
  { split; [ | exact HN]. unfold N, to_size_t. apply Z.mod_pos_bound. lia. }
  split.
  - exact (proj1 (@single_run_outcome e "serial" N false 1 Hp Hr)).
  - intros mode parallel threads argv
      [(-> & -> & -> & ->) | (-> & -> & -> & ->)].
    + rewrite main_serial_args.
      exact (proj2 (@single_run_outcome e "serial" N false 1 Hp Hr)).
    + rewrite main_parallel_args.
      exact (proj2 (@single_run_outcome e "parallel" N true (atoi sT) Hp Hr)).
Qed.

Lemma single_run_prints_one_record_witness :
  is_power_of_two (to_size_t (atoll "8")) = true /\
  to_size_t (atoll "8") < 2 ^ 61 /\
  0 <= (libc_rand env0 1 0 mod 2 ^ 31) mod to_size_t (atoll "8")
    < to_size_t (atoll "8").
Proof.
  assert (H1 : is_power_of_two (to_size_t (atoll "8")) = true)
    by (vm_compute; reflexivity).
  assert (H2 : to_size_t (atoll "8") < 2 ^ 61) by (vm_compute; reflexivity).
  split; [exact H1 | split; [exact H2 | ]].
  exact (proj1 (@single_run_prints_one_record env0 "grover" "8" "2" H1 H2)).
Defined.

(** ** The size of the allocation *)

(** X12: for the powers of two from 2^61 on, which pass the validation,
    [sizeof(double) * N] wraps around to 0: [run_grover_once] asks [malloc]
    for 0 bytes.  If that fails the run returns -1.0; if it succeeds,
    [init_state] writes N doubles into a block of 0 bytes, and so does
    [./grover serial 2305843009213693952]. *)
Theorem allocation_size_wraps (e : env) (w : world) (N target iterations : Z)
    (parallel : bool) (threads : Z) :
  is_power_of_two N = true -> 2 ^ 61 <= N < 2 ^ 64 ->
  (sizeof_double * N) mod 2 ^ 64 = 0 /\
  (malloc_ok e 0 = true ->
   run_grover_once e w N target iterations parallel threads = Undefined) /\
  (malloc_ok e 0 = false ->
   exists w' : world,
     run_grover_once e w N target iterations parallel threads
     = Ok (Double.opp Double.one) w') /\
  (malloc_ok e 0 = true -> N < 2 ^ 63 ->
   forall prog s : string,
     to_size_t (atoll s) = N -> main e [prog; "serial"; s] = Undefined).
Proof.
  intros Hp HN.
  destruct (@is_power_of_two_inv N ltac:(lia) Hp) as [Hpos Hpow].
  assert (Hlo : 61 <= Z.log2 N).
  { change 61 with (Z.log2 (2 ^ 61)). apply Z.log2_le_mono. lia. }
  assert (Hhi : Z.log2 N < 64) by (apply Z.log2_lt_pow2; lia).
  assert (Hb : (sizeof_double * N) mod 2 ^ 64 = 0).
  { assert (Hk : Z.log2 N = 61 \/ Z.log2 N = 62 \/ Z.log2 N = 63) by lia.
    rewrite Hpow. destruct Hk as [-> | [-> | ->]]; reflexivity. }
  assert (Hundef : malloc_ok e 0 = true ->
                   run_grover_once e w N target iterations parallel threads
                   = Undefined).
  { intros Hm. unfold run_grover_once. rewrite Hb, Hm. cbn [negb].
    destruct (Z.ltb_spec 0 (sizeof_double * N)) as [_ | Hge];
      [reflexivity | unfold sizeof_double in Hge; lia]. }
  split; [exact Hb | ]. split; [exact Hundef | ]. split.
  - intros Hm. eexists. apply run_grover_once_no_memory. now rewrite Hb.
  - intros Hm H63 prog s Hs. rewrite main_serial_args, Hs.
    unfold single_run. rewrite Hp. cbn [negb].
    rewrite (iterations_reference Hp) by lia.
    rewrite rand_first.
    unfold run_grover_once. rewrite Hb, Hm. cbn [negb].
    destruct (Z.ltb_spec 0 (sizeof_double * N)) as [_ | Hge];
      [reflexivity | unfold sizeof_double in Hge; lia].
Qed.

Lemma allocation_size_wraps_witness :
  is_power_of_two 2305843009213693952 = true /\
  2 ^ 61 <= 2305843009213693952 < 2 ^ 64 /\
  malloc_ok env0 0 = true /\ 2305843009213693952 < 2 ^ 63 /\
  to_size_t (atoll "2305843009213693952") = 2305843009213693952 /\
  main env0 ["grover"; "serial"; "2305843009213693952"] = Undefined.
Proof.
  assert (H1 : is_power_of_two 2305843009213693952 = true)
    by (vm_compute; reflexivity).
  assert (H2 : 2 ^ 61 <= 2305843009213693952 < 2 ^ 64) by lia.
  assert (H3 : malloc_ok env0 0 = true) by reflexivity.
  assert (H4 : 2305843009213693952 < 2 ^ 63) by lia.
  assert (H5 : to_size_t (atoll "2305843009213693952") = 2305843009213693952)
    by (vm_compute; reflexivity).
  split; [exact H1 | split; [exact H2 | split; [exact H3 | ]]].
  split; [exact H4 | split; [exact H5 | ]].
  exact (proj2 (proj2 (proj2
           (@allocation_size_wraps env0 world0 2305843009213693952 0 0 false 1
              H1 H2))) H3 H4 "grover" "2305843009213693952" H5).
Defined.

(** ** The stand-alone programs *)

Lemma cpp_run_outcome (e : env) (n iterations : Z) (parallel : bool)
    (threads : Z) :
  0 < n < 2 ^ 31 ->
  malloc_ok e (sizeof_double * n) = true ->
  cpp_iterations n = Some iterations ->
  exists (a : list double) (w : world),
    cpp_run e n parallel threads
      (fun markedIndex it v =>
         if parallel
         then grover_iteration_omp (omp_sched e it) (omp_team threads) v
                markedIndex
         else grover_iteration v markedIndex)
    = Ok 0 w /\
    out w = [Seconds (Double.sub (clock e 1%nat) (clock e 0%nat))] /\
    err w = [] /\
    runs w = [{| run_N := n; run_target := n / 3;
                 run_iterations := iterations; run_parallel := parallel;
                 run_threads := threads; run_vector := Some a |}] /\
    grover_loop (fun it => omp_sched e it) (Z.to_nat (n / 3)) parallel threads
      (Z.to_nat iterations) 0 (init_state (Z.to_nat n)) = Some a /\
    length a = Z.to_nat n.
Proof.
  intros Hn Hm Hi.
  assert (Hidx : 0 <= n / 3 < n).
  { split; [apply Z.div_pos; lia | apply Z.div_lt_upper_bound; lia]. }
  destruct (@grover_loop_defined double _ (fun it => omp_sched e it)
              (Z.to_nat (n / 3)) parallel threads (Z.to_nat iterations)
              0%nat (init_state (Z.to_nat n))) as (a & Ha & Hlen).
  { unfold init_state. rewrite repeat_length. lia. }
  assert (Hl : length (init_state (F := double) (Z.to_nat n)) = Z.to_nat n)
    by (unfold init_state; apply repeat_length).
  assert (Hlt : Z.of_nat (length (init_state (F := double) (Z.to_nat n)))
                < 2 ^ 31) by (rewrite Hl; lia).
  destruct (@cpp_loop_round (fun it => omp_sched e it) (n / 3) threads
              (Z.to_nat iterations) (proj1 Hidx) 0%nat
              (init_state (Z.to_nat n)) Hlt) as [Hs Hp].
  exists a. unfold cpp_run.
  replace (to_size_t n) with n by (unfold to_size_t; rewrite Z.mod_small; lia).
  destruct (Z.ltb_spec vector_max_size n) as [Hbig | _];
    [unfold vector_max_size in Hbig; lia | ].
  rewrite Hm, Hi. cbn [negb].
  rewrite (@to_int32_small (n / 3)) by lia.
  replace (repeat (fdiv fone (fsqrt (of_size n))) (Z.to_nat n))
    with (init_state (F := double) (Z.to_nat n))
    by (unfold init_state; now rewrite Z2Nat.id by lia).
  destruct parallel.
  - rewrite Hp, Ha. eexists. repeat split. rewrite Hlen. exact Hl.
  - rewrite Hs, Ha. eexists. repeat split. rewrite Hlen. exact Hl.
Qed.

(** ** The order of arrival in double precision *)

Lemma add_comm (x y : double) : Double.add x y = Double.add y x.
Proof.
  unfold Double.add, SFadd.
  destruct x as [sx | sx | | sx mx ex], y as [sy | sy | | sy my ey];
    try reflexivity.
  - now destruct sx, sy.
  - now destruct sx, sy.
  - rewrite (Z.min_comm ey ex). now rewrite Z.add_comm.
Qed.

Lemma arrival_order_two (order : list nat) :
  arrival_order 2 order -> order = [0; 1]%nat \/ order = [1; 0]%nat.
Proof.
  intros H. apply perms_complete in H.
  change (omp_team 2) with 2%nat in H. cbn in H.
  destruct H as [H | [H | []]]; subst; [left | right]; reflexivity.
Qed.

Lemma Forall_block {T : Type} (P : T -> Prop) (l : list T) (n : nat) :
  Forall P l -> Forall P (firstn n l) /\ Forall P (skipn n l).
Proof.
  intros H. rewrite <- (firstn_skipn n l) in H. now apply Forall_app in H.
Qed.

Lemma reduction_two_threads (a : list double) (order : list nat) :
  Forall Double.is_double a -> arrival_order 2 order ->
  omp_reduction order (static_chunks 2 a)
  = omp_reduction [0; 1]%nat (static_chunks 2 a).
Proof.
  intros Ha Ho.
  destruct (arrival_order_two Ho) as [-> | ->]; [reflexivity | ].
  unfold static_chunks, static_sizes. change (seq 0 2) with [0; 1]%nat.
  cbn [map split_sizes].
  set (c0 := firstn _ a). set (c1 := firstn _ (skipn _ a)).
  assert (H0 : Forall Double.is_double c0) by (apply Forall_block, Ha).
  assert (H1 : Forall Double.is_double c1)
    by (apply Forall_block, Forall_block, Ha).
  unfold omp_reduction. cbn [map nth fold_left].
  change (@fadd double _) with Double.add.
  change (@fzero double _) with Double.zero.
  rewrite !DoubleFacts.zero_add_accumulate by assumption.
  apply add_comm.
Qed.

(** X14: in double precision a team of two threads gives the same
    diffusion whatever the order in which the two threads reach the end
    of the reduction (addition of doubles is commutative, and the private
    sums are never -0.0); with three threads the result depends on that
    order, because the addition of doubles is not associative. *)
Theorem two_threads_order_independent :
  (forall (a : list double) (o1 o2 : list nat),
     Forall Double.is_double a ->
     arrival_order 2 o1 -> arrival_order 2 o2 ->
     diffusion_parallel o1 a 2 = diffusion_parallel o2 a 2) /\
  (exists (a : list double) (o1 o2 : list nat),
     Forall Double.is_double a /\
     arrival_order 3 o1 /\ arrival_order 3 o2 /\
     diffusion_parallel o1 a 3 <> diffusion_parallel o2 a 3).
Proof.
  split.
  - intros a o1 o2 Ha H1 H2. unfold diffusion_parallel.
    change (omp_team 2) with 2%nat.
    now rewrite (reduction_two_threads Ha H1), (reduction_two_threads Ha H2).
  - exists [Double.one; Double.of_Z (2 ^ 53); Double.of_Z (- 2 ^ 53)],
           [0; 1; 2]%nat, [1; 2; 0]%nat.
    split; [ | split; [ | split]].
    + repeat constructor.
    + apply Permutation_refl.
    + unfold arrival_order. change (seq 0 (omp_team 3)) with [0; 1; 2]%nat.
      apply Permutation_sym.
      apply (Permutation_cons_app [1; 2]%nat [] 0%nat).
      apply Permutation_refl.
    + intros H. vm_compute in H. discriminate.
Qed.

Lemma two_threads_order_independent_witness :
  Forall Double.is_double uniform4 /\
  arrival_order 2 [0; 1]%nat /\ arrival_order 2 [1; 0]%nat /\
  diffusion_parallel [0; 1]%nat uniform4 2
  = diffusion_parallel [1; 0]%nat uniform4 2.
Proof.
  assert (H1 : Forall Double.is_double uniform4) by (repeat constructor).
  assert (H2 : arrival_order 2 [0; 1]%nat) by apply Permutation_refl.
  assert (H3 : arrival_order 2 [1; 0]%nat) by apply perm_swap.
  split; [exact H1 | split; [exact H2 | split; [exact H3 | ]]].
  exact (proj1 two_threads_order_independent uniform4 [0; 1]%nat [1; 0]%nat
           H1 H2 H3).
Defined.

(** ** The validation of the size *)

Lemma land_pred_pow2 (k : Z) : 0 <= k -> Z.land (2 ^ k) (2 ^ k - 1) = 0.
Proof.
  intros Hk. rewrite Z.sub_1_r, <- Z.ones_equiv.
  rewrite Z.land_ones by exact Hk. apply Z.mod_same. lia.
Qed.

(** X15: [is_power_of_two] is exact on [unsigned long]: it returns true
    on 2^0, 2^1, ..., 2^63 and on no other value; in particular it
    rejects 0. *)
Theorem is_power_of_two_exact (x : Z) :
  0 <= x < 2 ^ 64 ->
  (is_power_of_two x = true <-> exists k : Z, 0 <= k < 64 /\ x = 2 ^ k).
Proof.
  intros Hx. split.
  - intros H. destruct (is_power_of_two_inv Hx H) as [Hpos Hpow].
    exists (Z.log2 x). split; [ | exact Hpow]. split.
    + apply Z.log2_nonneg.
    + apply Z.log2_lt_pow2; lia.
  - intros (k & Hk & ->). unfold is_power_of_two.
    assert (Hp : 0 < 2 ^ k) by (apply Z.pow_pos_nonneg; lia).
    rewrite Z.mod_small by lia.
    rewrite land_pred_pow2 by lia.
    destruct (Z.eqb_spec (2 ^ k) 0) as [H0 | _]; [lia | reflexivity].
Qed.

Lemma is_power_of_two_exact_witness :
  0 <= 1024 < 2 ^ 64 /\
  (is_power_of_two 1024 = true <-> exists k : Z, 0 <= k < 64 /\ 1024 = 2 ^ k).
Proof.
  assert (H : 0 <= 1024 < 2 ^ 64) by lia.
  split; [exact H | ].
  exact (@is_power_of_two_exact 1024 H).
Defined.

(** * Rounding errors in binary64

    What the operations of [SpecFloat] return, as real numbers: the
    rounding of [binary_round_aux] moves a value by at most one unit of
    the last place; from there the sums, the mean and the reflection of a
    diffusion are followed entry by entry. *)

Module RoundFacts.

Import Double.
Import DoubleFacts.

Lemma fexp_eq (x : Z) : fexp prec emax x = Z.max (x - 53) (-1074).
Proof. reflexivity. Qed.

Lemma digits2_size (p : positive) : digits2_pos p = Pos.size p.
Proof. induction p as [p IH | p IH | ]; cbn; now rewrite ?IH. Qed.

Lemma Zdigits2_log2 (m : Z) : 0 < m -> Zdigits2 m = Z.log2 m + 1.
Proof.
  destruct m as [ | p | p]; try lia. intros _. cbn [Zdigits2].
  rewrite digits2_size. destruct p; cbn; lia.
Qed.

Lemma Zdigits2_bounds (m : Z) :
  0 < m -> 2 ^ (Zdigits2 m - 1) <= m < 2 ^ Zdigits2 m.
Proof.
  intros H. rewrite Zdigits2_log2 by exact H.
  replace (Z.log2 m + 1 - 1) with (Z.log2 m) by lia.
  replace (Z.log2 m + 1) with (Z.succ (Z.log2 m)) by lia.
  now apply Z.log2_spec.
Qed.

Lemma Zdigits2_unique (m d : Z) :
  2 ^ (d - 1) <= m < 2 ^ d -> 1 <= d -> Zdigits2 m = d.
Proof.
  intros H Hd.
  assert (Hm : 0 < m).
  { assert (0 < 2 ^ (d - 1)) by (apply Z.pow_pos_nonneg; lia). lia. }
  rewrite Zdigits2_log2 by exact Hm.
  rewrite (Z.log2_unique m (d - 1)); [lia | lia | ].
  now replace (Z.succ (d - 1)) with d by lia.
Qed.

Lemma Zdigits2_nonneg (m : Z) : 0 <= Zdigits2 m.
Proof. destruct m; cbn; lia. Qed.

Lemma Zdigits2_le (m k : Z) : 0 <= k -> 0 <= m < 2 ^ k -> Zdigits2 m <= k.
Proof.
  intros Hk [H0 H]. destruct (Z.eq_dec m 0) as [-> | Hne]; [cbn; lia | ].
  destruct (Zdigits2_bounds (m := m)) as [Hlo _]; [lia | ].
  destruct (Z_le_gt_dec (Zdigits2 m) k) as [ | Hgt]; [assumption | exfalso].
  assert (2 ^ k <= 2 ^ (Zdigits2 m - 1)) by (apply Z.pow_le_mono_r; lia).
  lia.
Qed.

Lemma Zdigits2_ge (m k : Z) : 2 ^ k <= m -> 0 <= k -> k + 1 <= Zdigits2 m.
Proof.
  intros H Hk.
  assert (Hm : 0 < m).
  { assert (0 < 2 ^ k) by (apply Z.pow_pos_nonneg; lia). lia. }
  destruct (Zdigits2_bounds Hm) as [_ Hhi].
  destruct (Z_le_gt_dec (k + 1) (Zdigits2 m)) as [ | Hgt]; [assumption | exfalso].
  assert (2 ^ Zdigits2 m <= 2 ^ k)
    by (apply Z.pow_le_mono_r; pose proof (Zdigits2_nonneg m); lia).
  lia.
Qed.

(** Shifting right. *)
Lemma shr_1_exact (m : Z) :
  0 <= m -> m mod 2 = 0 ->
  shr_1 {| shr_m := m; shr_r := false; shr_s := false |}
  = {| shr_m := m / 2; shr_r := false; shr_s := false |}.
Proof.
  intros H0 H. destruct m as [ | [p | p | ] | p]; try lia; cbn [shr_1 orb].
  - reflexivity.
  - exfalso. rewrite Pos2Z.inj_xI in H. 
    rewrite Z.add_comm, Z.mul_comm, Z.mod_add in H by lia. discriminate.
  - f_equal. rewrite Pos2Z.inj_xO, Z.mul_comm, Z.div_mul; lia.
  - discriminate.
Qed.

Lemma iter_shr_1_exact (n : nat) : forall m : Z,
  0 <= m -> m mod 2 ^ Z.of_nat n = 0 ->
  Nat.iter n shr_1 {| shr_m := m; shr_r := false; shr_s := false |}
  = {| shr_m := m / 2 ^ Z.of_nat n; shr_r := false; shr_s := false |}.
Proof.
  induction n as [ | n IH]; intros m H0 H.
  - cbn. now rewrite Z.div_1_r.
  - rewrite Nat.iter_succ_r.
    rewrite Nat2Z.inj_succ, Z.pow_succ_r in * by lia.
    assert (Hp : 0 < 2 ^ Z.of_nat n) by (apply Z.pow_pos_nonneg; lia).
    apply Z.mod_divide in H; [ | lia]. destruct H as [c Hc].
    assert (Hm2 : m mod 2 = 0).
    { apply Z.mod_divide; [lia | ]. exists (c * 2 ^ Z.of_nat n).
      rewrite Hc; ring. }
    rewrite shr_1_exact by assumption.
    assert (Hh : m / 2 = c * 2 ^ Z.of_nat n).
    { symmetry. apply Z.div_unique_exact; [lia | rewrite Hc; ring]. }
    rewrite IH.
    + f_equal. rewrite <- Z.div_div by lia. reflexivity.
    + apply Z.div_pos; lia.
    + rewrite Hh. apply Z.mod_mul. lia.
Qed.

Lemma shr_spec (mrs : shr_record) (e n : Z) :
  0 <= shr_m mrs -> 0 <= n ->
  shr_m (fst (shr mrs e n)) = shr_m mrs / 2 ^ n /\
  snd (shr mrs e n) = e + n /\
  (shr_r mrs = false -> shr_s mrs = false -> shr_m mrs mod 2 ^ n = 0 ->
   loc_of_shr_record (fst (shr mrs e n)) = loc_Exact).
Proof.
  intros Hm Hn. unfold shr. destruct n as [ | p | p]; try lia; cbn [fst snd].
  - rewrite Z.div_1_r. split; [reflexivity | ]. split; [lia | ].
    intros Hr Hs _. destruct mrs as [m r s]. cbn in Hr, Hs. now subst.
  - rewrite iter_pos_nat. split; [ | split; [reflexivity | ]].
    + rewrite iter_shr_1_divides by exact Hm. now rewrite positive_nat_Z.
    + intros Hr Hs Hmod. destruct mrs as [m r s]. cbn in Hr, Hs, Hm, Hmod.
      subst. rewrite iter_shr_1_exact; [reflexivity | exact Hm | ].
      now rewrite positive_nat_Z.
Qed.

Lemma round_nearest_even_bounds (q : Z) (l : location) :
  q <= round_nearest_even q l <= q + 1.
Proof.
  unfold round_nearest_even. destruct l as [ | [ | | ]]; try lia.
  destruct (Z.even q); lia.
Qed.

Lemma quotient_shape (m e : Z) :
  0 <= m -> e <= fexp prec emax (Zdigits2 m + e) ->
  -1074 <= fexp prec emax (Zdigits2 m + e) /\
  0 <= m / 2 ^ (fexp prec emax (Zdigits2 m + e) - e) < 2 ^ 53 /\
  (-1074 < fexp prec emax (Zdigits2 m + e) ->
   2 ^ 52 <= m / 2 ^ (fexp prec emax (Zdigits2 m + e) - e)).
Proof.
  intros Hm He. rewrite fexp_eq in *.
  set (e1 := Z.max (Zdigits2 m + e - 53) (-1074)) in *.
  assert (Hp : 0 < 2 ^ (e1 - e)) by (apply Z.pow_pos_nonneg; lia).
  split; [lia | ].
  destruct (Z.eq_dec m 0) as [-> | Hne].
  - rewrite Z.div_0_l by lia. cbn [Zdigits2] in *. split; lia.
  - destruct (@Zdigits2_bounds m) as [Hlo Hhi]; [lia | ].
    assert (Hd : 1 <= Zdigits2 m) by (rewrite Zdigits2_log2; [pose proof (Z.log2_nonneg m) | ]; lia).
    set (d := Zdigits2 m) in *.
    split; [split | ].
    + apply Z.div_pos; lia.
    + apply Z.div_lt_upper_bound; [lia | ].
      rewrite <- Z.pow_add_r by lia.
      apply Z.lt_le_trans with (2 ^ d); [lia | ].
      apply Z.pow_le_mono_r; lia.
    + intros Hgt. apply Z.div_le_lower_bound; [lia | ].
      rewrite <- Z.pow_add_r by lia.
      replace (e1 - e + 52) with (d - 1) by lia. lia.
Qed.

(** The two shifts and the rounding of [binary_round_aux], on a mantissa
    that has at least as many digits as the format keeps. *)
Lemma binary_round_aux_spec (s : bool) (m e : Z) (l : location) :
  0 <= m -> e <= fexp prec emax (Zdigits2 m + e) ->
  exists m1 : Z,
    m / 2 ^ (fexp prec emax (Zdigits2 m + e) - e) <= m1
      <= m / 2 ^ (fexp prec emax (Zdigits2 m + e) - e) + 1 /\
    (l = loc_Exact -> m mod 2 ^ (fexp prec emax (Zdigits2 m + e) - e) = 0 ->
     m1 = m / 2 ^ (fexp prec emax (Zdigits2 m + e) - e)) /\
    round_result s m1 (fexp prec emax (Zdigits2 m + e))
      (binary_round_aux prec emax s m e l).
Proof.
  intros Hm He.
  destruct (quotient_shape Hm He) as (He1 & Hq & Hnorm).
  unfold binary_round_aux, shr_fexp.
  set (e1 := fexp prec emax (Zdigits2 m + e)) in *.
  set (q := m / 2 ^ (e1 - e)) in *.
  assert (Hrec : shr_m (shr_record_of_loc m l) = m)
    by (destruct l as [ | [ | | ]]; reflexivity).
  destruct (@shr_spec (shr_record_of_loc m l) e (e1 - e)) as (S1 & S2 & S3);
    [rewrite Hrec; lia | lia | ].
  destruct (shr (shr_record_of_loc m l) e (e1 - e)) as [mrs' e'].
  cbn [fst snd] in S1, S2, S3. rewrite Hrec in S1, S3. fold q in S1.
  assert (Ee : e' = e1) by lia. clear S2. subst e'.
  pose proof (round_nearest_even_bounds (shr_m mrs') (loc_of_shr_record mrs'))
    as Hm1.
  set (m1 := round_nearest_even (shr_m mrs') (loc_of_shr_record mrs')) in *.
  rewrite S1 in Hm1.
  exists m1. split; [exact Hm1 | ]. split.
  - intros -> Hmod. unfold m1. rewrite S3; [exact S1 | reflexivity .. | exact Hmod].
  - set (n2 := fexp prec emax (Zdigits2 m1 + e1) - e1).
    assert (Hn2 : (m1 < 2 ^ 53 /\ n2 = 0) \/ (m1 = 2 ^ 53 /\ n2 = 1)).
    { unfold n2. rewrite fexp_eq.
      destruct (Z.eq_dec m1 (2 ^ 53)) as [E | Hne]; [right | left].
      - split; [exact E | ].
        rewrite (@Zdigits2_unique m1 54) by (try rewrite E; lia). lia.
      - split; [lia | ].
        destruct (Z.eq_dec m1 0) as [E0 | Hpos].
        + rewrite E0. cbn [Zdigits2]. lia.
        + destruct (Z_le_gt_dec e1 (-1074)) as [Hsub | Hnor].
          * pose proof (@Zdigits2_le m1 53 ltac:(lia) ltac:(lia)).
            pose proof (Zdigits2_nonneg m1). lia.
          * rewrite (@Zdigits2_unique m1 53) by lia. lia. }
    destruct (@shr_spec (shr_record_of_loc m1 loc_Exact) e1 n2)
      as (T1 & T2 & _); [cbn; lia | lia | ].
    destruct (shr (shr_record_of_loc m1 loc_Exact) e1 n2) as [mrs'' e''].
    cbn [fst snd shr_record_of_loc shr_m] in T1, T2.
    assert (Hcan : fexp prec emax (Zdigits2 m1 + e1) = e1 + n2)
      by (unfold n2; lia).
    clearbody n2 m1. subst e''.
    destruct Hn2 as [[Hlt ->] | [Heq ->]].
    + rewrite Z.pow_0_r, Z.div_1_r in T1. rewrite T1. rewrite Z.add_0_r in *.
      destruct m1 as [ | p | p]; try lia.
      * cbn. split; reflexivity.
      * destruct (Z.leb_spec e1 (emax - prec)) as [Hle | Hgt];
          cbn [round_result].
        -- split; [reflexivity | ]. split; [ | split; [lia | ]].
           ++ unfold bounded, canonical_mantissa. cbn [Zdigits2] in Hcan.
              rewrite Hcan, Z.eqb_refl. cbn [andb]. now apply Z.leb_le.
           ++ rewrite Z.sub_diag. lia.
        -- split; [reflexivity | ].
           unfold emax, prec in Hgt.
           apply Z.le_trans with (2 ^ 52 * 2 ^ (e1 + 1074)).
           ++ rewrite <- Z.pow_add_r by lia. apply Z.pow_le_mono_r; lia.
           ++ apply Z.mul_le_mono_nonneg_r; [apply Z.pow_nonneg; lia | lia].
    + subst m1. change (2 ^ 53 / 2 ^ 1) with 4503599627370496 in T1.
      rewrite T1.
      destruct (Z.leb_spec (e1 + 1) (emax - prec)) as [Hle | Hgt];
        cbn [round_result].
      * split; [reflexivity | ]. split; [ | split; [lia | ]].
        -- unfold bounded, canonical_mantissa.
           change (Z.pos (digits2_pos 4503599627370496)) with 53.
           rewrite fexp_eq in *.
           replace (Z.max (53 + (e1 + 1) - 53) (-1074)) with (e1 + 1) by lia.
           rewrite Z.eqb_refl. cbn [andb]. now apply Z.leb_le.
        -- replace (e1 + 1 - e1) with 1 by lia. reflexivity.
      * split; [reflexivity | ].
        unfold emax, prec in Hgt.
        rewrite <- Z.pow_add_r by lia. apply Z.pow_le_mono_r; lia.
Qed.

(** *** Powers of two *)

Lemma pow2_pos (e : Z) : (0 < pow2 e)%R.
Proof. apply powerRZ_lt. lra. Qed.

Lemma pow2_add (a b : Z) : pow2 (a + b) = (pow2 a * pow2 b)%R.
Proof. apply powerRZ_add. lra. Qed.

Lemma pow2_IZR (n : Z) : 0 <= n -> pow2 n = IZR (2 ^ n).
Proof.
  intros H. unfold pow2. destruct n as [ | p | p]; try lia.
  - reflexivity.
  - change (2 ^ Z.pos p) with (Z.pow_pos 2 p). now rewrite Zpower_pos_powerRZ.
Qed.

Lemma pow2_le (a b : Z) : a <= b -> (pow2 a <= pow2 b)%R.
Proof.
  intros H. replace b with (a + (b - a)) by lia. rewrite pow2_add.
  rewrite (@pow2_IZR (b - a)) by lia.
  assert (1 <= 2 ^ (b - a)) by (apply Z.lt_pred_le, Z.pow_pos_nonneg; lia).
  apply IZR_le in H0. pose proof (pow2_pos a). nra.
Qed.

Lemma pow2_lt (a b : Z) : a < b -> (pow2 a < pow2 b)%R.
Proof.
  intros H. replace b with (a + (b - a)) by lia. rewrite pow2_add.
  rewrite (@pow2_IZR (b - a)) by lia.
  assert (2 <= 2 ^ (b - a)).
  { change 2 with (2 ^ 1) at 1. apply Z.pow_le_mono_r; lia. }
  apply IZR_le in H0. pose proof (pow2_pos a). nra.
Qed.

Lemma pow2_lt_inv (a b : Z) : (pow2 a < pow2 b)%R -> a < b.
Proof.
  intros H. destruct (Z_lt_le_dec a b) as [ | Hle]; [assumption | exfalso].
  apply pow2_le in Hle. lra.
Qed.

Lemma pow2_succ (e : Z) : pow2 (e + 1) = (2 * pow2 e)%R.
Proof. rewrite pow2_add. change (pow2 1) with (2 * 1)%R. lra. Qed.

Lemma pow2_0 : pow2 0 = 1%R.
Proof. reflexivity. Qed.

Lemma signR_abs (s : bool) (x y : R) :
  Rabs (signR s x - signR s y) = Rabs (x - y).
Proof.
  destruct s; cbn [signR]; [ | reflexivity].
  replace (- x - - y)%R with (- (x - y))%R by lra. apply Rabs_Ropp.
Qed.

(** *** The value that [binary_round_aux] returns *)

Lemma round_result_R (s : bool) (m1 e1 : Z) (r : double) :
  round_result s m1 e1 r -> -1074 <= e1 ->
  (IZR m1 * pow2 e1 < pow2 1024)%R ->
  number r /\ B2R r = signR s (IZR m1 * pow2 e1).
Proof.
  intros H He Hb. destruct r as [s' | s' | | s' m' e']; cbn [round_result] in H.
  - destruct H as [-> ->]. split; [split; reflexivity | ].
    cbn [B2R]. destruct s; cbn [signR]; lra.
  - exfalso. destruct H as [_ H]. apply IZR_le in H.
    rewrite mult_IZR, <- !pow2_IZR in H by lia.
    replace 2098 with (1024 + 1074) in H by lia.
    rewrite !pow2_add in H. pose proof (pow2_pos 1074). nra.
  - contradiction.
  - destruct H as (-> & Hbd & He' & Hm). split; [split; [reflexivity | exact Hbd] | ].
    cbn [B2R]. f_equal. rewrite <- Hm, mult_IZR, <- pow2_IZR by lia.
    replace e' with (e' - e1 + e1) at 1 by lia. rewrite pow2_add. lra.
Qed.

Lemma quotient_R (m n : Z) :
  0 <= m -> 0 <= n ->
  (IZR (m / 2 ^ n) * pow2 n <= IZR m)%R /\
  (IZR (m + 1) <= IZR (m / 2 ^ n + 1) * pow2 n)%R /\
  (m mod 2 ^ n = 0 -> (IZR (m / 2 ^ n) * pow2 n)%R = IZR m).
Proof.
  intros Hm Hn. rewrite pow2_IZR by exact Hn. rewrite <- !mult_IZR.
  assert (Hp : 0 < 2 ^ n) by (apply Z.pow_pos_nonneg; lia).
  pose proof (Z.div_mod m (2 ^ n) ltac:(lia)) as Hdm.
  pose proof (Z.mod_pos_bound m (2 ^ n) Hp) as Hr.
  split; [apply IZR_le; lia | ]. split; [apply IZR_le; lia | ].
  intros H0. f_equal. lia.
Qed.

(** Rounding moves a value by at most one unit of the last place, and
    does not overflow below 2^1023. *)
Lemma binary_round_aux_R (s : bool) (m e : Z) (l : location) (v : R) (k : Z) :
  0 <= m -> e <= fexp prec emax (Zdigits2 m + e) ->
  (IZR m * pow2 e <= v <= IZR (m + 1) * pow2 e)%R ->
  (v < pow2 k)%R -> -1021 <= k <= 1023 ->
  number (binary_round_aux prec emax s m e l) /\
  (Rabs (B2R (binary_round_aux prec emax s m e l) - signR s v)
   <= pow2 (k - 53))%R /\
  (l = loc_Exact -> m mod 2 ^ (fexp prec emax (Zdigits2 m + e) - e) = 0 ->
   B2R (binary_round_aux prec emax s m e l) = signR s (IZR m * pow2 e)).
Proof.
  intros Hm He Hv Hk Hkr.
  destruct (binary_round_aux_spec s l Hm He) as (m1 & Hm1 & Hex & Hres).
  destruct (quotient_shape Hm He) as (He1 & Hq & _).
  set (e1 := fexp prec emax (Zdigits2 m + e)) in *.
  set (q := m / 2 ^ (e1 - e)) in *.
  destruct (@quotient_R m (e1 - e) Hm ltac:(lia)) as (Q1 & Q2 & Q3).
  fold q in Q1, Q2, Q3.
  assert (Hpe : pow2 e1 = (pow2 (e1 - e) * pow2 e)%R)
    by (rewrite <- pow2_add; f_equal; lia).
  pose proof (pow2_pos e) as Pe. pose proof (pow2_pos e1) as Pe1.
  pose proof (pow2_pos (e1 - e)) as Pn.
  assert (Hlow : (IZR q * pow2 e1 <= v)%R).
  { rewrite Hpe. apply Rle_trans with (IZR m * pow2 e)%R; [ | lra].
    rewrite <- Rmult_assoc. apply Rmult_le_compat_r; lra. }
  assert (Hhigh : (v <= IZR (q + 1) * pow2 e1)%R).
  { rewrite Hpe. apply Rle_trans with (IZR (m + 1) * pow2 e)%R; [lra | ].
    rewrite <- Rmult_assoc. apply Rmult_le_compat_r; lra. }
  assert (Hm1R : (IZR q <= IZR m1 <= IZR (q + 1))%R)
    by (split; apply IZR_le; lia).
  rewrite plus_IZR in *.
  assert (He1k : e1 <= k - 53).
  { unfold e1 in *. rewrite fexp_eq in *.
    destruct (Z.eq_dec m 0) as [-> | Hne]; [cbn [Zdigits2] in *; lia | ].
    destruct (@Zdigits2_bounds m ltac:(lia)) as [Hlo _].
    assert (Hd : 1 <= Zdigits2 m)
      by (rewrite Zdigits2_log2; [pose proof (Z.log2_nonneg m) | ]; lia).
    apply IZR_le in Hlo. rewrite <- pow2_IZR in Hlo by lia.
    assert (pow2 (Zdigits2 m - 1 + e) < pow2 k)%R.
    { rewrite pow2_add. nra. }
    apply pow2_lt_inv in H. lia. }
  pose proof (pow2_le He1k) as Hule.
  assert (Hbig : (IZR m1 * pow2 e1 < pow2 1024)%R).
  { apply Rle_lt_trans with (v + pow2 e1)%R; [nra | ].
    apply Rlt_le_trans with (pow2 (k + 1)).
    - rewrite pow2_succ. pose proof (@pow2_lt (k - 53) k ltac:(lia)). lra.
    - apply pow2_le. lia. }
  destruct (@round_result_R s m1 e1 _ Hres He1 Hbig) as [Hnum HB].
  split; [exact Hnum | ]. split.
  - rewrite HB, signR_abs. apply Rabs_le. nra.
  - intros Hl Hmod. rewrite HB, (Hex Hl Hmod). f_equal.
    rewrite Hpe, <- Rmult_assoc, (Q3 Hmod). reflexivity.
Qed.

(** *** Conversions and sums *)

Lemma iter_xO (d m : positive) :
  Z.pos (Pos.iter xO m d) = Z.pos m * 2 ^ Z.pos d.
Proof.
  induction d as [ | d IH] using Pos.peano_ind.
  - cbn [Pos.iter]. lia.
  - rewrite Pos.iter_succ, Pos2Z.inj_xO, IH, Pos2Z.inj_succ, Z.pow_succ_r; lia.
Qed.

Lemma shl_align_spec (m : positive) (e e' : Z) :
  snd (shl_align m e e') = Z.min e e' /\
  Z.pos (fst (shl_align m e e')) = Z.pos m * 2 ^ (e - Z.min e e').
Proof.
  unfold shl_align. destruct (e' - e) as [ | p | p] eqn:E; cbn [fst snd].
  - replace (Z.min e e') with e by lia. rewrite Z.sub_diag. lia.
  - replace (Z.min e e') with e by lia. rewrite Z.sub_diag. lia.
  - replace (Z.min e e') with e' by lia. split; [reflexivity | ].
    rewrite iter_xO. f_equal. f_equal. lia.
Qed.

Lemma Zdigits2_shift (m d : Z) :
  0 < m -> 0 <= d -> Zdigits2 (m * 2 ^ d) = Zdigits2 m + d.
Proof.
  intros Hm Hd.
  assert (0 < 2 ^ d) by (apply Z.pow_pos_nonneg; lia).
  rewrite !Zdigits2_log2 by nia. rewrite Z.log2_mul_pow2 by lia. lia.
Qed.

Lemma signR_IZR (s : bool) (z : Z) (p : R) :
  (IZR (cond_Zopp s z) * p)%R = signR s (IZR z * p).
Proof. destruct s; cbn [cond_Zopp signR]; [rewrite opp_IZR | ]; lra. Qed.

Lemma signR_Rabs (s : bool) (x : R) : Rabs (signR s x) = Rabs x.
Proof. destruct s; cbn [signR]; [apply Rabs_Ropp | reflexivity]. Qed.

Lemma binary_round_R (s : bool) (m : positive) (e k : Z) :
  (IZR (Z.pos m) * pow2 e < pow2 k)%R -> -1021 <= k <= 1023 ->
  number (binary_round prec emax s m e) /\
  (Rabs (B2R (binary_round prec emax s m e) - signR s (IZR (Z.pos m) * pow2 e))
   <= pow2 (k - 53))%R /\
  (fexp prec emax (Zdigits2 (Z.pos m) + e) <= e ->
   B2R (binary_round prec emax s m e) = signR s (IZR (Z.pos m) * pow2 e)).
Proof.
  intros Hv Hk. unfold binary_round.
  change (Z.pos (digits2_pos m)) with (Zdigits2 (Z.pos m)).
  set (f := fexp prec emax (Zdigits2 (Z.pos m) + e)).
  destruct (shl_align_spec m e f) as [Hez Hmz].
  destruct (shl_align m e f) as [mz ez]. cbn [fst snd] in Hez, Hmz.
  assert (Hd : Zdigits2 (Z.pos mz) + ez = Zdigits2 (Z.pos m) + e).
  { rewrite Hmz, Zdigits2_shift by lia. lia. }
  assert (Hval : (IZR (Z.pos mz) * pow2 ez)%R = (IZR (Z.pos m) * pow2 e)%R).
  { rewrite Hmz, mult_IZR, <- pow2_IZR by lia.
    rewrite Rmult_assoc, <- pow2_add. do 2 f_equal. lia. }
  assert (Hal : ez <= fexp prec emax (Zdigits2 (Z.pos mz) + ez))
    by (rewrite Hd; fold f; lia).
  pose proof (pow2_pos ez) as Pez.
  destruct (@binary_round_aux_R s (Z.pos mz) ez loc_Exact
              (IZR (Z.pos m) * pow2 e)%R k) as (N & E & X);
    [lia | exact Hal | | exact Hv | exact Hk | ].
  { rewrite <- Hval, plus_IZR. lra. }
  split; [exact N | ]. split; [exact E | ].
  intros Hf. rewrite X, Hval; [reflexivity .. | ].
  rewrite Hd. fold f. replace (f - ez) with 0 by lia. apply Z.mod_1_r.
Qed.

Lemma binary_normalize_R (z e k : Z) :
  (Rabs (IZR z * pow2 e) < pow2 k)%R -> -1021 <= k <= 1023 ->
  number (binary_normalize prec emax z e false) /\
  (Rabs (B2R (binary_normalize prec emax z e false) - IZR z * pow2 e)
   <= pow2 (k - 53))%R /\
  (fexp prec emax (Zdigits2 z + e) <= e ->
   B2R (binary_normalize prec emax z e false) = (IZR z * pow2 e)%R).
Proof.
  intros Hv Hk. pose proof (pow2_pos e) as Pe.
  destruct z as [ | p | p]; cbn [binary_normalize].
  - split; [split; reflexivity | ]. cbn [B2R]. split; [ | intros _; lra].
    rewrite Rmult_0_l, Rminus_0_r, Rabs_R0. apply Rlt_le, pow2_pos.
  - assert (H0 : (0 < IZR (Z.pos p))%R) by (apply IZR_lt; lia).
    rewrite Rabs_pos_eq in Hv by nra.
    exact (@binary_round_R false p e k Hv Hk).
  - assert (H0 : (0 < IZR (Z.pos p))%R) by (apply IZR_lt; lia).
    change (Z.neg p) with (- Z.pos p) in *. rewrite opp_IZR in *.
    replace (- IZR (Z.pos p) * pow2 e)%R
      with (signR true (IZR (Z.pos p) * pow2 e)) in * by (cbn [signR]; lra).
    rewrite signR_Rabs, Rabs_pos_eq in Hv by nra.
    exact (@binary_round_R true p e k Hv Hk).
Qed.

Lemma B2R_finite (s : bool) (m : positive) (e : Z) :
  B2R (S754_finite s m e) = (IZR (cond_Zopp s (Z.pos m)) * pow2 e)%R.
Proof. cbn [B2R]. now rewrite signR_IZR. Qed.

Lemma aligned_value (s : bool) (m : positive) (e ez : Z) :
  ez <= e ->
  (IZR (cond_Zopp s (Z.pos (fst (shl_align m e ez)))) * pow2 ez)%R
  = B2R (S754_finite s m e).
Proof.
  intros H. destruct (shl_align_spec m e ez) as [_ Hm].
  rewrite Hm, B2R_finite, !signR_IZR. f_equal.
  replace (Z.min e ez) with ez by lia.
  rewrite mult_IZR, <- pow2_IZR by lia.
  rewrite Rmult_assoc, <- pow2_add. do 2 f_equal. lia.
Qed.

Lemma number_finite (s : bool) (m : positive) (e : Z) :
  number (S754_finite s m e) <-> bounded prec emax m e = true.
Proof. unfold number, is_double. cbn. tauto. Qed.

Lemma error_zero (k : Z) (x : R) : (Rabs (x - x) <= pow2 k)%R.
Proof.
  rewrite Rminus_diag, Rabs_R0. apply Rlt_le, pow2_pos.
Qed.

(** Addition and subtraction: the result is within [2^(k-53)] of the
    exact one when that is below [2^k]. *)
Lemma add_R (x y : double) (k : Z) :
  number x -> number y ->
  (Rabs (B2R x + B2R y) < pow2 k)%R -> -1021 <= k <= 1023 ->
  number (add x y) /\
  (Rabs (B2R (add x y) - (B2R x + B2R y)) <= pow2 (k - 53))%R.
Proof.
  intros [Fx Vx] [Fy Vy] Hv Hk. unfold add.
  destruct x as [sx | sx | | sx mx ex]; try discriminate;
    destruct y as [sy | sy | | sy my ey]; try discriminate.
  - assert (E : exists sz, SFadd prec emax (S754_zero sx) (S754_zero sy)
                           = S754_zero sz)
      by (destruct sx, sy; eexists; reflexivity).
    destruct E as [sz ->]. split; [split; reflexivity | ].
    cbn [B2R]. rewrite Rplus_0_r. apply error_zero.
  - cbn [SFadd]. split; [split; assumption | ].
    cbn [B2R]. rewrite Rplus_0_l. apply error_zero.
  - cbn [SFadd]. split; [split; assumption | ].
    cbn [B2R]. rewrite Rplus_0_r. apply error_zero.
  - cbn [SFadd]. set (ez := Z.min ex ey) in *.
    rewrite <- (@aligned_value sx mx ex ez), <- (@aligned_value sy my ey ez)
      in * by lia.
    rewrite <- Rmult_plus_distr_r, <- plus_IZR in *.
    destruct (binary_normalize_R _ _ Hv Hk) as (N & E & _).
    split; assumption.
Qed.

Lemma sub_R (x y : double) (k : Z) :
  number x -> number y ->
  (Rabs (B2R x - B2R y) < pow2 k)%R -> -1021 <= k <= 1023 ->
  number (sub x y) /\
  (Rabs (B2R (sub x y) - (B2R x - B2R y)) <= pow2 (k - 53))%R.
Proof.
  intros [Fx Vx] [Fy Vy] Hv Hk. unfold sub.
  destruct x as [sx | sx | | sx mx ex]; try discriminate;
    destruct y as [sy | sy | | sy my ey]; try discriminate.
  - assert (E : exists sz, SFsub prec emax (S754_zero sx) (S754_zero sy)
                           = S754_zero sz)
      by (destruct sx, sy; eexists; reflexivity).
    destruct E as [sz ->]. split; [split; reflexivity | ].
    cbn [B2R]. rewrite Rminus_0_r. apply error_zero.
  - cbn [SFsub]. split; [split; assumption | ].
    replace (B2R (S754_finite (negb sy) my ey))
      with (B2R (S754_zero sx) - B2R (S754_finite sy my ey))%R;
      [apply error_zero | ].
    cbn [B2R]. destruct sy; cbn [negb signR]; lra.
  - cbn [SFsub]. split; [split; assumption | ].
    cbn [B2R]. rewrite Rminus_0_r. apply error_zero.
  - cbn [SFsub]. set (ez := Z.min ex ey) in *.
    rewrite <- (@aligned_value sx mx ex ez), <- (@aligned_value sy my ey ez)
      in * by lia.
    rewrite <- Rmult_minus_distr_r, <- minus_IZR in *.
    destruct (binary_normalize_R _ _ Hv Hk) as (N & E & _).
    split; assumption.
Qed.

(** *** Products and quotients *)

Lemma bounded_inv (m : positive) (e : Z) :
  bounded prec emax m e = true ->
  Z.max (Zdigits2 (Z.pos m) + e - 53) (-1074) = e /\ e <= 971.
Proof.
  unfold bounded, canonical_mantissa. intros H.
  apply andb_prop in H as [H1 H2].
  apply Z.eqb_eq in H1. apply Z.leb_le in H2. rewrite fexp_eq in H1.
  split; [exact H1 | exact H2].
Qed.

Lemma Zdigits2_pos (m : Z) : 0 < m -> 1 <= Zdigits2 m.
Proof.
  intros H. rewrite Zdigits2_log2 by exact H.
  pose proof (Z.log2_nonneg m). lia.
Qed.

Lemma signR_xorb (sx sy : bool) (x y : R) :
  signR (xorb sx sy) (x * y) = (signR sx x * signR sy y)%R.
Proof. destruct sx, sy; cbn [xorb signR]; lra. Qed.

Lemma signR_xorb_div (sx sy : bool) (x y : R) :
  signR (xorb sx sy) (x / y) = (signR sx x / signR sy y)%R.
Proof.
  unfold Rdiv. rewrite signR_xorb. f_equal.
  destruct sy; cbn [signR]; [ | reflexivity].
  now rewrite Rinv_opp.
Qed.

Lemma mul_R (x y : double) (k : Z) :
  number x -> number y ->
  (Rabs (B2R x * B2R y) < pow2 k)%R -> -1021 <= k <= 1023 ->
  number (mul x y) /\
  (Rabs (B2R (mul x y) - B2R x * B2R y) <= pow2 (k - 53))%R.
Proof.
  intros [Fx Vx] [Fy Vy] Hv Hk. unfold mul.
  destruct x as [sx | sx | | sx mx ex]; try discriminate;
    destruct y as [sy | sy | | sy my ey]; try discriminate;
    cbn [SFmul];
    try (split; [split; reflexivity | ]; cbn [B2R];
         rewrite ?Rmult_0_l, ?Rmult_0_r; apply error_zero).
  apply bounded_inv in Vx as [Cx _]. apply bounded_inv in Vy as [Cy _].
  pose proof (@Zdigits2_pos (Z.pos mx) ltac:(lia)) as Dx.
  pose proof (@Zdigits2_pos (Z.pos my) ltac:(lia)) as Dy.
  assert (Hd : Zdigits2 (Z.pos mx) + Zdigits2 (Z.pos my) - 1
               <= Zdigits2 (Z.pos (mx * my))).
  { rewrite Pos2Z.inj_mul, !Zdigits2_log2 by lia.
    pose proof (@Z.log2_mul_below (Z.pos mx) (Z.pos my)). lia. }
  assert (Hval : (signR (xorb sx sy)
                    (IZR (Z.pos (mx * my)) * pow2 (ex + ey)))%R
                 = (B2R (S754_finite sx mx ex) * B2R (S754_finite sy my ey))%R).
  { cbn [B2R]. rewrite <- signR_xorb. f_equal.
    rewrite Pos2Z.inj_mul, mult_IZR, pow2_add. ring. }
  rewrite <- Hval in *. rewrite signR_Rabs in Hv.
  pose proof (pow2_pos (ex + ey)) as Pe.
  assert (H0 : (0 < IZR (Z.pos (mx * my)))%R) by (apply IZR_lt; lia).
  rewrite Rabs_pos_eq in Hv by nra.
  destruct (@binary_round_aux_R (xorb sx sy) (Z.pos (mx * my)) (ex + ey)
              loc_Exact (IZR (Z.pos (mx * my)) * pow2 (ex + ey))%R k)
    as (N & E & _);
    [lia | rewrite fexp_eq; lia | rewrite plus_IZR; lra | exact Hv | exact Hk | ].
  split; assumption.
Qed.

Lemma div_core_spec (m1 m2 : positive) (e1 e2 : Z) :
  exists (q e' : Z) (l : location),
    SFdiv_core_binary prec emax (Z.pos m1) e1 (Z.pos m2) e2 = (q, e', l) /\
    0 <= q /\ e' <= fexp prec emax (Zdigits2 q + e') /\
    (IZR q * pow2 e'
     <= (IZR (Z.pos m1) * pow2 e1) / (IZR (Z.pos m2) * pow2 e2)
     <= IZR (q + 1) * pow2 e')%R.
Proof.
  unfold SFdiv_core_binary.
  set (d1 := Zdigits2 (Z.pos m1)). set (d2 := Zdigits2 (Z.pos m2)).
  set (e' := Z.min (fexp prec emax (d1 + e1 - (d2 + e2))) (e1 - e2)).
  set (s := e1 - e2 - e').
  assert (Hs : 0 <= s) by (unfold s, e'; lia).
  set (m' := match s with
             | 0 => Z.pos m1
             | Z.pos _ => Z.shiftl (Z.pos m1) s
             | Z.neg _ => 0
             end).
  assert (Hm' : m' = Z.pos m1 * 2 ^ s).
  { unfold m'. destruct s as [ | p | p]; try lia.
    now rewrite Z.shiftl_mul_pow2 by lia. }
  clearbody m'.
  assert (Es : s = e1 - e2 - e') by reflexivity.
  assert (Ee : e' = Z.min (Z.max (d1 + e1 - (d2 + e2) - 53) (-1074)) (e1 - e2))
    by reflexivity.
  clearbody s e'.
  assert (Hps : 0 < 2 ^ s) by (apply Z.pow_pos_nonneg; lia).
  pose proof (Z.div_mod m' (Z.pos m2) ltac:(lia)) as Hdm.
  pose proof (Z.mod_pos_bound m' (Z.pos m2) ltac:(lia)) as Hr.
  unfold Z.div, Z.modulo in Hdm, Hr.
  destruct (Z.div_eucl m' (Z.pos m2)) as [q r]. cbn [fst snd] in Hdm, Hr.
  exists q, e', (new_location (Z.pos m2) r).
  split; [reflexivity | ].
  assert (Hq : 0 <= q) by nia.
  split; [exact Hq | ].
  destruct (@Zdigits2_bounds (Z.pos m1) ltac:(lia)) as [L1 U1].
  destruct (@Zdigits2_bounds (Z.pos m2) ltac:(lia)) as [L2 U2].
  pose proof (@Zdigits2_pos (Z.pos m1) ltac:(lia)) as D1.
  pose proof (@Zdigits2_pos (Z.pos m2) ltac:(lia)) as D2.
  fold d1 in L1, U1, D1. fold d2 in L2, U2, D2.
  split.
  - rewrite fexp_eq.
    destruct (Z_le_gt_dec 0 (d1 - 1 + s - d2)) as [Hk | Hk].
    + assert (Hge : 2 ^ (d1 - 1 + s - d2) <= q).
      { assert (Hpk : 0 < 2 ^ (d1 - 1 + s - d2))
          by (apply Z.pow_pos_nonneg; lia).
        assert (Hmul : 2 ^ (d1 - 1 + s - d2) * 2 ^ d2 = 2 ^ (d1 - 1) * 2 ^ s).
        { rewrite <- !Z.pow_add_r by lia. f_equal. lia. }
        assert (Hlow : 2 ^ (d1 - 1) * 2 ^ s <= m') by nia.
        destruct (Z_le_gt_dec (2 ^ (d1 - 1 + s - d2)) q) as [ | Hlt];
          [assumption | exfalso].
        assert (q + 1 <= 2 ^ (d1 - 1 + s - d2)) by lia.
        assert (m' < Z.pos m2 * (q + 1)) by lia.
        assert (Z.pos m2 * (q + 1) <= Z.pos m2 * 2 ^ (d1 - 1 + s - d2))
          by (apply Z.mul_le_mono_nonneg_l; lia).
        nia. }
      pose proof (Zdigits2_ge Hge Hk). lia.
    + pose proof (Zdigits2_nonneg q). lia.
  - assert (P2 : (0 < IZR (Z.pos m2))%R) by (apply IZR_lt; lia).
    pose proof (pow2_pos e') as Pe'. pose proof (pow2_pos e2) as Pe2.
    assert (Hquo : ((IZR (Z.pos m1) * pow2 e1) / (IZR (Z.pos m2) * pow2 e2)
                    = IZR m' / IZR (Z.pos m2) * pow2 e')%R).
    { rewrite Hm', mult_IZR, <- pow2_IZR by lia.
      replace e1 with (s + e' + e2) by lia.
      rewrite !pow2_add. field. split; lra. }
    rewrite Hquo.
    assert (HmR : IZR m' = (IZR (Z.pos m2) * IZR q + IZR r)%R)
      by (rewrite <- mult_IZR, <- plus_IZR; now f_equal).
    assert (Hr0 : (0 <= IZR r)%R) by (apply IZR_le; lia).
    assert (Hr1 : (IZR r <= IZR (Z.pos m2))%R) by (apply IZR_le; lia).
    rewrite plus_IZR, HmR.
    replace ((IZR (Z.pos m2) * IZR q + IZR r) / IZR (Z.pos m2))%R
      with (IZR q + IZR r / IZR (Z.pos m2))%R by (field; lra).
    assert (0 <= IZR r / IZR (Z.pos m2) <= 1)%R.
    { split; [apply Rmult_le_pos; [lra | apply Rlt_le, Rinv_0_lt_compat; lra] | ].
      apply Rmult_le_reg_r with (IZR (Z.pos m2)); [lra | ].
      unfold Rdiv. rewrite Rmult_assoc, Rinv_l by lra. lra. }
    split; nra.
Qed.

Lemma div_R (x y : double) (k : Z) :
  number x -> number y -> B2R y <> 0%R ->
  (Rabs (B2R x / B2R y) < pow2 k)%R -> -1021 <= k <= 1023 ->
  number (div x y) /\
  (Rabs (B2R (div x y) - B2R x / B2R y) <= pow2 (k - 53))%R.
Proof.
  intros [Fx Vx] [Fy Vy] Hy Hv Hk. unfold div.
  destruct x as [sx | sx | | sx mx ex]; try discriminate;
    destruct y as [sy | sy | | sy my ey]; try discriminate;
    try (now contradiction Hy); cbn [SFdiv].
  - split; [split; reflexivity | ]. cbn [B2R].
    unfold Rdiv. rewrite Rmult_0_l. apply error_zero.
  - destruct (div_core_spec mx my ex ey) as (q & e' & l & -> & Hq & Hal & Hb).
    assert (Hval : (signR (xorb sx sy)
                      ((IZR (Z.pos mx) * pow2 ex) / (IZR (Z.pos my) * pow2 ey)))%R
                   = (B2R (S754_finite sx mx ex) / B2R (S754_finite sy my ey))%R)
      by (cbn [B2R]; apply signR_xorb_div).
    rewrite <- Hval in *. rewrite signR_Rabs in Hv.
    assert (H0 : (0 <= (IZR (Z.pos mx) * pow2 ex) / (IZR (Z.pos my) * pow2 ey))%R).
    { pose proof (pow2_pos e'). apply IZR_le in Hq. nra. }
    rewrite Rabs_pos_eq in Hv by exact H0.
    destruct (@binary_round_aux_R (xorb sx sy) q e' l _ k Hq Hal Hb Hv Hk)
      as (N & E & _).
    split; assumption.
Qed.

Lemma of_Z_R (z : Z) :
  Z.abs z < 2 ^ 53 -> number (of_Z z) /\ B2R (of_Z z) = IZR z.
Proof.
  intros Hz. unfold of_Z.
  assert (Hv : (Rabs (IZR z * pow2 0) < pow2 53)%R).
  { rewrite pow2_0, Rmult_1_r, <- abs_IZR, pow2_IZR by lia. now apply IZR_lt. }
  destruct (binary_normalize_R _ _ Hv ltac:(lia)) as (N & _ & X).
  split; [exact N | ]. rewrite X; [rewrite pow2_0; lra | ].
  rewrite fexp_eq.
  assert (Zdigits2 z <= 53).
  { destruct z as [ | p | p]; [cbn; lia | | ].
    - apply Zdigits2_le; lia.
    - change (Zdigits2 (Z.neg p)) with (Zdigits2 (Z.pos p)).
      apply Zdigits2_le; lia. }
  lia.
Qed.

(** *** Sums of doubles *)

Lemma Rabs_le_iff (x y : R) : (Rabs x <= y)%R <-> (- y <= x <= y)%R.
Proof. unfold Rabs. destruct (Rcase_abs x); lra. Qed.

Ltac absolve :=
  repeat match goal with
         | H : (Rabs _ <= _)%R |- _ => apply Rabs_le_iff in H
         | H : (Rabs _ < _)%R |- _ => apply Rabs_def2 in H
         | |- (Rabs _ <= _)%R => apply Rabs_le_iff
         | |- (Rabs _ < _)%R => apply Rabs_def1
         end.

Lemma fold_add_R (k : Z) (B : R) :
  -1021 <= k <= 1023 -> (0 <= B)%R ->
  forall (a : list double) (acc : double) (A : R),
    number acc -> (Rabs (B2R acc) <= A)%R -> Forall (good B) a ->
    (A + INR (length a) * (B + pow2 (k - 53)) < pow2 k)%R ->
    number (fold_left add a acc) /\
    (Rabs (B2R (fold_left add a acc) - (B2R acc + Rsum (map B2R a)))
     <= INR (length a) * pow2 (k - 53))%R.
Proof.
  intros Hk HB. pose proof (pow2_pos (k - 53)) as Pu.
  induction a as [ | x a IH]; intros acc A Hacc HA Ha Hbound.
  - cbn [fold_left map Rsum fold_right length INR]. split; [exact Hacc | ].
    absolve. lra.
  - inversion Ha as [ | ? ? [Hx HxB] Ha']; subst.
    change (length (x :: a)) with (S (length a)) in *. rewrite S_INR in *.
    pose proof (pos_INR (length a)) as Hn.
    cbn [fold_left map Rsum fold_right].
    destruct (@add_R acc x k Hacc Hx) as [N1 E1]; [absolve; nra | exact Hk | ].
    destruct (IH (add acc x) (A + B + pow2 (k - 53))%R N1) as [N2 E2];
      [absolve; lra | exact Ha' | nra | ].
    split; [exact N2 | ].
    change (fold_right Rplus 0%R (map B2R a)) with (Rsum (map B2R a)).
    absolve. nra.
Qed.

Lemma Rsum_good (B : R) (a : list double) :
  Forall (good B) a ->
  (Rabs (Rsum (map B2R a)) <= INR (length a) * B)%R.
Proof.
  induction 1 as [ | x a [_ Hx] _ IH].
  - cbn. rewrite Rabs_R0. lra.
  - change (length (x :: a)) with (S (length a)). rewrite S_INR.
    cbn [map Rsum fold_right].
    change (fold_right Rplus 0%R (map B2R a)) with (Rsum (map B2R a)).
    absolve. lra.
Qed.

Lemma add_zero_R (x : double) :
  number x ->
  number (add x Double.zero) /\ B2R (add x Double.zero) = B2R x.
Proof.
  intros [Fx Vx]. destruct x as [[ | ] | | | ]; try discriminate;
    (split; [split; assumption || reflexivity | reflexivity]).
Qed.

Lemma Permutation_concat {X : Type} (l l' : list (list X)) :
  Permutation l l' -> Permutation (concat l) (concat l').
Proof.
  induction 1 as [ | c l l' _ IH | c c' l | l l' l'' _ IH1 _ IH2];
    cbn [concat].
  - constructor.
  - now apply Permutation_app_head.
  - rewrite !app_assoc. apply Permutation_app_tail, Permutation_app_comm.
  - now transitivity (concat l').
Qed.

(** The private sums of the blocks, added up in any order. *)
Lemma fold_chunks_R (k : Z) (B : R) :
  -1021 <= k <= 1023 -> (0 <= B)%R ->
  forall (cs : list (list double)) (acc : double) (A : R),
    number acc -> (Rabs (B2R acc) <= A)%R ->
    Forall (good B) (concat cs) ->
    (A + INR (length (concat cs)) * (B + 2 * pow2 (k - 53)) < pow2 k)%R ->
    number (fold_left add (map accumulate cs) acc) /\
    (Rabs (B2R (fold_left add (map accumulate cs) acc)
           - (B2R acc + Rsum (map B2R (concat cs))))
     <= 2 * INR (length (concat cs)) * pow2 (k - 53))%R.
Proof.
  intros Hk HB. pose proof (pow2_pos (k - 53)) as Pu.
  induction cs as [ | c cs IH]; intros acc A Hacc HA Hcs Hbound.
  - cbn [fold_left map concat Rsum fold_right length INR]. split; [exact Hacc | ].
    absolve. lra.
  - assert (HA0 : (0 <= A)%R) by (pose proof (Rabs_pos (B2R acc)); lra).
    cbn [concat] in *. apply Forall_app in Hcs as [Hc Hcs].
    rewrite length_app, plus_INR, map_app, Rsum_app in *.
    pose proof (pos_INR (length cs)) as Hn1.
    pose proof (pos_INR (length (concat cs))) as Hn2.
    pose proof (pos_INR (length c)) as Hn3.
    cbn [map fold_left].
    destruct c as [ | x c].
    + change (accumulate []) with Double.zero.
      destruct (add_zero_R Hacc) as [N1 E1].
      destruct (IH (add acc Double.zero) A N1) as [N2 E2];
        [now rewrite E1 | exact Hcs | cbn [length INR] in Hbound; lra | ].
      split; [exact N2 | ].
      rewrite E1 in E2. cbn [length INR map Rsum fold_right] in *.
      absolve. lra.
    + set (c' := x :: c) in *.
      assert (Hlen : (1 <= INR (length c'))%R).
      { unfold c'. change (length (x :: c)) with (S (length c)).
        rewrite S_INR. pose proof (pos_INR (length c)). lra. }
      destruct (@fold_add_R k B Hk HB c' Double.zero 0%R) as [N0 E0];
        [split; reflexivity | change (B2R Double.zero) with 0%R; rewrite Rabs_R0; lra | exact Hc
        | nra | ].
      change (fold_left add c' Double.zero) with (@accumulate double _ c')
        in N0, E0.
      change (B2R Double.zero) with 0%R in E0. rewrite Rplus_0_l in E0.
      pose proof (Rsum_good Hc) as Hsc.
      destruct (@add_R acc (accumulate c') k Hacc N0) as [N1 E1];
        [absolve; nra | exact Hk | ].
      destruct (IH (add acc (accumulate c'))
                  (A + INR (length c') * (B + 2 * pow2 (k - 53)))%R N1)
        as [N2 E2]; [absolve; nra | exact Hcs | nra | ].
      split; [exact N2 | ]. absolve. nra.
Qed.

Lemma omp_reduction_chunks (order : list nat) (chunks : list (list double)) :
  omp_reduction order chunks
  = fold_left add (map accumulate (map (fun t => nth t chunks []) order))
      Double.zero.
Proof.
  unfold omp_reduction. f_equal. rewrite map_map.
  apply map_ext. intros t.
  change (@fzero double _) with (@accumulate double _ []).
  apply map_nth.
Qed.

(** The reduction of the parallel diffusion, for any team and any order of
    arrival: within [2 N 2^(k-53)] of the sum of the amplitudes. *)
Lemma omp_reduction_double_R (k : Z) (B : R) (order : list nat) (T : nat)
    (a : list double) :
  -1021 <= k <= 1023 -> (0 <= B)%R ->
  (1 <= T)%nat -> Permutation order (seq 0 T) ->
  Forall (good B) a ->
  (INR (length a) * (B + 2 * pow2 (k - 53)) < pow2 k)%R ->
  number (omp_reduction order (static_chunks T a)) /\
  (Rabs (B2R (omp_reduction order (static_chunks T a)) - Rsum (map B2R a))
   <= 2 * INR (length a) * pow2 (k - 53))%R.
Proof.
  intros Hk HB HT Hord Ha Hbound.
  rewrite omp_reduction_chunks.
  set (cs := map (fun t => nth t (static_chunks T a) []) order).
  assert (Hperm : Permutation (concat cs) a).
  { apply Permutation_trans with (concat (static_chunks T a));
      [ | rewrite static_chunks_concat by exact HT; apply Permutation_refl].
    apply Permutation_concat. unfold cs.
    apply map_nth_Permutation. now rewrite static_chunks_length. }
  assert (Hlen : length (concat cs) = length a)
    by now apply Permutation_length.
  assert (Hsum : Rsum (map B2R (concat cs)) = Rsum (map B2R a))
    by now apply Rsum_Permutation, Permutation_map.
  destruct (@fold_chunks_R k B Hk HB cs Double.zero 0%R) as [N E];
    [split; reflexivity | change (B2R Double.zero) with 0%R; rewrite Rabs_R0; lra
    | apply (Permutation_Forall (Permutation_sym Hperm) Ha)
    | rewrite Hlen; lra | ].
  split; [exact N | ].
  rewrite Hlen, Hsum in E. change (B2R Double.zero) with 0%R in E.
  now rewrite Rplus_0_l in E.
Qed.

Lemma accumulate_double_R (k : Z) (B : R) (a : list double) :
  -1021 <= k <= 1023 -> (0 <= B)%R -> Forall (good B) a ->
  (INR (length a) * (B + 2 * pow2 (k - 53)) < pow2 k)%R ->
  number (accumulate a) /\
  (Rabs (B2R (accumulate a) - Rsum (map B2R a))
   <= 2 * INR (length a) * pow2 (k - 53))%R.
Proof.
  intros Hk HB Ha Hbound. pose proof (pow2_pos (k - 53)) as Pu.
  pose proof (pos_INR (length a)) as Hn.
  pose proof (Rmult_le_pos _ _ Hn (Rlt_le _ _ Pu)) as Hnu.
  destruct (@fold_add_R k B Hk HB a Double.zero 0%R) as [N E];
    [split; reflexivity
    | change (B2R Double.zero) with 0%R; rewrite Rabs_R0; lra | exact Ha
    | lra | ].
  split; [exact N | ].
  change (B2R Double.zero) with 0%R in E. rewrite Rplus_0_l in E.
  change (fold_left add a Double.zero) with (@accumulate double _ a) in E.
  absolve. lra.
Qed.

(** *** One diffusion in doubles against the diffusion of the values *)

Lemma Forall2_maps {X Y Z : Type} (P : Y -> Z -> Prop) (f : X -> Y)
    (g : X -> Z) (l : list X) :
  Forall (fun x => P (f x) (g x)) l -> Forall2 P (map f l) (map g l).
Proof. induction 1; cbn [map]; constructor; assumption. Qed.

Lemma INR_pow2 (N : nat) (n : Z) :
  0 <= n -> Z.of_nat N <= 2 ^ n -> (INR N <= pow2 n)%R.
Proof.
  intros Hn H. rewrite INR_IZR_INZ, pow2_IZR by exact Hn. now apply IZR_le.
Qed.

Lemma pow2_shift (b d : Z) : pow2 (b + d) = (pow2 b * pow2 d)%R.
Proof. apply pow2_add. Qed.

Lemma pow2_opp (n : Z) : 0 <= n -> pow2 (- n) = (/ IZR (2 ^ n))%R.
Proof.
  intros H. unfold pow2. rewrite powerRZ_neg'. f_equal. now apply pow2_IZR.
Qed.

Lemma pow2_small (n : Z) : n <= 40 -> (pow2 (n - 52) <= / 4096)%R.
Proof.
  intros H. apply Rle_trans with (pow2 (-12)); [apply pow2_le; lia | ].
  change (pow2 (-12)) with (pow2 (Z.opp 12)).
  rewrite pow2_opp by lia. change (2 ^ 12) with 4096. lra.
Qed.

Lemma diffusion_serial_values (v : list R) :
  diffusion_serial v
  = map (fun r => (2 * (Rsum v / INR (length v)) - r)%R) v.
Proof.
  unfold diffusion_serial, reflect. rewrite accumulate_R, of_size_R.
  reflexivity.
Qed.

Lemma reflect_double_R (b n : Z) (a : list double) (sumd : double) :
  -900 <= b <= 900 -> 0 <= n <= 40 ->
  (1 <= length a)%nat -> Z.of_nat (length a) <= 2 ^ n ->
  Forall (good (pow2 b)) a -> number sumd ->
  (Rabs (B2R sumd - Rsum (map B2R a))
   <= 2 * INR (length a) * pow2 (b + n - 52))%R ->
  approx (pow2 (b + n - 50) + 3 * pow2 (b - 51))
    (diffusion_serial (map B2R a))
    (reflect (fdiv sumd (of_size (Z.of_nat (length a)))) a).
Proof.
  intros Hb Hn Hlen HN Ha Hs Hsum.
  rewrite diffusion_serial_values, length_map.
  set (S := Rsum (map B2R a)) in *. set (N := INR (length a)) in *.
  assert (HN1 : (1 <= N)%R).
  { unfold N. change 1%R with (INR 1). apply le_INR. exact Hlen. }
  pose proof (Rsum_good Ha) as HS. fold S N in HS.
  (* the powers of two involved, as multiples of B, u and w *)
  assert (Eu : pow2 (b + n - 52) = (pow2 b * pow2 (n - 52))%R)
    by (rewrite <- pow2_add; f_equal; lia).
  assert (Ew : pow2 (b - 52) = (pow2 b * pow2 (-52))%R)
    by (rewrite <- pow2_add; f_equal; lia).
  assert (E50 : pow2 (b + n - 50) = (4 * pow2 (b + n - 52))%R).
  { replace (b + n - 50) with (b + n - 52 + 1 + 1) by lia.
    rewrite !pow2_succ. lra. }
  assert (E51 : pow2 (b - 51) = (2 * pow2 (b - 52))%R).
  { replace (b - 51) with (b - 52 + 1) by lia. now rewrite pow2_succ. }
  assert (E1 : pow2 (b + 1) = (2 * pow2 b)%R) by apply pow2_succ.
  assert (E2 : pow2 (b + 2) = (4 * pow2 b)%R).
  { replace (b + 2) with (b + 1 + 1) by lia. rewrite !pow2_succ. lra. }
  pose proof (@pow2_small n ltac:(lia)) as Hu.
  assert (Hw : (pow2 (-52) <= / 4096)%R)
    by (apply (@pow2_small 0); lia).
  pose proof (pow2_pos (n - 52)) as Pu'. pose proof (pow2_pos (-52)) as Pw'.
  pose proof (pow2_pos b) as PB.
  set (B := pow2 b) in *.
  assert (Hu1 : (pow2 (b + n - 52) <= B / 4096)%R) by (rewrite Eu; nra).
  assert (Hw1 : (pow2 (b - 52) <= B / 4096)%R) by (rewrite Ew; nra).
  assert (Pu : (0 < pow2 (b + n - 52))%R) by apply pow2_pos.
  assert (Pw : (0 < pow2 (b - 52))%R) by apply pow2_pos.
  rewrite E50, E51. clear Eu Ew Hu Hw Pu' Pw' E50.
  set (u := pow2 (b + n - 52)) in *. set (w := pow2 (b - 52)) in *.
  (* the divisor *)
  destruct (@of_Z_R (Z.of_nat (length a))) as [Nn En].
  { assert (2 ^ n <= 2 ^ 40) by (apply Z.pow_le_mono_r; lia). lia. }
  rewrite <- INR_IZR_INZ in En. fold N in En.
  change (@of_size double _ (Z.of_nat (length a)))
    with (of_Z (Z.of_nat (length a))).
  set (Nd := of_Z (Z.of_nat (length a))) in *.
  (* the mean *)
  set (iN := (/ N)%R).
  assert (HiN : (0 < iN)%R) by (apply Rinv_0_lt_compat; lra).
  assert (HiN1 : (N * iN = 1)%R) by (apply Rinv_r; lra).
  assert (Hsd : (Rabs (B2R sumd / B2R Nd - S * iN) <= 2 * u)%R).
  { rewrite En. unfold Rdiv. fold iN.
    replace (B2R sumd * iN - S * iN)%R with ((B2R sumd - S) * iN)%R by ring.
    absolve. split.
    - apply Rmult_le_reg_r with N; [lra | ].
      replace ((B2R sumd - S) * iN * N)%R with (B2R sumd - S)%R
        by (rewrite Rmult_assoc, (Rmult_comm iN), HiN1; ring). lra.
    - apply Rmult_le_reg_r with N; [lra | ].
      replace ((B2R sumd - S) * iN * N)%R with (B2R sumd - S)%R
        by (rewrite Rmult_assoc, (Rmult_comm iN), HiN1; ring). lra. }
  assert (Hmu : (Rabs (S * iN) <= B)%R).
  { absolve. split.
    - apply Rmult_le_reg_r with N; [lra | ].
      replace (S * iN * N)%R with S
        by (rewrite Rmult_assoc, (Rmult_comm iN), HiN1; ring). lra.
    - apply Rmult_le_reg_r with N; [lra | ].
      replace (S * iN * N)%R with S
        by (rewrite Rmult_assoc, (Rmult_comm iN), HiN1; ring). lra. }
  change (@fdiv double _ sumd Nd) with (div sumd Nd).
  destruct (@div_R sumd Nd (b + 1) Hs Nn) as [Nm Em];
    [rewrite En; lra | rewrite E1; absolve; lra | lia | ].
  replace (b + 1 - 53) with (b - 52) in Em by lia. fold w in Em.
  set (md := div sumd Nd) in *.
  (* twice the mean *)
  destruct (@of_Z_R 2 ltac:(lia)) as [N2 Etwo].
  change (of_Z 2) with two in N2, Etwo.
  destruct (@mul_R two md (b + 2) N2 Nm) as [Nt Et];
    [rewrite Etwo, E2; absolve; lra | lia | ].
  replace (b + 2 - 53) with (b - 52 + 1) in Et by lia.
  rewrite pow2_succ in Et. fold w in Et. rewrite Etwo in Et.
  set (t := mul two md) in *.
  unfold approx, reflect, Rdiv. fold iN.
  rewrite map_map. apply Forall2_maps.
  apply Forall_forall. intros x Hx.
  rewrite Forall_forall in Ha. destruct (Ha x Hx) as [Nx Bx].
  change (@fsub double _ (@fmul double _ (@ftwo double _) md) x)
    with (sub t x).
  destruct (@sub_R t x (b + 2) Nt Nx) as [Ny Ey];
    [rewrite E2; absolve; lra | lia | ].
  replace (b + 2 - 53) with (b - 52 + 1) in Ey by lia.
  rewrite pow2_succ in Ey. fold w in Ey.
  split; [exact Ny | ]. absolve. lra.
Qed.

Lemma sum_room (b n : Z) (N : R) :
  n <= 40 -> (0 <= N <= pow2 n)%R ->
  (N * (pow2 b + 2 * pow2 (b + n + 1 - 53)) < pow2 (b + n + 1))%R.
Proof.
  intros Hn HN.
  replace (b + n + 1 - 53) with (b + (n - 52)) by lia.
  replace (b + n + 1) with (n + b + 1) by lia.
  rewrite pow2_succ, !pow2_add.
  pose proof (pow2_small Hn) as Hu. pose proof (pow2_pos (n - 52)) as Pu.
  pose proof (pow2_pos b) as PB. pose proof (pow2_pos n) as Pn.
  set (B := pow2 b) in *. set (u := pow2 (n - 52)) in *.
  set (P := pow2 n) in *.
  assert (H1 : (B + 2 * (B * u) <= B * (3 / 2))%R) by nra.
  assert (H2 : (N * (B + 2 * (B * u)) <= P * (B * (3 / 2)))%R).
  { apply Rmult_le_compat; nra. }
  nra.
Qed.

Lemma diffusion_double_R (b n : Z) (a : list double) (T : Z)
    (order : list nat) :
  -900 <= b <= 900 -> 0 <= n <= 40 ->
  (1 <= length a)%nat -> Z.of_nat (length a) <= 2 ^ n ->
  Forall (good (pow2 b)) a -> arrival_order T order ->
  approx (pow2 (b + n - 50) + 3 * pow2 (b - 51))
    (diffusion_serial (map B2R a)) (diffusion_serial a) /\
  approx (pow2 (b + n - 50) + 3 * pow2 (b - 51))
    (diffusion_serial (map B2R a)) (diffusion_parallel order a T).
Proof.
  intros Hb Hn Hlen HN Ha Hord.
  pose proof (@INR_pow2 (length a) n (proj1 Hn) HN) as HNR.
  pose proof (pos_INR (length a)) as HN0.
  pose proof (@sum_room b n (INR (length a)) ltac:(lia) (conj HN0 HNR))
    as Hroom.
  assert (HB : (0 <= pow2 b)%R) by apply Rlt_le, pow2_pos.
  split.
  - destruct (@accumulate_double_R (b + n + 1) (pow2 b) a) as [Ns Es];
      [lia | exact HB | exact Ha | exact Hroom | ].
    replace (b + n + 1 - 53) with (b + n - 52) in Es by lia.
    exact (reflect_double_R Hb Hn Hlen HN Ha Ns Es).
  - destruct (@omp_reduction_double_R (b + n + 1) (pow2 b) order
                (omp_team T) a) as [Ns Es];
      [lia | exact HB | apply omp_team_pos | exact Hord | exact Ha
      | exact Hroom | ].
    replace (b + n + 1 - 53) with (b + n - 52) in Es by lia.
    exact (reflect_double_R Hb Hn Hlen HN Ha Ns Es).
Qed.

(** *** The diffusion of the values *)

Lemma Forall2_map2 {X Y : Type} (P Q : X -> Y -> Prop) (f : X -> X)
    (g : Y -> Y) (l : list X) (l' : list Y) :
  (forall x y, P x y -> Q (f x) (g y)) ->
  Forall2 P l l' -> Forall2 Q (map f l) (map g l').
Proof.
  intros H. induction 1; cbn [map]; constructor; auto.
Qed.

Lemma Rsum_close (eps : R) (v w : list R) :
  Forall2 (fun r r' => (Rabs (r' - r) <= eps)%R) v w ->
  (Rabs (Rsum w - Rsum v) <= INR (length v) * eps)%R.
Proof.
  induction 1 as [ | r r' v w H _ IH].
  - cbn. rewrite Rminus_diag, Rabs_R0. lra.
  - change (length (r :: v)) with (S (length v)). rewrite S_INR.
    cbn [Rsum fold_right].
    change (fold_right Rplus 0%R v) with (Rsum v).
    change (fold_right Rplus 0%R w) with (Rsum w).
    absolve. lra.
Qed.

Lemma mean_bound (N S c : R) :
  (1 <= N)%R -> (Rabs S <= N * c)%R -> (Rabs (S / N) <= c)%R.
Proof.
  intros HN HS.
  assert (HiN : (0 < / N)%R) by (apply Rinv_0_lt_compat; lra).
  assert (HiN1 : (N * / N = 1)%R) by (apply Rinv_r; lra).
  unfold Rdiv. absolve. split.
  - apply Rmult_le_reg_r with N; [lra | ].
    replace (S * / N * N)%R with S
      by (rewrite Rmult_assoc, (Rmult_comm (/ N)), HiN1; ring). lra.
  - apply Rmult_le_reg_r with N; [lra | ].
    replace (S * / N * N)%R with S
      by (rewrite Rmult_assoc, (Rmult_comm (/ N)), HiN1; ring). lra.
Qed.

Lemma diffusion_lipschitz (eps : R) (v w : list R) :
  (1 <= length v)%nat ->
  Forall2 (fun r r' => (Rabs (r' - r) <= eps)%R) v w ->
  Forall2 (fun r r' => (Rabs (r' - r) <= 3 * eps)%R)
    (diffusion_serial v) (diffusion_serial w).
Proof.
  intros Hlen H. rewrite !diffusion_serial_values.
  rewrite <- (Forall2_length H).
  assert (HN : (1 <= INR (length v))%R)
    by (change 1%R with (INR 1); now apply le_INR).
  pose proof (Rsum_close H) as Hs.
  assert (Hm : (Rabs (Rsum w / INR (length v) - Rsum v / INR (length v))
                <= eps)%R).
  { replace (Rsum w / INR (length v) - Rsum v / INR (length v))%R
      with ((Rsum w - Rsum v) / INR (length v))%R by (field; lra).
    now apply mean_bound. }
  apply Forall2_map2 with (2 := H). intros r r' Hr.
  absolve. lra.
Qed.

Lemma diffusion_values_bound (c : R) (v : list R) :
  (1 <= length v)%nat -> Forall (fun r => (Rabs r <= c)%R) v ->
  Forall (fun r => (Rabs r <= 3 * c)%R) (diffusion_serial v).
Proof.
  intros Hlen H. rewrite diffusion_serial_values.
  assert (HN : (1 <= INR (length v))%R)
    by (change 1%R with (INR 1); now apply le_INR).
  assert (Hs : (Rabs (Rsum v) <= INR (length v) * c)%R).
  { clear Hlen HN. induction H as [ | r v Hr _ IH].
    - cbn. rewrite Rabs_R0. lra.
    - change (length (r :: v)) with (S (length v)). rewrite S_INR.
      cbn [Rsum fold_right]. change (fold_right Rplus 0%R v) with (Rsum v).
      absolve. lra. }
  pose proof (@mean_bound _ _ _ HN Hs) as Hm.
  apply Forall_map. apply Forall_impl with (2 := H).
  intros r Hr. absolve. lra.
Qed.

Lemma approx_good (tol c B : R) (v : list R) (b : list double) :
  approx tol v b -> Forall (fun r => (Rabs r <= c)%R) v ->
  (tol + c <= B)%R -> Forall (good B) b.
Proof.
  intros H. induction H as [ | r y v b [Ny Ey] _ IH]; intros Hv Hb.
  - constructor.
  - inversion Hv as [ | ? ? Hr Hv']; subst. constructor; [ | now apply IH].
    split; [exact Ny | ]. absolve. lra.
Qed.

Lemma approx_values (tol : R) (v : list R) (b : list double) :
  approx tol v b ->
  Forall2 (fun r r' => (Rabs (r' - r) <= tol)%R) v (map B2R b).
Proof.
  induction 1 as [ | r y v b [_ E] _ IH]; cbn [map]; constructor; assumption.
Qed.

Lemma approx_trans (eps tol : R) (v w : list R) (c : list double) :
  Forall2 (fun r r' => (Rabs (r' - r) <= eps)%R) v w ->
  approx tol w c -> approx (eps + tol) v c.
Proof.
  intros H. revert c. induction H as [ | r r' v w Hr _ IH]; intros c Hc.
  - inversion Hc. constructor.
  - inversion Hc as [ | ? y ? c' [Ny Ey] Hc']; subst.
    constructor; [ | now apply IH].
    split; [exact Ny | ]. absolve. lra.
Qed.

Lemma approx_length (tol : R) (v : list R) (b : list double) :
  approx tol v b -> length b = length v.
Proof. intros H. symmetry. exact (Forall2_length H). Qed.

(** Two diffusions in a row, each one serial or parallel. *)
Lemma diffusion_twice_double_R (b n : Z) (a : list double)
    (pass1 pass2 : list double -> list double) :
  -900 <= b <= 898 -> 0 <= n <= 40 ->
  (1 <= length a)%nat -> Z.of_nat (length a) <= 2 ^ n ->
  Forall (good (pow2 b)) a ->
  (forall (b' : Z) (x : list double),
     -900 <= b' <= 900 -> (1 <= length x)%nat ->
     Z.of_nat (length x) <= 2 ^ n -> Forall (good (pow2 b')) x ->
     approx (pow2 (b' + n - 50) + 3 * pow2 (b' - 51))
       (diffusion_serial (map B2R x)) (pass1 x) /\
     approx (pow2 (b' + n - 50) + 3 * pow2 (b' - 51))
       (diffusion_serial (map B2R x)) (pass2 x)) ->
  approx (7 * pow2 (b + n - 50) + 21 * pow2 (b - 51))
    (map B2R a) (pass2 (pass1 a)).
Proof.
  intros Hb Hn Hlen HN Ha Hpass.
  destruct (Hpass b a ltac:(lia) Hlen HN Ha) as [H1 _].
  pose proof (@approx_length _ _ _ H1) as L1.
  rewrite diffusion_serial_values, !length_map in L1.
  assert (Hva : Forall (fun r => (Rabs r <= pow2 b)%R) (map B2R a)).
  { apply Forall_map. apply Forall_impl with (2 := Ha). now intros x [_ Hx]. }
  assert (Hlv : (1 <= length (map B2R a))%nat) by now rewrite length_map.
  pose proof (diffusion_values_bound Hlv Hva) as Hdv.
  pose proof (pow2_pos b) as PB.
  assert (Eu : pow2 (b + n - 50) = (pow2 b * pow2 (n - 52) * 4)%R).
  { replace (b + n - 50) with (b + (n - 52) + 1 + 1) by lia.
    rewrite !pow2_succ, pow2_add. lra. }
  assert (Ew : pow2 (b - 51) = (pow2 b * pow2 (-52) * 2)%R).
  { replace (b - 51) with (b + (-52) + 1) by lia.
    rewrite pow2_succ, pow2_add. lra. }
  pose proof (@pow2_small n ltac:(lia)) as Hu.
  pose proof (@pow2_small 0 ltac:(lia)) as Hw. change (0 - 52) with (-52) in Hw.
  pose proof (pow2_pos (n - 52)) as Pu. pose proof (pow2_pos (-52)) as Pw.
  assert (E2 : pow2 (b + 2) = (4 * pow2 b)%R).
  { replace (b + 2) with (b + 1 + 1) by lia. rewrite !pow2_succ. lra. }
  assert (Hgb : Forall (good (pow2 (b + 2))) (pass1 a)).
  { apply (@approx_good _ _ _ _ _ H1 Hdv). rewrite E2, Eu, Ew. nra. }
  destruct (Hpass (b + 2) (pass1 a) ltac:(lia)) as [_ H2];
    [now rewrite L1 | now rewrite L1 | exact Hgb | ].
  assert (Hld : (1 <= length (diffusion_serial (map B2R a)))%nat)
    by (rewrite diffusion_serial_values, length_map; exact Hlv).
  pose proof (diffusion_lipschitz Hld (@approx_values _ _ _ H1)) as Hlip.
  rewrite (diffusion_serial_involutive _ Hlv) in Hlip.
  pose proof (@approx_trans _ _ _ _ _ Hlip H2) as Hfin.
  replace (7 * pow2 (b + n - 50) + 21 * pow2 (b - 51))%R
    with (3 * (pow2 (b + n - 50) + 3 * pow2 (b - 51))
          + (pow2 (b + 2 + n - 50) + 3 * pow2 (b + 2 - 51)))%R;
    [exact Hfin | ].
  replace (b + 2 + n - 50) with (b + n - 50 + 1 + 1) by lia.
  replace (b + 2 - 51) with (b - 51 + 1 + 1) by lia.
  rewrite !pow2_succ. lra.
Qed.

(** *** Exact results *)

Lemma binary_round_aux_exact (s : bool) (m e : Z) :
  0 <= m -> e <= fexp prec emax (Zdigits2 m + e) ->
  m mod 2 ^ (fexp prec emax (Zdigits2 m + e) - e) = 0 ->
  (IZR m * pow2 e < pow2 1024)%R ->
  number (binary_round_aux prec emax s m e loc_Exact) /\
  B2R (binary_round_aux prec emax s m e loc_Exact) = signR s (IZR m * pow2 e).
Proof.
  intros Hm He Hmod Hv.
  destruct (binary_round_aux_spec s loc_Exact Hm He) as (m1 & _ & Hex & Hres).
  destruct (quotient_shape Hm He) as (He1 & _ & _).
  set (e1 := fexp prec emax (Zdigits2 m + e)) in *.
  destruct (@quotient_R m (e1 - e) Hm ltac:(lia)) as (_ & _ & Q3).
  assert (Hpe : pow2 e1 = (pow2 (e1 - e) * pow2 e)%R)
    by (rewrite <- pow2_add; f_equal; lia).
  assert (Hval : (IZR m1 * pow2 e1 = IZR m * pow2 e)%R).
  { rewrite (Hex eq_refl Hmod), Hpe, <- Rmult_assoc, (Q3 Hmod). reflexivity. }
  destruct (@round_result_R s m1 e1 _ Hres He1) as [Hnum HB];
    [now rewrite Hval | ].
  split; [exact Hnum | now rewrite HB, Hval].
Qed.

Lemma B2R_sign (s : bool) (m : positive) (e : Z) :
  (if s then B2R (S754_finite s m e) < 0 else 0 < B2R (S754_finite s m e))%R.
Proof.
  cbn [B2R]. pose proof (pow2_pos e).
  assert (0 < IZR (Z.pos m))%R by (apply IZR_lt; lia).
  destruct s; cbn [signR]; nra.
Qed.

Lemma pow2_mantissa (m m' : positive) (e e' : Z) :
  e <= e' -> (IZR (Z.pos m) * pow2 e = IZR (Z.pos m') * pow2 e')%R ->
  Z.pos m = Z.pos m' * 2 ^ (e' - e).
Proof.
  intros He H. apply eq_IZR. rewrite mult_IZR, <- pow2_IZR by lia.
  replace e' with (e' - e + e) in H by lia. rewrite pow2_add in H.
  pose proof (pow2_pos e). nra.
Qed.

Lemma canonical_unique (m m' : positive) (e e' : Z) :
  bounded prec emax m e = true -> bounded prec emax m' e' = true ->
  (IZR (Z.pos m) * pow2 e = IZR (Z.pos m') * pow2 e')%R ->
  m = m' /\ e = e'.
Proof.
  intros Hb Hb' H.
  apply bounded_inv in Hb as [C _]. apply bounded_inv in Hb' as [C' _].
  assert (Hd : Zdigits2 (Z.pos m) + e = Zdigits2 (Z.pos m') + e').
  { destruct (Z_le_gt_dec e e') as [Hle | Hgt].
    - rewrite (@pow2_mantissa m m' e e' Hle H), Zdigits2_shift by lia. lia.
    - symmetry in H.
      rewrite (@pow2_mantissa m' m e' e ltac:(lia) H), Zdigits2_shift by lia.
      lia. }
  assert (He : e = e') by lia. subst e'. split; [ | reflexivity].
  pose proof (pow2_pos e). assert (IZR (Z.pos m) = IZR (Z.pos m')) by nra.
  apply eq_IZR in H1. congruence.
Qed.

Lemma B2R_inj (x y : double) :
  number x -> number y -> B2R x = B2R y -> B2R x <> 0%R -> x = y.
Proof.
  intros [Fx Vx] [Fy Vy] H Hx.
  destruct x as [sx | sx | | sx mx ex]; try discriminate;
    [now contradiction Hx | ].
  destruct y as [sy | sy | | sy my ey]; try discriminate;
    [now rewrite H in Hx; contradiction Hx | ].
  pose proof (B2R_sign sx mx ex) as Sx. pose proof (B2R_sign sy my ey) as Sy.
  assert (sx = sy) by (destruct sx, sy; try reflexivity; lra). subst sy.
  assert (Hv : (IZR (Z.pos mx) * pow2 ex = IZR (Z.pos my) * pow2 ey)%R).
  { cbn [B2R] in H. destruct sx; cbn [signR] in H; lra. }
  destruct (@canonical_unique _ _ _ _ Vx Vy Hv) as [-> ->]. reflexivity.
Qed.

Lemma binary_round_canonical (s : bool) (m : positive) (e : Z) :
  bounded prec emax m e = true ->
  binary_round prec emax s m e = S754_finite s m e.
Proof.
  intros Hb. pose proof Hb as Hb'.
  unfold bounded, canonical_mantissa in Hb'.
  apply andb_prop in Hb' as [C L]. apply Z.eqb_eq in C.
  unfold binary_round, shl_align. rewrite C, Z.sub_diag.
  unfold binary_round_aux, shr_fexp. cbn [Zdigits2].
  rewrite C, Z.sub_diag. cbn [shr shr_record_of_loc shr_m loc_of_shr_record
                              round_nearest_even Zdigits2].
  rewrite C, Z.sub_diag. cbn [shr shr_m]. now rewrite L.
Qed.

(** Doubling is exact below 2^1023. *)
Lemma mul_two_exact (x : double) :
  number x -> (Rabs (B2R x) < pow2 1023)%R ->
  number (mul two x) /\ B2R (mul two x) = (2 * B2R x)%R.
Proof.
  intros [Fx Vx] Hv.
  destruct x as [sx | sx | | sx mx ex]; try discriminate.
  - destruct sx; (split; [split; reflexivity | ]);
      [ change (mul two (S754_zero true)) with (S754_zero true)
      | change (mul two (S754_zero false)) with (S754_zero false) ];
      cbn [B2R]; lra.
  - assert (Hx : xorb false sx = sx) by now destruct sx.
    change (mul two (S754_finite sx mx ex))
      with (binary_round_aux prec emax (xorb false sx)
              (Z.pos (4503599627370496 * mx)) (-51 + ex) loc_Exact).
    rewrite Hx. clear Hx.
    change (binary_round_aux prec emax sx
              (Z.pos (4503599627370496 * mx)) (-51 + ex) loc_Exact)
      with (binary_round_aux prec emax sx
              (Z.pos (4503599627370496 * mx)) (-51 + ex) loc_Exact).
    apply bounded_inv in Vx as [C _].
    pose proof (@Zdigits2_pos (Z.pos mx) ltac:(lia)) as D.
    assert (Hd : Zdigits2 (Z.pos (4503599627370496 * mx))
                 = Zdigits2 (Z.pos mx) + 52).
    { rewrite Pos2Z.inj_mul, Z.mul_comm.
      change (Z.pos 4503599627370496) with (2 ^ 52).
      apply Zdigits2_shift; lia. }
    assert (Hval : (IZR (Z.pos (4503599627370496 * mx)) * pow2 (-51 + ex)
                    = 2 * (IZR (Z.pos mx) * pow2 ex))%R).
    { rewrite Pos2Z.inj_mul, mult_IZR, pow2_add.
      change (Z.pos 4503599627370496) with (2 ^ 52).
      rewrite <- pow2_IZR by lia.
      replace (2 * (IZR (Z.pos mx) * pow2 ex))%R
        with (pow2 52 * IZR (Z.pos mx) * (pow2 (-52 + 1) * pow2 ex))%R.
      - reflexivity.
      - rewrite pow2_succ.
        assert (H1 : (pow2 52 * pow2 (-52) = 1)%R)
          by (rewrite <- pow2_add; reflexivity).
        replace (pow2 52 * IZR (Z.pos mx) * (2 * pow2 (-52) * pow2 ex))%R
          with (pow2 52 * pow2 (-52) * (2 * (IZR (Z.pos mx) * pow2 ex)))%R
          by ring.
        rewrite H1. ring. }
    destruct (@binary_round_aux_exact sx (Z.pos (4503599627370496 * mx))
                (-51 + ex)) as [N E]; [lia | | | | ].
    + rewrite Hd, fexp_eq. lia.
    + rewrite Hd, fexp_eq.
      set (k := Z.max (Zdigits2 (Z.pos mx) + 52 + (-51 + ex) - 53) (-1074)
                - (-51 + ex)).
      assert (Hk : 0 <= k <= 52) by (unfold k; lia).
      rewrite Pos2Z.inj_mul. change (Z.pos 4503599627370496) with (2 ^ 52).
      replace 52 with (52 - k + k) at 1 by lia.
      rewrite Z.pow_add_r, <- Z.mul_assoc, (Z.mul_comm (2 ^ k)), Z.mul_assoc
        by lia.
      apply Z.mod_mul. apply Z.pow_nonzero; lia.
    + rewrite Hval. cbn [B2R] in Hv. rewrite signR_Rabs in Hv.
      replace 1024 with (1023 + 1) by lia. rewrite pow2_succ.
      absolve. lra.
    + split; [exact N | ]. rewrite E, Hval. cbn [B2R].
      destruct sx; cbn [signR]; lra.
Qed.

(** Dividing by 1.0 is exact. *)
Lemma div_one_exact (s : bool) (m : positive) (e : Z) :
  bounded prec emax m e = true ->
  div (S754_finite s m e) one = S754_finite s m e.
Proof.
  intros Hb. pose proof (@bounded_inv _ _ Hb) as [C L].
  pose proof (@Zdigits2_pos (Z.pos m) ltac:(lia)) as D.
  assert (Hnum : number (S754_finite s m e))
    by (split; [reflexivity | exact Hb]).
  assert (Hlt : (IZR (Z.pos m) * pow2 e < pow2 1024)%R).
  { destruct (@Zdigits2_bounds (Z.pos m) ltac:(lia)) as [_ U].
    apply IZR_lt in U. rewrite <- pow2_IZR in U by lia.
    apply Rlt_le_trans with (pow2 (Zdigits2 (Z.pos m)) * pow2 e)%R.
    - pose proof (pow2_pos e). nra.
    - rewrite <- pow2_add. apply pow2_le. lia. }
  unfold div, one. cbn [SFdiv]. unfold SFdiv_core_binary.
  rewrite xorb_false_r.
  change (Zdigits2 4503599627370496) with 53.
  set (e' := Z.min (fexp prec emax (Zdigits2 (Z.pos m) + e - (53 + -52)))
               (e - -52)).
  assert (He' : e' = Z.max (e - 1) (-1074)) by (unfold e'; rewrite fexp_eq; lia).
  set (sh := e - -52 - e').
  assert (Hsh : sh = 52 + (e - e') /\ 0 <= e - e' <= 1)
    by (unfold sh; lia).
  set (m' := match sh with
             | 0 => Z.pos m
             | Z.pos _ => Z.shiftl (Z.pos m) sh
             | Z.neg _ => 0
             end).
  assert (Hm' : m' = Z.pos m * 2 ^ (e - e') * 2 ^ 52).
  { unfold m'. destruct sh as [ | p | p] eqn:E; try lia.
    rewrite Z.shiftl_mul_pow2 by lia. destruct Hsh as [-> ?].
    rewrite Z.pow_add_r by lia. ring. }
  clearbody m' sh e'.
  pose proof (Z.div_mod m' (2 ^ 52) ltac:(lia)) as Hdm.
  pose proof (Z.mod_pos_bound m' (2 ^ 52) ltac:(lia)) as Hr.
  assert (Hq : m' / 2 ^ 52 = Z.pos m * 2 ^ (e - e'))
    by (rewrite Hm'; apply Z.div_mul; lia).
  assert (Hr0 : m' mod 2 ^ 52 = 0) by (rewrite Hm'; apply Z.mod_mul; lia).
  unfold Z.div, Z.modulo in Hq, Hr0.
  change (Z.pos 4503599627370496) with (2 ^ 52).
  destruct (Z.div_eucl m' (2 ^ 52)) as [q r]. cbn [fst snd] in Hq, Hr0.
  subst q r. change (new_location (2 ^ 52) 0) with loc_Exact.
  assert (Hpq : 0 < Z.pos m * 2 ^ (e - e')).
  { apply Z.mul_pos_pos; [lia | apply Z.pow_pos_nonneg; lia]. }
  assert (Hdq : Zdigits2 (Z.pos m * 2 ^ (e - e')) = Zdigits2 (Z.pos m) + (e - e'))
    by (apply Zdigits2_shift; lia).
  assert (Hvq : (IZR (Z.pos m * 2 ^ (e - e')) * pow2 e'
                 = IZR (Z.pos m) * pow2 e)%R).
  { rewrite mult_IZR, <- pow2_IZR, Rmult_assoc, <- pow2_add by lia.
    do 2 f_equal. lia. }
  destruct (@binary_round_aux_exact s (Z.pos m * 2 ^ (e - e')) e')
    as [N E]; [lia | | | now rewrite Hvq | ].
  - rewrite Hdq, fexp_eq. lia.
  - rewrite Hdq, fexp_eq.
    replace (Z.max (Zdigits2 (Z.pos m) + (e - e') + e' - 53) (-1074) - e')
      with (e - e') by lia.
    apply Z.mod_mul. apply Z.pow_nonzero; lia.
  - apply B2R_inj; [exact N | exact Hnum | | ].
    + rewrite E, Hvq. reflexivity.
    + rewrite E, Hvq. pose proof (B2R_sign s m e) as Sg. cbn [B2R] in Sg.
      destruct s; lra.
Qed.

(** [2.0 * x - x] is [x]. *)
Lemma twice_minus_exact (s : bool) (m : positive) (e : Z) :
  bounded prec emax m e = true ->
  (Rabs (B2R (S754_finite s m e)) < pow2 1023)%R ->
  sub (mul two (S754_finite s m e)) (S754_finite s m e) = S754_finite s m e.
Proof.
  intros Hb Hv. pose proof (@bounded_inv _ _ Hb) as [C L].
  assert (Hnum : number (S754_finite s m e))
    by (split; [reflexivity | exact Hb]).
  destruct (@mul_two_exact _ Hnum Hv) as [Nt Et].
  pose proof (@Zdigits2_pos (Z.pos m) ltac:(lia)) as D.
  pose proof (B2R_sign s m e) as Sg.
  assert (Hnorm : binary_normalize prec emax
                    (cond_Zopp s (Z.pos m)) e false = S754_finite s m e).
  { destruct s; cbn [cond_Zopp Z.opp binary_normalize];
      now apply binary_round_canonical. }
  destruct (Z_lt_le_dec (Zdigits2 (Z.pos m)) 53) as [Hsub | Hnor].
  - (* subnormal: the mantissa doubles *)
    assert (Ht : mul two (S754_finite s m e) = S754_finite s (m~0) e).
    { apply B2R_inj; [exact Nt | | | ].
      - split; [reflexivity | ]. unfold is_double. cbn [valid_binary].
        unfold bounded, canonical_mantissa. rewrite fexp_eq.
        change (Z.pos (digits2_pos m~0)) with (Zdigits2 (2 * Z.pos m)).
        rewrite Z.mul_comm. change 2 with (2 ^ 1) at 1.
        rewrite Zdigits2_shift by lia.
        replace (Z.max (Zdigits2 (Z.pos m) + 1 + e - 53) (-1074)) with e by lia.
        rewrite Z.eqb_refl. cbn [andb]. apply Z.leb_le. exact L.
      - rewrite Et. cbn [B2R]. change (Z.pos m~0) with (2 * Z.pos m).
        rewrite mult_IZR. destruct s; cbn [signR]; lra.
      - rewrite Et. destruct s; lra. }
    rewrite Ht. unfold sub. cbn [SFsub]. unfold shl_align.
    rewrite Z.min_id, Z.sub_diag. cbn [fst].
    replace (cond_Zopp s (Z.pos m~0) - cond_Zopp s (Z.pos m))
      with (cond_Zopp s (Z.pos m)) by (destruct s; cbn [cond_Zopp]; lia).
    exact Hnorm.
  - (* normal: the exponent goes up by one *)
    assert (He : e <= 970).
    { destruct (Z_le_gt_dec e 970) as [ | Hgt]; [assumption | exfalso].
      destruct (@Zdigits2_bounds (Z.pos m) ltac:(lia)) as [Lo _].
      apply IZR_le in Lo. rewrite <- pow2_IZR in Lo by lia.
      cbn [B2R] in Hv. rewrite signR_Rabs in Hv.
      assert (pow2 1023 <= pow2 (Zdigits2 (Z.pos m) - 1 + e))%R
        by (apply pow2_le; lia).
      rewrite pow2_add in H. pose proof (pow2_pos e).
      absolve. nra. }
    assert (Ht : mul two (S754_finite s m e) = S754_finite s m (e + 1)).
    { apply B2R_inj; [exact Nt | | | ].
      - split; [reflexivity | ]. unfold is_double. cbn [valid_binary].
        unfold bounded, canonical_mantissa. rewrite fexp_eq.
        change (Z.pos (digits2_pos m)) with (Zdigits2 (Z.pos m)).
        replace (Z.max (Zdigits2 (Z.pos m) + (e + 1) - 53) (-1074))
          with (e + 1) by lia.
        rewrite Z.eqb_refl. cbn [andb]. apply Z.leb_le.
        unfold emax, prec. lia.
      - rewrite Et. cbn [B2R]. rewrite pow2_succ.
        destruct s; cbn [signR]; lra.
      - rewrite Et. destruct s; lra. }
    rewrite Ht. unfold sub. cbn [SFsub]. unfold shl_align.
    replace (Z.min (e + 1) e) with e by lia.
    replace (e - (e + 1)) with (-1) by lia. rewrite Z.sub_diag.
    cbn [fst Pos.iter].
    replace (cond_Zopp s (Z.pos m~0) - cond_Zopp s (Z.pos m))
      with (cond_Zopp s (Z.pos m)) by (destruct s; cbn [cond_Zopp]; lia).
    exact Hnorm.
Qed.

End RoundFacts.

(** ** Diffusion twice *)

(** C2, as amended: two diffusions in a row give the vector back.  In
    exact arithmetic exactly, on every vector of at least one entry, serial or
    parallel with any thread count and any orders of arrival.  In binary64
    within a tolerance: on every vector of 1 to 2^n doubles (n <= 40) whose
    entries are numbers of magnitude at most 2^b, as the amplitudes of a
    state are with b = 0, both passes return numbers (no infinity, no NaN)
    and every entry comes back within 7 * 2^(b+n-50) + 21 * 2^(b-51) of
    where it was, serial or parallel with any thread count and any orders
    of arrival.  For amplitudes of magnitude at most 1 that is below 1e-9
    up to 2^17 entries and below 1.2e-7 up to the 2^24 entries of the
    largest default size. *)
Theorem diffusion_twice_identity :
  (forall a : list R,
     (1 <= length a)%nat ->
     diffusion_serial (diffusion_serial a) = a /\
     forall (T : Z) (o1 o2 : list nat),
       arrival_order T o1 -> arrival_order T o2 ->
       diffusion_parallel o2 (diffusion_parallel o1 a T) T = a) /\
  (forall (b n : Z) (a : list double),
     -900 <= b <= 898 -> 0 <= n <= 40 ->
     (1 <= length a)%nat -> Z.of_nat (length a) <= 2 ^ n ->
     Forall (good (pow2 b)) a ->
     approx (7 * pow2 (b + n - 50) + 21 * pow2 (b - 51))
       (map B2R a) (diffusion_serial (diffusion_serial a)) /\
     forall (T : Z) (o1 o2 : list nat),
       arrival_order T o1 -> arrival_order T o2 ->
       approx (7 * pow2 (b + n - 50) + 21 * pow2 (b - 51))
         (map B2R a) (diffusion_parallel o2 (diffusion_parallel o1 a T) T)) /\
  (7 * pow2 (0 + 17 - 50) + 21 * pow2 (0 - 51) <= / 1000000000)%R /\
  (7 * pow2 (0 + 24 - 50) + 21 * pow2 (0 - 51) <= / 9000000)%R.
Proof.
  split; [ | split; [ | split]].
  - intros a Hn. split; [now apply diffusion_serial_involutive | ].
    intros T o1 o2 H1 H2. rewrite !diffusion_parallel_R by assumption.
    now apply diffusion_serial_involutive.
  - intros b n a Hb Hn Hlen HN Ha. split.
    + apply (@RoundFacts.diffusion_twice_double_R b n a
               (fun x => diffusion_serial x) (fun x => diffusion_serial x));
        try assumption.
      intros b' x Hb' Hx HNx Hgx.
      split;
        exact (proj1 (@RoundFacts.diffusion_double_R b' n x 1 [0%nat]
                        Hb' Hn Hx HNx Hgx (Permutation_refl _))).
    + intros T o1 o2 H1 H2.
      apply (@RoundFacts.diffusion_twice_double_R b n a
               (fun x => diffusion_parallel o1 x T)
               (fun x => diffusion_parallel o2 x T));
        try assumption.
      intros b' x Hb' Hx HNx Hgx. split.
      * exact (proj2 (@RoundFacts.diffusion_double_R b' n x T o1
                        Hb' Hn Hx HNx Hgx H1)).
      * exact (proj2 (@RoundFacts.diffusion_double_R b' n x T o2
                        Hb' Hn Hx HNx Hgx H2)).
  - change (0 + 17 - 50) with (Z.opp 33). change (0 - 51) with (Z.opp 51).
    rewrite !RoundFacts.pow2_opp by lia.
    change (2 ^ 33) with 8589934592. change (2 ^ 51) with 2251799813685248.
    lra.
  - change (0 + 24 - 50) with (Z.opp 26). change (0 - 51) with (Z.opp 51).
    rewrite !RoundFacts.pow2_opp by lia.
    change (2 ^ 26) with 67108864. change (2 ^ 51) with 2251799813685248.
    lra.
Qed.

Lemma diffusion_twice_identity_witness :
  (1 <= length [1; 2; 3]%R)%nat /\
  diffusion_serial (diffusion_serial [1; 2; 3]%R) = [1; 2; 3]%R /\
  -900 <= 0 <= 898 /\ 0 <= 2 <= 40 /\
  (1 <= length uniform4)%nat /\ Z.of_nat (length uniform4) <= 2 ^ 2 /\
  Forall (good (pow2 0)) uniform4 /\
  approx (7 * pow2 (0 + 2 - 50) + 21 * pow2 (0 - 51))
    (map B2R uniform4) (diffusion_serial (diffusion_serial uniform4)).
Proof.
  assert (H1 : (1 <= length [1; 2; 3]%R)%nat) by (cbn; lia).
  assert (H2 : -900 <= 0 <= 898) by lia.
  assert (H3 : 0 <= 2 <= 40) by lia.
  assert (H4 : (1 <= length uniform4)%nat) by (cbn; lia).
  assert (H5 : Z.of_nat (length uniform4) <= 2 ^ 2) by (cbn; lia).
  assert (Hh : good (pow2 0) Double.half).
  { split; [split; reflexivity | ].
    unfold Double.half. cbn [B2R signR].
    change (-53) with (Z.opp 53). rewrite RoundFacts.pow2_opp by lia.
    change (2 ^ 53) with 9007199254740992. rewrite RoundFacts.pow2_0.
    rewrite Rabs_pos_eq; lra. }
  assert (H6 : Forall (good (pow2 0)) uniform4)
    by (unfold uniform4; repeat (apply Forall_cons; [exact Hh | ]);
        apply Forall_nil).
  split; [exact H1 | ].
  split; [exact (proj1 (proj1 diffusion_twice_identity [1; 2; 3]%R H1)) | ].
  split; [exact H2 | split; [exact H3 | split; [exact H4 | ]]].
  split; [exact H5 | split; [exact H6 | ]].
  exact (proj1 (proj1 (proj2 diffusion_twice_identity) 0 2 uniform4
                  H2 H3 H4 H5 H6)).
Defined.

(** In binary64 the statement fails without a bound on the magnitude:
    with two entries 2^1023 the sum overflows, the mean is infinite, and
    the second diffusion computes infinity minus infinity; no tolerance
    accepts the result. *)
Lemma diffusion_twice_overflows :
  let big : double := S754_finite false 4503599627370496 971 in
  Forall number [big; big] /\
  diffusion_serial [big; big] = [S754_infinity false; S754_infinity false] /\
  diffusion_serial (diffusion_serial [big; big]) = [S754_nan; S754_nan] /\
  diffusion_parallel [0%nat; 1%nat]
    (diffusion_parallel [0%nat; 1%nat] [big; big] 2) 2 = [S754_nan; S754_nan] /\
  (forall tol : double, within tol S754_nan big = false).
Proof.
  cbv zeta.
  split; [repeat constructor | ].
  split; [evaluate | ].
  split; [evaluate | ].
  split; [evaluate | intros tol; reflexivity].
Qed.

(** ** A single amplitude in doubles *)

Lemma omp_reduction_one_amplitude (x : double) (order : list nat) (T : nat) :
  Double.add Double.zero x = x -> Double.add x Double.zero = x ->
  (1 <= T)%nat -> Permutation order (seq 0 T) ->
  omp_reduction order (static_chunks T [x]) = x.
Proof.
  intros H0x Hx0 HT Hord.
  destruct (@concat_single _ _ _ (static_chunks_concat [x] HT))
    as (c1 & c2 & Hc & H1 & H2).
  assert (Hlen : length (static_chunks T [x]) = T)
    by apply static_chunks_length.
  unfold omp_reduction. rewrite Hc in *.
  set (partial := map accumulate (c1 ++ [x] :: c2)).
  assert (Hp : Permutation
                 (map (fun t => nth t partial fzero) order)
                 (x :: map accumulate (c1 ++ c2))).
  { etransitivity.
    - apply map_nth_Permutation. unfold partial. now rewrite length_map, Hlen.
    - unfold partial. rewrite !map_app. cbn [map].
      change (@accumulate double _ [x]) with (Double.add Double.zero x).
      rewrite H0x. apply Permutation_sym, Permutation_middle. }
  assert (Hz : Forall (fun y : double => y = Double.zero)
                 (map accumulate (c1 ++ c2))).
  { apply Forall_map, Forall_app. split;
      [ eapply Forall_impl; [ | exact H1] | eapply Forall_impl; [ | exact H2] ];
      intros c ->; reflexivity. }
  destruct (Permutation_vs_cons_inv Hp) as (l1 & l2 & Hl).
  rewrite Hl in Hp |- *.
  apply Permutation_sym, Permutation_cons_app_inv in Hp.
  pose proof (Permutation_Forall Hp Hz) as Hz'.
  apply Forall_app in Hz' as [Hz1 Hz2].
  rewrite fold_left_app. cbn [fold_left].
  change (@fadd double Arith_double) with Double.add.
  change (@fzero double Arith_double) with Double.zero.
  rewrite (fold_add_zeros Hz1) by reflexivity.
  rewrite H0x. now rewrite (fold_add_zeros Hz2).
Qed.

Lemma single_amplitude_double (x : double) :
  number x -> x <> S754_zero true -> (Rabs (B2R x) < pow2 1023)%R ->
  Double.add Double.zero x = x /\ Double.add x Double.zero = x /\
  Double.sub (Double.mul Double.two (Double.div x Double.one)) x = x.
Proof.
  intros [Fx Vx] Hnz Hv.
  destruct x as [[ | ] | sx | | sx mx ex]; try discriminate.
  - now contradiction Hnz.
  - repeat split; reflexivity.
  - split; [reflexivity | ]. split; [reflexivity | ].
    rewrite RoundFacts.div_one_exact by exact Vx.
    now apply RoundFacts.twice_minus_exact.
Qed.

Lemma diffusion_single_exact (x : double) (parallel : bool)
    (order : list nat) (threads : Z) :
  number x -> x <> S754_zero true -> (Rabs (B2R x) < pow2 1023)%R ->
  arrival_order threads order ->
  (if parallel then diffusion_parallel order [x] threads
   else diffusion_serial [x]) = [x].
Proof.
  intros Nx Hnz Hv Hord.
  destruct (single_amplitude_double Nx Hnz Hv) as (H0x & Hx0 & Hd).
  assert (Hone : @of_size double _ (Z.of_nat (length [x])) = Double.one)
    by (vm_compute; reflexivity).
  destruct parallel.
  - unfold diffusion_parallel. rewrite Hone.
    rewrite (omp_reduction_one_amplitude H0x Hx0 (omp_team_pos threads) Hord).
    unfold reflect. cbn [map]. f_equal. exact Hd.
  - unfold diffusion_serial. rewrite Hone.
    change (@accumulate double _ [x]) with (Double.add Double.zero x).
    rewrite H0x. unfold reflect. cbn [map]. f_equal. exact Hd.
Qed.

Lemma opp_number (x : double) :
  number x -> number (Double.opp x) /\ B2R (Double.opp x) = (- B2R x)%R.
Proof.
  intros [Fx Vx]. destruct x as [s | s | | s m e]; try discriminate.
  - split; [split; reflexivity | cbn; lra].
  - split; [split; [reflexivity | exact Vx] | ].
    cbn [Double.opp SFopp B2R]. destruct s; cbn [negb signR]; lra.
Qed.

(** In binary64 the diffusion of a single amplitude is not always a
    no-op: at 2^1023 the product 2.0 * mean overflows and the amplitude
    becomes infinite, an infinite amplitude becomes NaN, and -0.0 comes
    back as +0.0. *)
Lemma single_amplitude_overflows :
  let big : double := S754_finite false 4503599627370496 971 in
  number big /\ B2R big = pow2 1023 /\
  diffusion_serial [big] = [S754_infinity false] /\
  diffusion_parallel [0%nat] [big] 1 = [S754_infinity false] /\
  diffusion_serial [S754_zero true] = [S754_zero false] /\
  diffusion_serial [S754_infinity false] = [S754_nan].
Proof.
  cbv zeta. split; [split; reflexivity | ]. split.
  - cbn [B2R signR]. change (IZR 4503599627370496) with (IZR (2 ^ 52)).
    rewrite <- RoundFacts.pow2_IZR, <- RoundFacts.pow2_add by lia.
    reflexivity.
  - repeat split; vm_compute; reflexivity.
Qed.

(** C8, as amended: with a single amplitude the diffusion changes
    nothing, the oracle negates the amplitude, and k rounds of the driver
    leave the magnitude as it is and flip the sign k times: for every real
    amplitude in exact arithmetic; in binary64 for every amplitude that is
    a number of magnitude below 2^1023 other than -0.0 (bit for bit,
    serial or parallel with any team and order of arrival), hence for the
    amplitude 1.0 that the driver starts from at N = 1. *)
Theorem single_amplitude_alternates :
  (forall x : R,
     diffusion_serial [x] = [x] /\
     oracle [x] 0 = Some [Ropp x] /\
     forall (sched : nat -> list nat) (parallel : bool) (threads : Z)
            (k it : nat),
       (forall i : nat, arrival_order threads (sched i)) ->
       diffusion_parallel (sched it) [x] threads = [x] /\
       grover_loop sched 0 parallel threads k it [x]
       = Some [((-1) ^ k * x)%R]) /\
  (forall x : double,
     number x -> x <> S754_zero true -> (Rabs (B2R x) < pow2 1023)%R ->
     diffusion_serial [x] = [x] /\
     oracle [x] 0 = Some [Double.opp x] /\
     forall (threads : Z) (order : list nat),
       arrival_order threads order ->
       diffusion_parallel order [x] threads = [x]) /\
  (forall (s : bool) (m : positive) (e : Z) (sched : nat -> list nat)
          (parallel : bool) (threads : Z) (k it : nat),
     number (S754_finite s m e) ->
     (Rabs (B2R (S754_finite s m e)) < pow2 1023)%R ->
     (forall i : nat, arrival_order threads (sched i)) ->
     grover_loop sched 0 parallel threads k it [S754_finite s m e]
     = Some [S754_finite (if Nat.even k then s else negb s) m e]) /\
  init_state 1 = [Double.one] /\
  forall (sched : nat -> list nat) (parallel : bool) (threads : Z)
         (k it : nat),
    (forall i : nat, arrival_order threads (sched i)) ->
    grover_loop sched 0 parallel threads k it (init_state 1)
    = Some [if Nat.even k then Double.one else Double.opp Double.one].
Proof.
  assert (Hloop :
    forall (s : bool) (m : positive) (e : Z) (sched : nat -> list nat)
           (parallel : bool) (threads : Z) (k it : nat),
      number (S754_finite s m e) ->
      (Rabs (B2R (S754_finite s m e)) < pow2 1023)%R ->
      (forall i : nat, arrival_order threads (sched i)) ->
      grover_loop sched 0 parallel threads k it [S754_finite s m e]
      = Some [S754_finite (if Nat.even k then s else negb s) m e]).
  { intros s m e sched parallel threads k it Nx Hv Hs.
    rewrite (@single_rounds double Arith_double (S754_finite s m e)
               sched parallel threads).
    - rewrite iter_opp. now destruct (Nat.even k).
    - cbn. now rewrite negb_involutive.
    - intros i y [-> | ->].
      + apply diffusion_single_exact; [exact Nx | discriminate | exact Hv | apply Hs].
      + destruct (opp_number Nx) as [No Eo].
        apply diffusion_single_exact; [exact No | discriminate | | apply Hs].
        change (@fneg double _ (S754_finite s m e))
          with (Double.opp (S754_finite s m e)).
        now rewrite Eo, Rabs_Ropp.
    - now left. }
  split; [ | split; [ | split; [exact Hloop | split; [exact init_state_one | ]]]].
  - intros x. split; [apply diffusion_serial_single_R | ]. split; [reflexivity | ].
    intros sched parallel threads k it Hs. split.
    + rewrite diffusion_parallel_R by apply Hs.
      apply diffusion_serial_single_R.
    + rewrite <- iter_Ropp.
      apply (@single_rounds R Arith_R x sched parallel threads).
      * cbn [fneg Arith_R]. lra.
      * intros i y _. destruct parallel.
        -- rewrite diffusion_parallel_R by apply Hs.
           apply diffusion_serial_single_R.
        -- apply diffusion_serial_single_R.
      * now left.
  - intros x Nx Hnz Hv. split; [ | split; [reflexivity | ]].
    + exact (@diffusion_single_exact x false [0%nat] 1 Nx Hnz Hv
               (Permutation_refl _)).
    + intros threads order Hord.
      exact (@diffusion_single_exact x true order threads Nx Hnz Hv Hord).
  - intros sched parallel threads k it Hs. rewrite init_state_one.
    change Double.one with (S754_finite false 4503599627370496 (-52)).
    rewrite Hloop; [now destruct (Nat.even k) | split; reflexivity | | exact Hs].
    cbn [B2R signR]. change (IZR 4503599627370496) with (IZR (2 ^ 52)).
    rewrite <- RoundFacts.pow2_IZR, <- RoundFacts.pow2_add by lia.
    rewrite Rabs_pos_eq by (apply Rlt_le, RoundFacts.pow2_pos).
    apply RoundFacts.pow2_lt. lia.
Qed.

Lemma single_amplitude_alternates_witness :
  number Double.half /\ Double.half <> S754_zero true /\
  (Rabs (B2R Double.half) < pow2 1023)%R /\
  diffusion_serial [Double.half] = [Double.half].
Proof.
  assert (H1 : number Double.half) by (split; reflexivity).
  assert (H2 : Double.half <> S754_zero true) by discriminate.
  assert (H3 : (Rabs (B2R Double.half) < pow2 1023)%R).
  { unfold Double.half. cbn [B2R signR].
    change (IZR 4503599627370496) with (IZR (2 ^ 52)).
    rewrite <- RoundFacts.pow2_IZR, <- RoundFacts.pow2_add by lia.
    rewrite Rabs_pos_eq by (apply Rlt_le, RoundFacts.pow2_pos).
    apply RoundFacts.pow2_lt. lia. }
  split; [exact H1 | split; [exact H2 | split; [exact H3 | ]]].
  exact (proj1 (proj1 (proj2 single_amplitude_alternates) Double.half
                  H1 H2 H3)).
Defined.

(** ** Teams of one or two threads *)

Lemma shr_fexp_above (m e : Z) (l : location) :
  -1074 <= snd (shr_fexp Double.prec Double.emax m e l).
Proof.
  unfold shr_fexp, shr. rewrite RoundFacts.fexp_eq.
  destruct (Z.max (Zdigits2 m + e - 53) (-1074) - e) eqn:E; cbn [snd]; lia.
Qed.

Lemma binary_round_aux_above (s : bool) (m e : Z) (l : location) :
  above_emin (binary_round_aux Double.prec Double.emax s m e l).
Proof.
  unfold binary_round_aux.
  destruct (shr_fexp Double.prec Double.emax m e l) as [mrs' e'].
  pose proof (shr_fexp_above
                (round_nearest_even (shr_m mrs') (loc_of_shr_record mrs'))
                e' loc_Exact) as H.
  destruct (shr_fexp Double.prec Double.emax
              (round_nearest_even (shr_m mrs') (loc_of_shr_record mrs'))
              e' loc_Exact) as [mrs'' e''].
  cbn [snd] in H.
  destruct (shr_m mrs''); cbn [above_emin]; try exact I.
  destruct (e'' <=? Double.emax - Double.prec); cbn [above_emin];
    [exact H | exact I].
Qed.

Lemma mul_above (x y : double) : above_emin (Double.mul x y).
Proof.
  destruct x as [sx | sx | | sx mx ex], y as [sy | sy | | sy my ey];
    try exact I.
  apply binary_round_aux_above.
Qed.

Lemma div_above (x y : double) : above_emin (Double.div x y).
Proof.
  destruct x as [sx | sx | | sx mx ex], y as [sy | sy | | sy my ey];
    try exact I.
  unfold Double.div. cbn [SFdiv].
  destruct (SFdiv_core_binary Double.prec Double.emax (Z.pos mx) ex
              (Z.pos my) ey) as [[mz ez] lz].
  apply binary_round_aux_above.
Qed.

Lemma binary_normalize_above (m e : Z) :
  above_emin (binary_normalize Double.prec Double.emax m e false).
Proof.
  destruct m as [ | p | p]; cbn [binary_normalize]; [exact I | | ];
    unfold binary_round;
    destruct (shl_align p e _) as [mz ez]; apply binary_round_aux_above.
Qed.

Lemma sub_above (x y : double) :
  above_emin x -> above_emin y -> above_emin (Double.sub x y).
Proof.
  destruct x as [sx | sx | | sx mx ex], y as [sy | sy | | sy my ey];
    intros Hx Hy; try exact I; try assumption.
  - destruct sx, sy; exact I.
  - destruct sx, sy; exact I.
  - apply binary_normalize_above.
Qed.

Lemma opp_above (x : double) : above_emin x -> above_emin (Double.opp x).
Proof. destruct x; intros H; exact H. Qed.

Lemma reflect_above (mean : double) (a : list double) :
  Forall above_emin a -> Forall above_emin (reflect mean a).
Proof.
  intros H. unfold reflect. apply Forall_map.
  apply Forall_impl with (2 := H). intros x Hx.
  apply sub_above; [apply mul_above | exact Hx].
Qed.

Lemma oracle_above (a a' : list double) (target : nat) :
  oracle a target = Some a' -> Forall above_emin a -> Forall above_emin a'.
Proof.
  intros Ho H. destruct (oracle_inv _ _ Ho) as (x & E & ->).
  apply Forall_app. split; [apply Forall_block, H | ].
  constructor; [ | apply Forall_block, H].
  apply opp_above. rewrite Forall_forall in H. apply H.
  eapply nth_error_In, E.
Qed.

Lemma init_state_above (N : nat) : Forall above_emin (init_state N).
Proof.
  unfold init_state. apply Forall_forall. intros x Hx.
  apply repeat_spec in Hx. subst x. apply div_above.
Qed.

Lemma zero_add_accumulate_above (a : list double) :
  Forall above_emin a ->
  Double.add Double.zero (accumulate a) = accumulate a.
Proof.
  intros Ha.
  assert (H : forall acc : double,
            above_emin acc -> not_neg_zero acc ->
            not_neg_zero (fold_left Double.add a acc)).
  { induction Ha as [ | x a Hx _ IH]; intros acc H1 H2; cbn [fold_left].
    - exact H2.
    - destruct (@DoubleFacts.add_invariant acc x H1 H2 Hx). now apply IH. }
  specialize (H Double.zero I ltac:(discriminate)).
  change (fold_left Double.add a Double.zero) with (@accumulate double _ a) in H.
  unfold not_neg_zero in H.
  destruct (accumulate a) as [[ | ] | | | ]; try reflexivity.
  now contradiction H.
Qed.

Lemma reduction_small_team (a : list double) (T : Z) (o1 o2 : list nat) :
  T <= 2 -> arrival_order T o1 -> arrival_order T o2 ->
  Forall above_emin a ->
  omp_reduction o1 (static_chunks (omp_team T) a)
  = omp_reduction o2 (static_chunks (omp_team T) a).
Proof.
  intros HT H1 H2 Ha. unfold arrival_order in H1, H2.
  assert (Hteam : omp_team T = 1%nat \/ omp_team T = 2%nat)
    by (unfold omp_team; lia).
  destruct Hteam as [E | E]; rewrite E in *.
  - cbn [seq] in H1, H2.
    apply Permutation_sym, Permutation_length_1_inv in H1.
    apply Permutation_sym, Permutation_length_1_inv in H2.
    now subst.
  - assert (Hc : forall o : list nat,
              Permutation o (seq 0 2) ->
              omp_reduction o (static_chunks 2 a)
              = omp_reduction [0; 1]%nat (static_chunks 2 a)).
    { intros o Ho. apply perms_complete in Ho. cbn in Ho.
      destruct Ho as [<- | [<- | []]]; [reflexivity | ].
      unfold static_chunks, static_sizes. change (seq 0 2) with [0; 1]%nat.
      cbn [map split_sizes].
      set (c0 := firstn _ a). set (c1 := firstn _ (skipn _ a)).
      assert (H0 : Forall above_emin c0) by (apply Forall_block, Ha).
      assert (H3 : Forall above_emin c1)
        by (apply Forall_block, Forall_block, Ha).
      unfold omp_reduction. cbn [map nth fold_left].
      change (@fadd double _) with Double.add.
      change (@fzero double _) with Double.zero.
      rewrite !zero_add_accumulate_above by assumption.
      apply add_comm. }
    now rewrite (Hc o1 H1), (Hc o2 H2).
Qed.

Lemma grover_loop_small_team (s1 s2 : nat -> list nat) (target : nat)
    (T : Z) (k : nat) :
  T <= 2 ->
  (forall i : nat, arrival_order T (s1 i)) ->
  (forall i : nat, arrival_order T (s2 i)) ->
  forall (it : nat) (a : list double),
    Forall above_emin a ->
    grover_loop s1 target true T k it a = grover_loop s2 target true T k it a.
Proof.
  intros HT H1 H2. induction k as [ | k IH]; intros it a Ha;
    cbn [grover_loop]; [reflexivity | ].
  destruct (oracle a target) as [a1 | ] eqn:Ho; [ | reflexivity].
  pose proof (oracle_above _ Ho Ha) as Ha1.
  assert (E : diffusion_parallel (s1 it) a1 T = diffusion_parallel (s2 it) a1 T).
  { unfold diffusion_parallel.
    now rewrite (@reduction_small_team a1 T (s1 it) (s2 it) HT (H1 it) (H2 it)). }
  rewrite E. apply IH. unfold diffusion_parallel. now apply reflect_above.
Qed.

Lemma single_run_same (e1 e2 : env) (mode : string) (N : Z)
    (parallel : bool) (threads : Z) :
  libc_rand e1 1 0 = libc_rand e2 1 0 ->
  (forall bytes : Z, malloc_ok e1 bytes = malloc_ok e2 bytes) ->
  (forall target rounds : nat,
     grover_loop (fun it => omp_sched e1 it) target parallel threads rounds 0
       (init_state (F := double) (Z.to_nat N))
     = grover_loop (fun it => omp_sched e2 it) target parallel threads rounds 0
         (init_state (Z.to_nat N))) ->
  observable (single_run e1 world0 mode N parallel threads)
  = observable (single_run e2 world0 mode N parallel threads).
Proof.
  intros Hr Hm Hloop. unfold single_run.
  destruct (is_power_of_two N); cbn [negb]; [ | reflexivity].
  destruct (grover_iterations N) as [iterations | ]; [ | reflexivity].
  rewrite !rand_first, Hr.
  unfold run_grover_once. rewrite Hm.
  destruct (malloc_ok e2 ((sizeof_double * N) mod 2 ^ 64)); cbn [negb];
    [ | unfold observable, put_out, put_err;
        cbn [clock_reads rng_seed rng_calls omp_regions out err csv runs];
        rewrite !map_app; reflexivity].
  destruct ((sizeof_double * N) mod 2 ^ 64 <? sizeof_double * N);
    [reflexivity | ].
  cbn [omp_regions]. rewrite Hloop.
  destruct (grover_loop _ _ _ _ _ _ _); [ | reflexivity].
  unfold observable, put_out.
  cbn [clock_reads rng_seed rng_calls omp_regions out err csv runs].
  rewrite !map_app. reflexivity.
Qed.

(** Two runs of [parallel 32 4] that differ only in the order in which
    the four threads reach the end of the reduction choose the same target
    and end with different vectors. *)
Lemma single_run_depends_on_arrival :
  libc_rand env0 1 0 = libc_rand env_reversed 1 0 /\
  (forall bytes : Z, malloc_ok env0 bytes = malloc_ok env_reversed bytes) /\
  (forall i : nat, arrival_order 4 (omp_sched env0 i)) /\
  (forall i : nat, arrival_order 4 (omp_sched env_reversed i)) /\
  option_map (fun sw : Z * world => (fst sw, map run_target (runs (snd sw))))
    (observable (main env0 ["grover"; "parallel"; "32"; "4"]))
  = Some (0, [6]) /\
  option_map (fun sw : Z * world => (fst sw, map run_target (runs (snd sw))))
    (observable (main env_reversed ["grover"; "parallel"; "32"; "4"]))
  = Some (0, [6]) /\
  option_map (fun sw : Z * world => map run_vector (runs (snd sw)))
    (observable (main env0 ["grover"; "parallel"; "32"; "4"]))
  <> option_map (fun sw : Z * world => map run_vector (runs (snd sw)))
       (observable (main env_reversed ["grover"; "parallel"; "32"; "4"])).
Proof.
  split; [reflexivity | ]. split; [reflexivity | ].
  split; [intros i; apply Permutation_refl | ].
  split.
  { intros i. unfold arrival_order.
    change (seq 0 (omp_team 4)) with [0; 1; 2; 3]%nat.
    change (omp_sched env_reversed _) with (rev [0; 1; 2; 3]%nat).
    apply Permutation_sym, Permutation_rev. }
  split; [vm_compute; reflexivity | ].
  split; [vm_compute; reflexivity | ].
  intros H. vm_compute in H. discriminate.
Qed.

(** C10, as amended: a single run draws its target as [rand() % N] from
    the generator in its initial state, so two processes given the same
    arguments (on the same C library, with the same allocation results)
    choose the same target, whatever their clocks, [time(NULL)] and thread
    schedules are; only the sweep seeds the generator from the time.  Two
    [serial] runs then go through identical states and differ only in the
    times they measure; so do two [parallel] runs with a thread count of at
    most 2, or with the same orders of arrival of the threads.  With more
    threads the states depend on the order of arrival. *)
Theorem single_run_target_deterministic (e1 e2 : env) (prog s t : string)
    (rest : list string) :
  libc_rand e1 1 0 = libc_rand e2 1 0 ->
  (forall bytes : Z, malloc_ok e1 bytes = malloc_ok e2 bytes) ->
  observable (main e1 (prog :: "serial" :: s :: rest))
  = observable (main e2 (prog :: "serial" :: s :: rest)) /\
  ((forall i : nat, omp_sched e1 i = omp_sched e2 i) \/
   (atoi t <= 2 /\
    (forall i : nat, arrival_order (atoi t) (omp_sched e1 i)) /\
    (forall i : nat, arrival_order (atoi t) (omp_sched e2 i))) ->
   observable (main e1 (prog :: "parallel" :: s :: t :: rest))
   = observable (main e2 (prog :: "parallel" :: s :: t :: rest))) /\
  (is_power_of_two (to_size_t (atoll s)) = true ->
   to_size_t (atoll s) < 2 ^ 61 ->
   forall argv : list string,
     argv = prog :: "serial" :: s :: rest \/
     argv = prog :: "parallel" :: s :: t :: rest ->
     exists (w1 w2 : world) (r1 r2 : run_info),
       main e1 argv = Ok 0 w1 /\ main e2 argv = Ok 0 w2 /\
       runs w1 = [r1] /\ runs w2 = [r2] /\
       run_target r1 = (libc_rand e1 1 0 mod 2 ^ 31) mod to_size_t (atoll s) /\
       run_target r2 = run_target r1 /\
       rng_seed w1 = 1 /\ rng_seed w2 = 1) /\
  (forall (status : Z) (w : world),
     fopen_ok e1 = true -> sweep e1 = Ok status w ->
     rng_seed w = time_null e1 mod 2 ^ 32 /\ rng_calls w = 0%nat).
Proof.
  intros Hr Hm.
  split; [ | split; [ | split]].
  - rewrite !main_serial_args. apply single_run_same; [exact Hr | exact Hm | ].
    intros target rounds.
    generalize (init_state (F := double)
                  (Z.to_nat (to_size_t (atoll s)))) 0%nat.
    induction rounds as [ | k IH]; intros a it; cbn [grover_loop];
      [reflexivity | ].
    destruct (oracle a target); [apply IH | reflexivity].
  - intros Hs. rewrite !main_parallel_args.
    apply single_run_same; [exact Hr | exact Hm | ].
    intros target rounds. destruct Hs as [Hs | (Ht & H1 & H2)].
    + apply grover_loop_ext. intros i _. apply Hs.
    + apply grover_loop_small_team; [exact Ht | exact H1 | exact H2 | ].
      apply init_state_above.
  - intros Hp HN argv Hargv.
    assert (HN' : 0 <= to_size_t (atoll s) < 2 ^ 61).
    { split; [ | exact HN]. unfold to_size_t. apply Z.mod_pos_bound. lia. }
    assert (HN64 : 0 <= to_size_t (atoll s) < 2 ^ 64) by lia.
    assert (Hboth : forall (mode : string) (parallel : bool) (threads : Z),
              exists (w1 w2 : world) (r1 r2 : run_info),
                single_run e1 world0 mode (to_size_t (atoll s)) parallel threads
                = Ok 0 w1 /\
                single_run e2 world0 mode (to_size_t (atoll s)) parallel threads
                = Ok 0 w2 /\
                runs w1 = [r1] /\ runs w2 = [r2] /\
                run_target r1
                = (libc_rand e1 1 0 mod 2 ^ 31) mod to_size_t (atoll s) /\
                run_target r2 = run_target r1 /\
                rng_seed w1 = 1 /\ rng_seed w2 = 1).
    { intros mode parallel threads.
      destruct (@single_run_outcome e1 mode _ parallel threads Hp HN')
        as (_ & t1 & w1 & v1 & E1 & _ & R1 & _).
      destruct (@single_run_outcome e2 mode _ parallel threads Hp HN')
        as (_ & t2 & w2 & v2 & E2 & _ & R2 & _).
      destruct (@single_run_target e1 mode _ parallel threads 0 w1 HN64 E1)
        as [S1 _].
      destruct (@single_run_target e2 mode _ parallel threads 0 w2 HN64 E2)
        as [S2 _].
      eexists w1, w2, _, _.
      split; [exact E1 | ]. split; [exact E2 | ].
      split; [exact R1 | ]. split; [exact R2 | ].
      cbn [run_target]. rewrite Hr. repeat split; assumption. }
    destruct Hargv as [-> | ->].
    + rewrite !main_serial_args. apply Hboth.
    + rewrite !main_parallel_args. apply Hboth.
  - intros status w. apply sweep_seeds_from_time.
Qed.

Lemma single_run_target_deterministic_witness :
  libc_rand env0 1 0 = libc_rand env_reversed 1 0 /\
  (forall bytes : Z, malloc_ok env0 bytes = malloc_ok env_reversed bytes) /\
  observable (main env0 ["grover"; "serial"; "8"])
  = observable (main env_reversed ["grover"; "serial"; "8"]).
Proof.
  assert (H1 : libc_rand env0 1 0 = libc_rand env_reversed 1 0) by reflexivity.
  assert (H2 : forall bytes : Z,
            malloc_ok env0 bytes = malloc_ok env_reversed bytes)
    by reflexivity.
  split; [exact H1 | split; [exact H2 | ]].
  exact (proj1 (@single_run_target_deterministic env0 env_reversed
                  "grover" "8" "2" [] H1 H2)).
Defined.

(** ** The iteration count of the stand-alone programs *)

Lemma sqrt_core_spec (m : positive) (e : Z) :
  exists (q e' : Z) (l : location),
    SFsqrt_core_binary Double.prec Double.emax (Z.pos m) e = (q, e', l) /\
    0 <= q /\ e' <= fexp Double.prec Double.emax (Zdigits2 q + e') /\
    (IZR q * pow2 e' * (IZR q * pow2 e') <= IZR (Z.pos m) * pow2 e)%R.
Proof.
  unfold SFsqrt_core_binary.
  set (d := Zdigits2 (Z.pos m)).
  set (e' := Z.min (fexp Double.prec Double.emax (Z.div2 (d + e + 1)))
               (Z.div2 e)).
  set (s := e - 2 * e').
  assert (Ee : e' = Z.min (Z.max ((d + e + 1) / 2 - 53) (-1074)) (e / 2)).
  { unfold e'. rewrite RoundFacts.fexp_eq, !Z.div2_div. reflexivity. }
  assert (Es : s = e - 2 * e') by reflexivity.
  set (m' := match s with
             | 0 => Z.pos m
             | Z.pos _ => Z.shiftl (Z.pos m) s
             | Z.neg _ => 0
             end).
  clearbody s e'.
  assert (Hs : 0 <= s).
  { pose proof (Z.mul_div_le e 2 ltac:(lia)). lia. }
  assert (Hm' : m' = Z.pos m * 2 ^ s).
  { unfold m'. destruct s as [ | p | p]; try lia.
    now rewrite Z.shiftl_mul_pow2 by lia. }
  clearbody m'.
  assert (Hps : 0 < 2 ^ s) by (apply Z.pow_pos_nonneg; lia).
  assert (Hm0 : 0 <= m') by nia.
  pose proof (Z.sqrtrem_spec m' Hm0) as Hsp.
  pose proof (Z.sqrtrem_sqrt m') as Hsq.
  destruct (Z.sqrtrem m') as [q r]. cbn [fst] in Hsq.
  destruct Hsp as [Hqr Hr].
  eexists q, e', _. split; [reflexivity | ].
  assert (Hq : 0 <= q) by (rewrite Hsq; apply Z.sqrt_nonneg).
  split; [exact Hq | ]. split.
  - destruct (@RoundFacts.Zdigits2_bounds (Z.pos m) ltac:(lia)) as [Lo _].
    pose proof (@RoundFacts.Zdigits2_pos (Z.pos m) ltac:(lia)) as D.
    fold d in Lo, D.
    set (j := (d - 1 + s) / 2).
    assert (Hj : 0 <= j) by (apply Z.div_pos; lia).
    assert (Hjq : 2 ^ j <= q).
    { rewrite Hsq. apply Z.sqrt_le_square; [lia | apply Z.pow_nonneg; lia | ].
      rewrite <- Z.pow_add_r by lia.
      apply Z.le_trans with (2 ^ (d - 1) * 2 ^ s); [ | nia].
      rewrite <- Z.pow_add_r by lia. apply Z.pow_le_mono_r; [lia | ].
      unfold j. pose proof (Z.mul_div_le (d - 1 + s) 2 ltac:(lia)). lia. }
    pose proof (RoundFacts.Zdigits2_ge Hjq Hj) as Hdq.
    rewrite RoundFacts.fexp_eq.
    assert (Hdiv : (d + e + 1) / 2 <= j + 1 + e').
    { unfold j. rewrite Es.
      replace (d - 1 + (e - 2 * e')) with (d - 1 + e + (- e') * 2) by lia.
      rewrite Z.div_add by lia.
      replace (d + e + 1) with (d - 1 + e + 1 * 2) by lia.
      rewrite Z.div_add by lia. lia. }
    lia.
  - assert (Hsq2 : q * q <= m') by lia.
    apply IZR_le in Hsq2. rewrite mult_IZR, Hm', mult_IZR in Hsq2.
    rewrite <- RoundFacts.pow2_IZR in Hsq2 by lia.
    replace e with (s + (e' + e')) by lia. rewrite !RoundFacts.pow2_add.
    pose proof (RoundFacts.pow2_pos e') as Pe.
    replace (IZR q * pow2 e' * (IZR q * pow2 e'))%R
      with (IZR q * IZR q * (pow2 e' * pow2 e'))%R by ring.
    replace (IZR (Z.pos m) * (pow2 s * (pow2 e' * pow2 e')))%R
      with (IZR (Z.pos m) * pow2 s * (pow2 e' * pow2 e'))%R by ring.
    apply Rmult_le_compat_r; [nra | exact Hsq2].
Qed.

Lemma sqrt_bound (m : positive) (e k : Z) :
  (IZR (Z.pos m) * pow2 e < pow2 k * pow2 k)%R -> -1021 <= k <= 1023 ->
  number (Double.sqrt (S754_finite false m e)) /\
  (Rabs (B2R (Double.sqrt (S754_finite false m e))) <= 2 * pow2 k)%R.
Proof.
  intros Hv Hk. unfold Double.sqrt. cbn [SFsqrt].
  destruct (sqrt_core_spec m e) as (q & e' & l & -> & Hq & Hal & Hsq).
  pose proof (RoundFacts.pow2_pos e') as Pe. pose proof (RoundFacts.pow2_pos k) as Pk.
  assert (Hq0 : (0 <= IZR q)%R) by (apply IZR_le; exact Hq).
  assert (Hlt : (IZR q * pow2 e' < pow2 k)%R).
  { destruct (Rlt_le_dec (IZR q * pow2 e') (pow2 k)) as [ | Hge];
      [assumption | exfalso].
    assert (pow2 k * pow2 k <= IZR q * pow2 e' * (IZR q * pow2 e'))%R
      by (apply Rmult_le_compat; lra).
    lra. }
  destruct (@RoundFacts.binary_round_aux_R false q e' l (IZR q * pow2 e')%R k
              Hq Hal) as (N & E & _);
    [rewrite plus_IZR; nra | exact Hlt | exact Hk | ].
  split; [exact N | ].
  cbn [signR] in E.
  pose proof (@RoundFacts.pow2_le (k - 53) k ltac:(lia)) as Hu.
  assert (Hv0 : (0 <= IZR q * pow2 e')%R) by nra.
  apply RoundFacts.Rabs_le_iff in E. apply RoundFacts.Rabs_le_iff. lra.
Qed.

Lemma trunc_bound (x : double) :
  number x ->
  exists z : Z, Double.trunc x = Some z /\ (Rabs (IZR z) <= Rabs (B2R x))%R.
Proof.
  intros [Fx Vx]. destruct x as [s | s | | s m e]; try discriminate.
  - exists 0. split; [reflexivity | ]. cbn [B2R]. rewrite Rabs_R0. lra.
  - cbn [Double.trunc B2R]. rewrite RoundFacts.signR_Rabs.
    pose proof (RoundFacts.pow2_pos e) as Pe.
    assert (Hm : (0 < IZR (Z.pos m))%R) by (apply IZR_lt; lia).
    rewrite (Rabs_pos_eq (IZR (Z.pos m) * pow2 e)) by nra.
    set (v := if s then Z.neg m else Z.pos m).
    assert (Hv : Z.abs v = Z.pos m) by (unfold v; destruct s; reflexivity).
    destruct (Z.leb_spec 0 e) as [He | He]; eexists; (split; [reflexivity | ]).
    + rewrite <- abs_IZR, Z.abs_mul, Hv, Z.abs_pow, mult_IZR.
      rewrite <- RoundFacts.pow2_IZR by lia. lra.
    + rewrite <- abs_IZR.
      assert (Hp : 0 < 2 ^ (- e)) by (apply Z.pow_pos_nonneg; lia).
      assert (Hq : Z.abs (Z.quot v (2 ^ (- e))) * 2 ^ (- e) <= Z.pos m).
      { rewrite <- Z.quot_abs by lia. rewrite Hv, (Z.abs_eq (2 ^ (- e))) by lia.
        rewrite Z.mul_comm. apply Z.mul_quot_le; lia. }
      apply IZR_le in Hq. rewrite mult_IZR in Hq.
      rewrite <- RoundFacts.pow2_IZR in Hq by lia.
      assert (Hpp : (pow2 (- e) * pow2 e = 1)%R).
      { rewrite <- RoundFacts.pow2_add. replace (- e + e) with 0 by lia.
        reflexivity. }
      pose proof (RoundFacts.pow2_pos (- e)) as Pne.
      set (A := IZR (Z.abs (Z.quot v (2 ^ (- e))))) in *.
      assert (HA : (A = A * pow2 (- e) * pow2 e)%R)
        by (rewrite Rmult_assoc, Hpp; ring).
      rewrite HA. apply Rmult_le_compat_r; lra.
Qed.

Lemma cpp_iterations_defined (n : Z) :
  0 < n < 2 ^ 31 ->
  exists iterations : Z,
    cpp_iterations n = Some iterations /\ - 2 ^ 31 <= iterations < 2 ^ 31.
Proof.
  intros Hn. unfold cpp_iterations.
  destruct (@RoundFacts.of_Z_R n ltac:(lia)) as [Nn En].
  assert (Hc : Double.div Double.M_PI Double.four
               = S754_finite false 7074237752028440 (-53))
    by (vm_compute; reflexivity).
  rewrite Hc.
  set (c := S754_finite false 7074237752028440 (-53)).
  assert (Nc : number c) by (split; reflexivity).
  assert (Bc : (Rabs (B2R c) <= 1)%R).
  { unfold c. cbn [B2R signR]. change (-53) with (Z.opp 53).
    rewrite RoundFacts.pow2_opp by lia. change (2 ^ 53) with 9007199254740992.
    rewrite Rabs_pos_eq; lra. }
  assert (Hpos : (0 < B2R (Double.of_Z n))%R)
    by (rewrite En; apply IZR_lt; lia).
  destruct (Double.of_Z n) as [s | s | | s m e] eqn:Eof;
    try (destruct Nn as [F _]; discriminate F);
    [cbn [B2R] in Hpos; lra | ].
  pose proof (RoundFacts.B2R_sign s m e) as Sg.
  destruct s; [lra | ].
  cbn [B2R signR] in En.
  assert (P16 : (pow2 16 * pow2 16 = 4294967296)%R).
  { rewrite <- RoundFacts.pow2_add. rewrite RoundFacts.pow2_IZR by lia.
    reflexivity. }
  destruct (@sqrt_bound m e 16) as [Ns Bs]; [ | lia | ].
  { rewrite En, P16. apply IZR_lt. lia. }
  set (r := Double.sqrt (S754_finite false m e)) in *.
  assert (P18 : pow2 18 = 262144%R)
    by (rewrite RoundFacts.pow2_IZR by lia; reflexivity).
  assert (P16' : pow2 16 = 65536%R)
    by (rewrite RoundFacts.pow2_IZR by lia; reflexivity).
  rewrite P16' in Bs.
  assert (Hprod : (Rabs (B2R c * B2R r) < pow2 18)%R).
  { rewrite Rabs_mult, P18.
    pose proof (Rabs_pos (B2R c)). pose proof (Rabs_pos (B2R r)). nra. }
  destruct (@RoundFacts.mul_R c r 18 Nc Ns Hprod ltac:(lia)) as [Np Ep].
  destruct (trunc_bound Np) as (z & -> & Hz).
  exists z. unfold Double.to_int.
  assert (Hu : (pow2 (18 - 53) <= 1)%R).
  { change 1%R with (pow2 0). apply RoundFacts.pow2_le. lia. }
  assert (Hzb : (Rabs (IZR z) < 262146)%R).
  { apply Rle_lt_trans with (Rabs (B2R (Double.mul c r))); [exact Hz | ].
    rewrite P18 in Hprod.
    apply RoundFacts.Rabs_le_iff in Ep. apply Rabs_def2 in Hprod.
    apply Rabs_def1; lra. }
  apply Rabs_def2 in Hzb as [Hz1 Hz2].
  rewrite <- opp_IZR in Hz2. apply lt_IZR in Hz1. apply lt_IZR in Hz2.
  replace ((- 2 ^ 31 <=? z) && (z <? 2 ^ 31)) with true.
  - split; [reflexivity | lia].
  - symmetry. apply andb_true_intro. split; [apply Z.leb_le | apply Z.ltb_lt]; lia.
Qed.

(** X13: the outcomes of [grover_serial [n]] and
    [grover_parallel [n] [threads]].  A size that [atoll] reads as zero or
    negative ends both with "Invalid n" and exit status 2, before anything
    is allocated.  For 0 < n < 2^31: when the vector cannot be allocated
    both print "ERROR:MEM" and return 3; otherwise both return 0 after
    printing the elapsed time only (the iteration count is defined and
    fits an [int] for every such n), and the vector they computed is the
    one the round loop of [src/grover.c] computes from the uniform state
    of size n with the target n / 3 ([grover_parallel] with the team of
    the given thread count, or the default team when that count is not
    positive). *)
Theorem stand_alone_programs (e : env) (prog s st : string) :
  let n := atoll s in
  let team := if 0 <? atoi st then atoi st else omp_max_threads e in
  (n <= 0 ->
   main_serial e [prog; s] = Ok 2 (put_err "Invalid n" world0) /\
   main_parallel e [prog; s; st] = Ok 2 (put_err "Invalid n" world0)) /\
  (0 < n < 2 ^ 31 -> malloc_ok e (sizeof_double * n) = false ->
   main_serial e [prog; s] = Ok 3 (put_err "ERROR:MEM" world0) /\
   main_parallel e [prog; s; st] = Ok 3 (put_err "ERROR:MEM" world0)) /\
  (0 < n < 2 ^ 31 -> malloc_ok e (sizeof_double * n) = true ->
   exists (iterations : Z) (a_s a_p : list double) (w_s w_p : world),
       cpp_iterations n = Some iterations /\
       main_serial e [prog; s] = Ok 0 w_s /\
       main_parallel e [prog; s; st] = Ok 0 w_p /\
       out w_s = [Seconds (Double.sub (clock e 1%nat) (clock e 0%nat))] /\
       out w_p = [Seconds (Double.sub (clock e 1%nat) (clock e 0%nat))] /\
       err w_s = [] /\ err w_p = [] /\
       runs w_s = [{| run_N := n; run_target := n / 3;
                      run_iterations := iterations; run_parallel := false;
                      run_threads := 1; run_vector := Some a_s |}] /\
       runs w_p = [{| run_N := n; run_target := n / 3;
                      run_iterations := iterations; run_parallel := true;
                      run_threads := team; run_vector := Some a_p |}] /\
       grover_loop (fun it => omp_sched e it) (Z.to_nat (n / 3)) false 1
         (Z.to_nat iterations) 0 (init_state (Z.to_nat n)) = Some a_s /\
       grover_loop (fun it => omp_sched e it) (Z.to_nat (n / 3)) true team
         (Z.to_nat iterations) 0 (init_state (Z.to_nat n)) = Some a_p).
Proof.
  intros n team.
  assert (Hser : main_serial e [prog; s]
                 = if n <=? 0 then Ok 2 (put_err "Invalid n" world0)
                   else cpp_run e n false 1
                          (fun markedIndex _ a => grover_iteration a markedIndex))
    by reflexivity.
  assert (Hpar : main_parallel e [prog; s; st]
                 = if n <=? 0 then Ok 2 (put_err "Invalid n" world0)
                   else cpp_run e n true team
                          (fun markedIndex it a =>
                             grover_iteration_omp (omp_sched e it)
                               (omp_team team) a markedIndex))
    by reflexivity.
  rewrite Hser, Hpar. clear Hser Hpar.
  split; [ | split].
  - intros Hn. destruct (Z.leb_spec n 0) as [_ | Hgt]; [ | lia].
    split; reflexivity.
  - intros Hn Hm. destruct (Z.leb_spec n 0) as [Hle | _]; [lia | ].
    unfold cpp_run.
    replace (to_size_t n) with n
      by (unfold to_size_t; rewrite Z.mod_small; lia).
    destruct (Z.ltb_spec vector_max_size n) as [Hbig | _];
      [unfold vector_max_size in Hbig; lia | ].
    rewrite Hm. split; reflexivity.
  - intros Hn Hm.
    destruct (cpp_iterations_defined Hn) as (iterations & Hi & _).
    destruct (Z.leb_spec n 0) as [Hle | _]; [lia | ].
    destruct (@cpp_run_outcome e n iterations false 1 Hn Hm Hi)
      as (a_s & w_s & Hs & Hos & Hes & Hrs & Hgs & _).
    destruct (@cpp_run_outcome e n iterations true team Hn Hm Hi)
      as (a_p & w_p & Hp & Hop & Hep & Hrp & Hgp & _).
    cbv iota in Hs, Hp.
    exists iterations, a_s, a_p, w_s, w_p.
    repeat split; assumption.
Qed.

Lemma stand_alone_programs_witness :
  0 < atoll "8" < 2 ^ 31 /\
  malloc_ok env0 (sizeof_double * atoll "8") = true /\
  exists (iterations : Z) (w_s w_p : world),
    cpp_iterations (atoll "8") = Some iterations /\
    main_serial env0 ["grover_serial"; "8"] = Ok 0 w_s /\
    main_parallel env0 ["grover_serial"; "8"; "2"] = Ok 0 w_p.
Proof.
  assert (H1 : 0 < atoll "8" < 2 ^ 31) by (vm_compute; split; reflexivity).
  assert (H2 : malloc_ok env0 (sizeof_double * atoll "8") = true)
    by reflexivity.
  split; [exact H1 | split; [exact H2 | ]].
  destruct (proj2 (proj2 (@stand_alone_programs env0 "grover_serial" "8" "2"))
              H1 H2)
    as (iterations & a_s & a_p & w_s & w_p & Hi & Hs & Hp & _).
  exists iterations, w_s, w_p.
  split; [exact Hi | split; [exact Hs | exact Hp]].
Defined.
